(** * chemcoord: bond inference, bond-graph traversal and safe mutation

    A shallow embedding of
    [chemcoord/cartesian_coordinates/_cartesian_class_core.py] and
    [chemcoord/internal_coordinates/_indexers.py].

    Modelling conventions.
    - Coordinates and radii are exact rationals ([Q]) where a property
      does not hinge on rounding; the bond test only needs [+], [-], [*]
      and [>=].  Where rounding decides, at the boundary of the bond test,
      the test is followed in double precision (module [binary64]).  The
      dihedral needs a square root and an inverse cosine and is computed
      over [R], the coordinates being injected with [Q2R].
    - A Python [set] of integers is a [gset Z], a [dict] from integers to
      sets is a [gmap Z (gset Z)].  The order in which Python iterates over
      a set or over the keys of a dict is not fixed by the language: it is
      a parameter ([PyOrder]) and every result below holds for each order.
    - A Python exception is a [Raise e] result.  Methods that assign to
      attributes of [self] take the object and return the new object next
      to their result. *)

From Stdlib Require Import ZArith QArith Qabs Lia Reals Psatz.
From Stdlib Require Import Floats.SpecFloat.
From stdpp Require Import base gmap sets list strings sorting.

Open Scope Z_scope.

(** ** Exceptions and results *)

Inductive exn :=
  | ZeroDivisionError
  | IndexError
  | KeyError
  | ValueError
  | AssertionError
  | TypeError (unexpected_keyword : string)
  (** not a Python exception: the bound of a modelled [while] loop was
      reached before the loop ended *)
  | FuelExhausted.

Inductive result (A : Type) :=
  | Ok (a : A)
  | Raise (e : exn).
Arguments Ok {A} a.
Arguments Raise {A} e.

Definition rbind {A B} (r : result A) (k : A → result B) : result B :=
  match r with
  | Ok a => k a
  | Raise e => Raise e
  end.

Notation "x ← r ;;; k" := (rbind r (λ x, k))
  (at level 20, r at level 100, k at level 200, right associativity,
   format "x  ←  r  ;;;  '/' k").

(** [for x in xs: acc = body(acc, x)], leaving the loop at the first
    exception. *)
Fixpoint for_each {A S} (xs : list A) (body : S → A → result S) (acc : S)
  : result S :=
  match xs with
  | [] => Ok acc
  | x :: xs' => acc' ← body acc x ;;; for_each xs' body acc'
  end.

(** [[f(x) for x in xs]] *)
Fixpoint map_result {A B} (f : A → result B) (xs : list A) : result (list B) :=
  match xs with
  | [] => Ok []
  | x :: xs' => b ← f x ;;; bs ← map_result f xs' ;;; Ok (b :: bs)
  end.

(** ** Iteration order of sets and dicts *)

Record PyOrder := {
  (** [for x in s] for a set [s] *)
  iter_set : gset Z → list Z;
  iter_set_perm : ∀ s, iter_set s ≡ₚ elements s;
  (** [for k in d] for a dict [d] *)
  iter_dict : gmap Z (gset Z) → list Z;
  iter_dict_perm : ∀ d, iter_dict d ≡ₚ elements (dom d);
  (** [chemcoord.utilities.set_utilities.pick]: some element of a
      non-empty set *)
  pick : gset Z → Z;
  pick_elem_of : ∀ s, s ≠ ∅ → pick s ∈ s;
}.

(** The order in which stdpp lists a set; one order among all. *)
Definition canonical_order : PyOrder.
Proof.
  refine {| iter_set := elements;
            iter_dict := λ d, elements (dom d);
            pick := λ s, default 0 (head (elements s)) |}.
  - reflexivity.
  - reflexivity.
  - intros s Hs. destruct (elements s) as [|a l] eqn:E.
    + apply elements_empty_inv in E. apply leibniz_equiv in E. done.
    + simpl. apply elem_of_elements. rewrite E. left.
Defined.

Section order_facts.
Context (O : PyOrder).

Lemma elem_of_iter_set s a : a ∈ iter_set O s ↔ a ∈ s.
Proof. by rewrite (iter_set_perm O s), elem_of_elements. Qed.

Lemma NoDup_iter_set s : NoDup (iter_set O s).
Proof. rewrite (iter_set_perm O s). apply NoDup_elements. Qed.

Lemma elem_of_iter_dict d a : a ∈ iter_dict O d ↔ a ∈ dom d.
Proof. by rewrite (iter_dict_perm O d), elem_of_elements. Qed.

Lemma NoDup_iter_dict d : NoDup (iter_dict O d).
Proof. rewrite (iter_dict_perm O d). apply NoDup_elements. Qed.
End order_facts.

(** ** Data model *)

#[global] Instance Q_inhabited : Inhabited Q := populate 0%Q.

(** Position of one atom, the row [pos[i, :]] of an [n x 3] array. *)
Definition vec3 : Type := Q * Q * Q.

Definition coord (p : vec3) (h : nat) : Q :=
  match h with
  | O => p.1.1
  | S O => p.1.2
  | _ => p.2
  end.

(** One row of the frame: its index label and the required columns
    ['atom'], ['x'], ['y'], ['z']. *)
Record row := Row {
  label : Z;
  col_atom : string;
  col_x : Q;
  col_y : Q;
  col_z : Q;
}.

(** The adjacency relation: atom identifier to the set of its partners. *)
Abbreviation bond_dict_t := (gmap Z (gset Z)).

Record Cartesian := mkCartesian {
  _frame : list row;
  metadata : gmap string string;
  (** private metadata; its entries ['bond_dict'] and ['val_bond_dict']
      hold adjacency relations *)
  _metadata : gmap string bond_dict_t;
}.

(** [self.index] *)
Definition index_of (c : Cartesian) : list Z := label <$> _frame c.

(** [len(self)] *)
Definition len (c : Cartesian) : nat := length (_frame c).

(** [self.index = new_index]; pandas refuses a length mismatch. *)
Definition set_index (c : Cartesian) (new_index : list Z) : result Cartesian :=
  if decide (length new_index = len c) then
    Ok (mkCartesian
          (zip_with (λ r k, Row k (col_atom r) (col_x r) (col_y r) (col_z r))
                    (_frame c) new_index)
          (metadata c) (_metadata c))
  else Raise ValueError.

(** [range(n)] as index labels *)
Definition range (n : nat) : list Z := Z.of_nat <$> seq 0 n.

(** ** The bond test: [_jit_give_bond_array] *)

(** A square boolean array with in-place assignment. *)
Definition mget (A : list (list bool)) (i j : nat) : bool :=
  (A !!! i) !!! j.

Definition mset (A : list (list bool)) (i j : nat) (v : bool)
  : list (list bool) :=
  alter (<[j := v]>) i A.

(** [D = 0; for h in range(3): D += (pos[i, h] - pos[j, h])**2] *)
Definition sq_distance (pi pj : vec3) : Q :=
  foldl (λ D h, D + (coord pi h - coord pj h) ^ 2)%Q 0%Q (seq 0 3).

(** [(B - D) >= 0] with [B = (bond_radii[i] + bond_radii[j])**2] *)
Definition bond_test (pos : list vec3) (bond_radii : list Q) (i j : nat)
  : bool :=
  let D := sq_distance (pos !!! i) (pos !!! j) in
  let B := ((bond_radii !!! i + bond_radii !!! j) ^ 2)%Q in
  Qle_bool 0 (B - D).

Definition _jit_give_bond_array (pos : list vec3) (bond_radii : list Q)
    (self_bonding_allowed : bool) : list (list bool) :=
  let n := length pos in
  (* np.empty((n, n)): every entry is assigned below *)
  let bond_array := replicate n (replicate n false) in
  let bond_array :=
    foldl (λ A i,
      foldl (λ A j,
        let A := mset A i j (bond_test pos bond_radii i j) in
        mset A j i (mget A i j))
      A (seq i (n - i)))
    bond_array (seq 0 n) in
  if self_bonding_allowed then bond_array
  else foldl (λ A i, mset A i i false) bond_array (seq 0 n).

(** [bond_array.nonzero()]: the positions of the true entries, row by row *)
Definition nonzero (A : list (list bool)) : list (nat * nat) :=
  let n := length A in
  i ← seq 0 n; j ← seq 0 (length (A !!! i));
  if mget A i j then [(i, j)] else [].

(** ** Merging one cell into the adjacency relation: [_update_bond_dict] *)

(** [arr[k]] for a numpy array and an integer: a negative index counts
    from the end, an index out of range raises. *)
Definition take_at {A} (arr : list A) (k : Z) : result A :=
  if decide (0 ≤ k) then
    match arr !! Z.to_nat k with
    | Some a => Ok a
    | None => Raise IndexError
    end
  else
    if decide (- Z.of_nat (length arr) ≤ k) then
      match arr !! Z.to_nat (Z.of_nat (length arr) + k) with
      | Some a => Ok a
      | None => Raise IndexError
      end
    else Raise IndexError.

(** [bond_dict[index].add(b)] on a [collections.defaultdict(set)] *)
Definition dd_add (bond_dict : bond_dict_t) (a b : Z) : bond_dict_t :=
  <[a := {[b]} ∪ default ∅ (bond_dict !! a)]> bond_dict.

Definition _update_bond_dict (O : PyOrder) (fragment_indices : gset Z)
    (positions : list vec3) (bond_radii : list Q)
    (bond_dict : bond_dict_t) (self_bonding_allowed : bool)
  : result bond_dict_t :=
  let fragment_indices := iter_set O fragment_indices in
  (* convert_index = dict(enumerate(fragment_indices)) *)
  let convert_index (i : nat) : Z := fragment_indices !!! i in
  frag_pos ← map_result (take_at positions) fragment_indices ;;;
  frag_bond_radii ← map_result (take_at bond_radii) fragment_indices ;;;
  let bond_array :=
    _jit_give_bond_array frag_pos frag_bond_radii self_bonding_allowed in
  let ab := nonzero bond_array in
  Ok (foldl (λ bd p, dd_add bd (convert_index p.1) (convert_index p.2))
            bond_dict ab).

(** ** The spatial partition: [_divide_et_impera] *)

(** [self[axis]]: the column as a series of (label, value) *)
Definition column (c : Cartesian) (axis : row → Q) : list (Z * Q) :=
  (λ r, (label r, axis r)) <$> _frame c.

Definition by_value (e1 e2 : Z * Q) : Prop := Qle_bool e1.2 e2.2 = true.

#[global] Instance by_value_dec : RelDecision by_value :=
  λ e1 e2, decide (Qle_bool e1.2 e2.2 = true).

(** [series.sort_values()]: ascending by value *)
Definition sort_values (s : list (Z * Q)) : list (Z * Q) :=
  merge_sort by_value s.

Fixpoint first_from (fuel m : nat) (P : nat → bool) : nat :=
  match fuel with
  | O => m
  | S fuel' => if P m then m else first_from fuel' (S m) P
  end.

(** [ceil((n / n_atoms_per_set) ** (1 / 3))]: the least [m] with
    [n <= n_atoms_per_set * m^3], the exact value of the rounded-up cube
    root. *)
Definition ceil_cbrt (n n_atoms_per_set : nat) : nat :=
  first_from n 0 (λ m, n <=? n_atoms_per_set * m ^ 3)%nat.

(** [ceil(a / b)] for natural numbers, [b] not zero *)
Definition ceil_div (a b : nat) : nat := ((a + b - 1) / b)%nat.

(** [series.between(lo, hi)] then [set(series[selection].index)] *)
Definition between (series : list (Z * Q)) (lo hi : Q) : gset Z :=
  list_to_set
    (fst <$> filter (λ e, Qle_bool lo e.2 && Qle_bool e.2 hi = true) series).

Definition give_index (series : list (Z * Q)) (i N : nat) (offset : Q)
  : result (gset Z) :=
  min_max ←
    match series !! (i * N)%nat, series !! ((i + 1) * N)%nat with
    | Some lo, Some hi => Ok (lo.2, hi.2)
    | _, _ =>
      (* except IndexError: series.iloc[[i * N, -1]] *)
      match series !! (i * N)%nat, last series with
      | Some lo, Some hi => Ok (lo.2, hi.2)
      | _, _ => Raise IndexError
      end
    end ;;;
  Ok (between series (min_max.1 - offset)%Q (min_max.2 + offset)%Q).

Definition _divide_et_impera (c : Cartesian) (n_atoms_per_set : nat)
    (offset : Q) : result (list (list (list (gset Z)))) :=
  let sorted_x := sort_values (column c col_x) in
  let sorted_y := sort_values (column c col_y) in
  let sorted_z := sort_values (column c col_z) in
  if decide (n_atoms_per_set = 0%nat) then Raise ZeroDivisionError else
  let n_sets_along_axis := ceil_cbrt (len c) n_atoms_per_set in
  if decide (n_sets_along_axis = 0%nat) then Raise ZeroDivisionError else
  let n_atoms_per_set_along_axis := ceil_div (len c) n_sets_along_axis in
  let bands series :=
    map_result (λ i, give_index series i n_atoms_per_set_along_axis offset)
               (seq 0 n_sets_along_axis) in
  at_x ← bands sorted_x ;;;
  at_y ← bands sorted_y ;;;
  at_z ← bands sorted_z ;;;
  Ok ((λ sx, (λ sy, (λ sz, sx ∩ sy ∩ sz) <$> at_z) <$> at_y) <$> at_x).

(** ** The adjacency relation: [get_bonds] *)

(** [rename[key]] for [rename = dict(enumerate(index))] *)
Definition rename_at (index : list Z) (key : Z) : result Z :=
  if decide (0 ≤ key) then
    match index !! Z.to_nat key with
    | Some k => Ok k
    | None => Raise KeyError
    end
  else Raise KeyError.

(** The radius of every row: the column [atomic_radius_data] of the
    element table, then [bond_radii.update(pd.Series(modified_properties))],
    which replaces the entries whose index label is a key of the override. *)
Definition bond_radii_of (c : Cartesian) (atomic_radius_data : string → Q)
    (modified_properties : option (gmap Z Q)) : list Q :=
  (λ r,
     let r0 := atomic_radius_data (col_atom r) in
     match modified_properties with
     | Some mp => default r0 (mp !! label r)
     | None => r0
     end) <$> _frame c.

Definition positions_of (c : Cartesian) : list vec3 :=
  (λ r, (col_x r, col_y r, col_z r)) <$> _frame c.

(** [complete_calculation] of [get_bonds].  The source calls
    [self._divide_et_impera(offset=offset)], so [n_atoms_per_set] is 500
    there; it is a parameter here so that the cell size can be varied. *)
Definition complete_calculation (O : PyOrder) (c : Cartesian)
    (n_atoms_per_set : nat) (self_bonding_allowed : bool) (offset : Q)
    (modified_properties : option (gmap Z Q))
    (atomic_radius_data : string → Q) : Cartesian * result bond_dict_t :=
  let old_index := index_of c in
  match set_index c (range (len c)) with
  | Raise e => (c, Raise e)
  | Ok c1 =>
    let computed :=
      fragments ← _divide_et_impera c1 n_atoms_per_set offset ;;;
      let positions := positions_of c1 in
      let bond_radii :=
        bond_radii_of c1 atomic_radius_data modified_properties in
      bond_dict ←
        for_each (concat (concat fragments))
          (λ bond_dict cell,
             _update_bond_dict O cell positions bond_radii bond_dict
                               self_bonding_allowed)
          (∅ : bond_dict_t) ;;;
      Ok (foldl (λ bd i, <[i := ∅]> bd) bond_dict
            (iter_set O (list_to_set (index_of c1) ∖ dom bond_dict))) in
    match computed with
    | Raise e => (c1, Raise e)
    | Ok bond_dict =>
      match set_index c1 old_index with
      | Raise e => (c1, Raise e)
      | Ok c2 =>
        let rename := rename_at (index_of c2) in
        (c2,
         for_each (iter_dict O bond_dict)
           (λ new key,
              key' ← rename key ;;;
              partners ←
                for_each (iter_set O (default ∅ (bond_dict !! key)))
                  (λ acc i, i' ← rename i ;;; Ok ({[i']} ∪ acc))
                  (∅ : gset Z) ;;;
              Ok (<[key' := partners]> new))
           (∅ : bond_dict_t))
      end
    end
  end.

Definition get_bonds (O : PyOrder) (c : Cartesian)
    (self_bonding_allowed : bool) (offset : Q)
    (modified_properties : option (gmap Z Q))
    (use_lookup set_lookup : bool) (atomic_radius_data : string → Q)
  : Cartesian * result bond_dict_t :=
  let calc :=
    complete_calculation O c 500 self_bonding_allowed offset
                         modified_properties atomic_radius_data in
  let '(c', bond_dict) :=
    if use_lookup then
      match _metadata c !! "bond_dict" with
      | Some bond_dict => (c, Ok bond_dict)
      | None => calc
      end
    else calc in
  match bond_dict with
  | Raise e => (c', Raise e)
  | Ok bd =>
    if set_lookup then
      (mkCartesian (_frame c') (metadata c')
                   (<["bond_dict" := bd]> (_metadata c')), Ok bd)
    else (c', Ok bd)
  end.


(** ** Reading an adjacency relation *)

(** The partners of [i]; an identifier without entry has none. *)
Definition bonds (bond_dict : bond_dict_t) (i : Z) : gset Z :=
  default ∅ (bond_dict !! i).

(** ** Settings and the tabular layer *)

(** [chemcoord.configuration.settings['defaults']], a parameter: the
    default of [use_lookup] and the column of the element table that
    [atomic_radius_data] names. *)
Record Settings := {
  default_use_lookup : bool;
  default_atomic_radius_data : string → Q;
}.

(** [self.get_bonds(use_lookup=use_lookup)]: every other argument at its
    default. *)
Definition get_bonds_default (O : PyOrder) (st : Settings) (c : Cartesian)
    (use_lookup : bool) : Cartesian * result bond_dict_t :=
  get_bonds O c false 3 None use_lookup true (default_atomic_radius_data st).

(** Modelled from the spec: [self.loc[labels]] of the tabular layer
    ([PandasWrapper], not part of the sources), "label-based get access to
    atom records": the rows of the given labels, in the order the labels
    are listed, as a new [Cartesian] that carries copies of both metadata
    dicts ([_return_appropiate_type]); a label without row is a
    [KeyError]. *)
Definition loc_labels (c : Cartesian) (labels : list Z) : result Cartesian :=
  rows ← map_result
           (λ k, match filter (λ r, label r = k) (_frame c) with
                 | [] => Raise KeyError
                 | rs => Ok rs
                 end) labels ;;;
  Ok (mkCartesian (concat rows) (metadata c) (_metadata c)).

(** [self.loc[i, 'atom']] *)
Definition loc_atom (c : Cartesian) (i : Z) : result string :=
  match filter (λ r, label r = i) (_frame c) with
  | [] => Raise KeyError
  | r :: _ => Ok (col_atom r)
  end.

(** What a method with a [give_only_index] flag returns. *)
Inductive selection :=
  | Indices (s : gset Z)
  | Frame (c : Cartesian).

Definition select (O : PyOrder) (c : Cartesian) (give_only_index : bool)
    (s : gset Z) : result selection :=
  if give_only_index then Ok (Indices s)
  else f ← loc_labels c (iter_set O s) ;;; Ok (Frame f).

(** ** Graph traversal *)

(** [d[k]] on a plain dict *)
Definition dict_get (d : bond_dict_t) (k : Z) : result (gset Z) :=
  match d !! k with
  | Some v => Ok v
  | None => Raise KeyError
  end.

(** [{j: bond_dict[j] - visited for j in bond_dict[i]}] inside
    [try: ... except KeyError: tmp_bond_dict = {}] *)
Definition first_sphere (O : PyOrder) (bond_dict : bond_dict_t) (i : Z)
    (visited : gset Z) : result bond_dict_t :=
  match
    partners ← dict_get bond_dict i ;;;
    for_each (iter_set O partners)
      (λ tmp j, pj ← dict_get bond_dict j ;;; Ok (<[j := pj ∖ visited]> tmp))
      (∅ : bond_dict_t)
  with
  | Ok tmp => Ok tmp
  | Raise KeyError => Ok ∅
  | Raise e => Raise e
  end.

(** The body of the [while] loop, the same in [give_coordination_sphere]
    and [connected_to]:
    [for i in tmp_bond_dict:
         if i in visited: continue
         visited.add(i)
         for j in tmp_bond_dict[i]:
             new_tmp_bond_dict[j] = bond_dict[j] - visited] *)
Definition sphere_step (O : PyOrder) (bond_dict tmp_bond_dict : bond_dict_t)
    (visited : gset Z) : result (gset Z * bond_dict_t) :=
  for_each (iter_dict O tmp_bond_dict)
    (λ state i,
       let visited := state.1 in
       let new_tmp_bond_dict := state.2 in
       if decide (i ∈ visited) then Ok (visited, new_tmp_bond_dict)
       else
         let visited := {[i]} ∪ visited in
         new_tmp_bond_dict ←
           for_each (iter_set O (default ∅ (tmp_bond_dict !! i)))
             (λ new j,
                pj ← dict_get bond_dict j ;;; Ok (<[j := pj ∖ visited]> new))
             new_tmp_bond_dict ;;;
         Ok (visited, new_tmp_bond_dict))
    (visited, (∅ : bond_dict_t)).

(** [while tmp_bond_dict and <bound on n>: <body>; n += 1] *)
Fixpoint sphere_loop (O : PyOrder) (bond_dict : bond_dict_t)
    (within_bound : nat → bool) (fuel : nat) (visited : gset Z)
    (tmp_bond_dict : bond_dict_t) (n : nat)
  : result (gset Z * bond_dict_t) :=
  if decide (tmp_bond_dict = ∅) then Ok (visited, tmp_bond_dict)
  else if within_bound n then
    match fuel with
    | O => Raise FuelExhausted
    | S fuel' =>
      state ← sphere_step O bond_dict tmp_bond_dict visited ;;;
      sphere_loop O bond_dict within_bound fuel' state.1 state.2 (S n)
    end
  else Ok (visited, tmp_bond_dict).

(** The traversal of [give_coordination_sphere] on a given relation; the
    loop runs while [(n + 1) < n_sphere]. *)
Definition coordination_sphere_keys (O : PyOrder) (bond_dict : bond_dict_t)
    (index_of_atom : Z) (n_sphere : Z) : result (gset Z) :=
  let i := index_of_atom in
  let visited : gset Z := {[i]} in
  tmp_bond_dict ← first_sphere O bond_dict i visited ;;;
  state ← sphere_loop O bond_dict
             (λ n, bool_decide (Z.of_nat n + 1 < n_sphere))
             (Z.to_nat n_sphere) visited tmp_bond_dict 0 ;;;
  Ok (dom state.2).

Definition give_coordination_sphere (O : PyOrder) (st : Settings)
    (c : Cartesian) (index_of_atom : Z) (n_sphere : Z)
    (give_only_index use_lookup : bool) : Cartesian * result selection :=
  let '(c, r) := get_bonds_default O st c use_lookup in
  (c,
   bond_dict ← r ;;;
   keys ← coordination_sphere_keys O bond_dict index_of_atom n_sphere ;;;
   select O c give_only_index keys).

(** The traversal of [connected_to] on a given relation; [n_sphere] is
    [None] for [float('inf')], the loop runs while [n < n_sphere]. *)
Definition connected_indices (O : PyOrder) (bond_dict : bond_dict_t)
    (index_of_atom : Z) (n_sphere : option Z) (exclude : gset Z)
  : result (gset Z) :=
  let i := index_of_atom in
  let visited : gset Z := {[i]} ∪ exclude in
  tmp_bond_dict ← first_sphere O bond_dict i visited ;;;
  state ← sphere_loop O bond_dict
             (λ n, match n_sphere with
                   | None => true
                   | Some k => bool_decide (Z.of_nat n < k)
                   end)
             (S (size bond_dict)) visited tmp_bond_dict 0 ;;;
  Ok (state.1 ∖ exclude).

Definition connected_to (O : PyOrder) (st : Settings) (c : Cartesian)
    (index_of_atom : Z) (n_sphere : option Z) (give_only_index : bool)
    (exclude : option (gset Z)) (use_lookup : bool)
  : Cartesian * result selection :=
  let exclude := default ∅ exclude in
  let '(c, r) := get_bonds_default O st c use_lookup in
  (c,
   bond_dict ← r ;;;
   found ← connected_indices O bond_dict index_of_atom n_sphere exclude ;;;
   select O c give_only_index found).

(** A call that asked for indices hands back a set. *)
Definition as_indices (r : result selection) : result (gset Z) :=
  sel ← r ;;;
  match sel with
  | Indices s => Ok s
  | Frame f => Ok (list_to_set (index_of f))
  end.

(** [s.pop()] *)
Definition set_pop (O : PyOrder) (s : gset Z) : result (Z * gset Z) :=
  match iter_set O s with
  | [] => Raise KeyError
  | x :: _ => Ok (x, s ∖ {[x]})
  end.

(** [while not new_atoms == set([]): ...] of [_preserve_bonds] *)
Fixpoint preserve_loop (O : PyOrder) (st : Settings) (use_lookup : bool)
    (fuel : nat) (c : Cartesian) (included_atoms_set new_atoms : gset Z)
  : Cartesian * result (gset Z) :=
  if decide (new_atoms = ∅) then (c, Ok included_atoms_set)
  else
    match fuel with
    | O => (c, Raise FuelExhausted)
    | S fuel' =>
      match set_pop O new_atoms with
      | Raise e => (c, Raise e)
      | Ok (index_of_interest, new_atoms) =>
        let '(c, r) :=
          connected_to O st c index_of_interest None true
                       (Some included_atoms_set) use_lookup in
        match as_indices r with
        | Raise e => (c, Raise e)
        | Ok found =>
          let included_atoms_set := included_atoms_set ∪ found in
          let new_atoms := new_atoms ∖ included_atoms_set in
          preserve_loop O st use_lookup fuel' c included_atoms_set new_atoms
        end
      end
    end.

Definition _preserve_bonds (O : PyOrder) (st : Settings) (c : Cartesian)
    (sliced_cartesian : Cartesian) (use_lookup : bool)
  : Cartesian * result Cartesian :=
  let included_atoms_set : gset Z := list_to_set (index_of sliced_cartesian) in
  if decide (included_atoms_set ⊆ list_to_set (index_of c)) then
    let '(c, r) := get_bonds_default O st c use_lookup in
    match r with
    | Raise e => (c, Raise e)
    | Ok bond_dic =>
      match
        for_each (iter_set O included_atoms_set)
          (λ new_atoms atom,
             p ← dict_get bond_dic atom ;;; Ok (new_atoms ∪ p))
          (∅ : gset Z)
      with
      | Raise e => (c, Raise e)
      | Ok new_atoms =>
        let new_atoms := new_atoms ∖ included_atoms_set in
        let '(c, r) :=
          preserve_loop O st use_lookup (size new_atoms) c
                        included_atoms_set new_atoms in
        (c, included ← r ;;; loc_labels c (iter_set O included))
      end
    end
  else (c, Raise AssertionError).

(** [{j: bond_dict[j] & set(self.index) for j in self.index}] *)
Definition restrict_bond_dict (c : Cartesian) (bond_dict : bond_dict_t)
  : result bond_dict_t :=
  for_each (index_of c)
    (λ new j,
       pj ← dict_get bond_dict j ;;;
       Ok (<[j := pj ∩ list_to_set (index_of c)]> new))
    (∅ : bond_dict_t).

(** [self._metadata[key]] *)
Definition private_metadata (c : Cartesian) (key : string)
  : result bond_dict_t :=
  match _metadata c !! key with
  | Some d => Ok d
  | None => Raise KeyError
  end.

(** The fragment as a [Cartesian] with the parent's relations restricted
    to it. *)
Definition fragment_frame (O : PyOrder) (c : Cartesian) (index : gset Z)
  : result Cartesian :=
  fragment ← loc_labels c (iter_set O index) ;;;
  parent_bond_dict ← private_metadata c "bond_dict" ;;;
  bond_dict ← restrict_bond_dict fragment parent_bond_dict ;;;
  let fragment :=
    mkCartesian (_frame fragment) (metadata fragment)
                (<["bond_dict" := bond_dict]> (_metadata fragment)) in
  match private_metadata c "val_bond_dict" with
  | Raise KeyError => Ok fragment
  | Raise e => Raise e
  | Ok parent_val =>
    (* the KeyError of the restriction is swallowed as well *)
    match restrict_bond_dict fragment parent_val with
    | Ok val =>
      Ok (mkCartesian (_frame fragment) (metadata fragment)
                      (<["val_bond_dict" := val]> (_metadata fragment)))
    | Raise KeyError => Ok fragment
    | Raise e => Raise e
    end
  end.

(** [while pending: ...] of [fragmentate] *)
Fixpoint fragmentate_loop (O : PyOrder) (st : Settings)
    (give_only_index : bool) (fuel : nat) (c : Cartesian)
    (pending : gset Z) (fragments : list selection)
  : Cartesian * result (list selection) :=
  if decide (pending = ∅) then (c, Ok fragments)
  else
    match fuel with
    | O => (c, Raise FuelExhausted)
    | S fuel' =>
      let '(c, r) :=
        connected_to O st c (pick O pending) None true None true in
      match as_indices r with
      | Raise e => (c, Raise e)
      | Ok index =>
        let pending := pending ∖ index in
        if give_only_index then
          fragmentate_loop O st give_only_index fuel' c pending
                           (fragments ++ [Indices index])
        else
          match fragment_frame O c index with
          | Raise e => (c, Raise e)
          | Ok fragment =>
            fragmentate_loop O st give_only_index fuel' c pending
                             (fragments ++ [Frame fragment])
          end
      end
    end.

Definition fragmentate (O : PyOrder) (st : Settings) (c : Cartesian)
    (give_only_index use_lookup : bool) : Cartesian * result (list selection) :=
  let pending : gset Z := list_to_set (index_of c) in
  let '(c, r) := get_bonds_default O st c use_lookup in
  match r with
  | Raise e => (c, Raise e)
  | Ok _ =>
    fragmentate_loop O st give_only_index (size pending) c pending []
  end.

(** [get_fragment]: the atoms connected to [list_of_indextuples[0][1]]
    when the first components are excluded. *)
Definition get_fragment (O : PyOrder) (st : Settings) (c : Cartesian)
    (list_of_indextuples : list (Z * Z)) (give_only_index use_lookup : bool)
  : Cartesian * result selection :=
  let exclude : gset Z := list_to_set (list_of_indextuples.*1) in
  match list_of_indextuples with
  | [] => (c, Raise IndexError)
  | first :: _ =>
    let '(c, r) :=
      connected_to O st c first.2 None true (Some exclude) use_lookup in
    (c, fragment_index ← as_indices r ;;;
        select O c give_only_index fragment_index)
  end.

(** ** Chemical environments: [partition_chem_env] *)

(** A value passed as a keyword argument. *)
Inductive pyarg :=
  | ArgInt (z : Z)
  | ArgBool (b : bool)
  | ArgSet (s : gset Z).

(** The parameters of [connected_to] after [self]. *)
Definition connected_to_parameters : list string :=
  ["index_of_atom"; "n_sphere"; "give_only_index"; "exclude"; "use_lookup"].

Fixpoint keyword (kwargs : list (string * pyarg)) (name : string)
  : option pyarg :=
  match kwargs with
  | [] => None
  | (k, v) :: rest => if decide (k = name) then Some v else keyword rest name
  end.

(** [self.connected_to(index_of_atom, **kwargs)].  Python binds the
    keywords to the parameters before the body runs; [connected_to] takes
    no [**kwargs], so a keyword that names none of its parameters raises
    [TypeError]. *)
Definition connected_to_call (O : PyOrder) (st : Settings) (c : Cartesian)
    (index_of_atom : Z) (kwargs : list (string * pyarg))
  : Cartesian * result selection :=
  match filter (λ kw, kw.1 ∉ connected_to_parameters) kwargs with
  | kw :: _ => (c, Raise (TypeError kw.1))
  | [] =>
    connected_to O st c index_of_atom
      (match keyword kwargs "n_sphere" with
       | Some (ArgInt z) => Some z
       | _ => None
       end)
      (match keyword kwargs "give_only_index" with
       | Some (ArgBool b) => b
       | _ => false
       end)
      (match keyword kwargs "exclude" with
       | Some (ArgSet s) => Some s
       | _ => None
       end)
      (match keyword kwargs "use_lookup" with
       | Some (ArgBool b) => b
       | _ => default_use_lookup st
       end)
  end.

(** [collections.Counter(atoms).most_common()]: each symbol with the
    number of its occurrences. *)
Definition most_common (atoms : list string) : list (string * nat) :=
  (λ a, (a, length (filter (λ b, b = a) atoms))) <$> remove_dups atoms.

(** A chemical environment: the own symbol and the frozenset of
    [(symbol, count)]. *)
Definition chem_env : Type := string * gset (string * nat).

Definition get_chem_env (O : PyOrder) (st : Settings) (use_lookup : bool)
    (c : Cartesian) (i : Z) (follow_bonds : Z)
  : Cartesian * result chem_env :=
  let '(c, r) :=
    connected_to_call O st c i
      [("follow_bonds", ArgInt follow_bonds);
       ("give_only_index", ArgBool true);
       ("use_lookup", ArgBool use_lookup)] in
  (c,
   indices_of_env_atoms ← as_indices r ;;;
   (* indices_of_env_atoms.remove(i) *)
   if decide (i ∈ indices_of_env_atoms) then
     let indices_of_env_atoms := indices_of_env_atoms ∖ {[i]} in
     own_symbol ← loc_atom c i ;;;
     atoms ← map_result (loc_atom c) (iter_set O indices_of_env_atoms) ;;;
     Ok (own_symbol, list_to_set (most_common atoms))
   else Raise KeyError).

(** [for i in self.index: ...] of [partition_chem_env] *)
Fixpoint chem_env_loop (O : PyOrder) (st : Settings) (use_lookup : bool)
    (follow_bonds : Z) (indices : list Z) (c : Cartesian)
    (env_dict : gmap chem_env (gset Z))
  : Cartesian * result (gmap chem_env (gset Z)) :=
  match indices with
  | [] => (c, Ok env_dict)
  | i :: rest =>
    let '(c, r) := get_chem_env O st use_lookup c i follow_bonds in
    match r with
    | Raise e => (c, Raise e)
    | Ok env =>
      chem_env_loop O st use_lookup follow_bonds rest c
        (<[env := {[i]} ∪ default ∅ (env_dict !! env)]> env_dict)
    end
  end.

Definition partition_chem_env (O : PyOrder) (st : Settings) (c : Cartesian)
    (follow_bonds : Z) (use_lookup : bool)
  : Cartesian * result (gmap chem_env (gset Z)) :=
  chem_env_loop O st use_lookup follow_bonds (index_of c) c ∅.

(** ** Dihedral angles: [dihedral_degrees] *)

(** One row of an [n x 3] array of floats, read as real numbers. *)
Definition rvec : Type := R * R * R.

(** [self.loc[labels, ['x', 'y', 'z']].values] *)
Definition loc_coords (c : Cartesian) (labels : list Z) : result (list rvec) :=
  rows ← loc_labels c labels ;;;
  Ok ((λ r, (Q2R (col_x r), Q2R (col_y r), Q2R (col_z r))) <$> _frame rows).

(** An elementwise operation of numpy on two arrays, broadcast along the
    first axis: equal lengths, or one of the two of length one. *)
Definition broadcast {A B C} (f : A → B → C) (xs : list A) (ys : list B)
  : result (list C) :=
  if decide (length xs = length ys) then Ok (zip_with f xs ys)
  else match xs, ys with
       | [x], _ => Ok (f x <$> ys)
       | _, [y] => Ok ((λ x, f x y) <$> xs)
       | _, _ => Raise ValueError
       end.

Definition vsub (u v : rvec) : rvec :=
  (u.1.1 - v.1.1, u.1.2 - v.1.2, u.2 - v.2)%R.

(** [np.cross(u, v, axis=1)], one row *)
Definition cross (u v : rvec) : rvec :=
  (u.1.2 * v.2 - u.2 * v.1.2,
   u.2 * v.1.1 - u.1.1 * v.2,
   u.1.1 * v.1.2 - u.1.2 * v.1.1)%R.

(** [np.sum(u * v, axis=1)], one row *)
Definition dot (u v : rvec) : R :=
  (u.1.1 * v.1.1 + u.1.2 * v.1.2 + u.2 * v.2)%R.

(** [np.linalg.norm(v, axis=1)], one row *)
Definition norm (v : rvec) : R := sqrt (dot v v).

(** [v / np.linalg.norm(v, axis=1)[:, None]], one row.  The zero vector
    gives a row of [nan], written [None]; every later operation on it
    gives [nan] again and every comparison with it is false. *)
Definition normalised (v : rvec) : option rvec :=
  if Req_dec_T (norm v) 0 then None
  else Some (v.1.1 / norm v, v.1.2 / norm v, v.2 / norm v)%R.

(** [x[x > 1] = 1; x[x < -1] = -1], one entry *)
Definition clip (x : R) : R :=
  let x := if Rlt_dec 1 x then 1%R else x in
  if Rlt_dec x (-1) then (-1)%R else x.

(** [np.degrees] *)
Definition degrees (x : R) : R := (x * 180 / PI)%R.

(** [np.nonzero(t > 0)[0]] *)
Definition positive_positions (t : list (option R)) : list nat :=
  k ← seq 0 (length t);
  match t !! k with
  | Some (Some x) => if Rlt_dec 0 x then [k] else []
  | _ => []
  end.

(** [arr[positions] = v] for an array of positions; a position past the
    end raises. *)
Definition assign_at (arr : list R) (positions : list nat) (v : R)
  : result (list R) :=
  for_each positions
    (λ arr k, if decide (k < length arr)%nat then Ok (<[k := v]> arr)
              else Raise IndexError)
    arr.

(** [dihedral_degrees(indices, start_row)] for [indices] given as a list
    of chains [[i, b, a, d]]; the single chain [[i, b, a, d]] is the list
    of length one. *)
Definition dihedral_degrees (c : Cartesian) (indices : list (Z * Z * Z * Z))
    (start_row : Z) : result (list (option R)) :=
  match indices with
  | [] => Raise IndexError
  | _ =>
    i_pos ← loc_coords c ((λ q, q.1.1.1) <$> indices) ;;;
    b_pos ← loc_coords c ((λ q, q.1.1.2) <$> indices) ;;;
    a_pos ← loc_coords c ((λ q, q.1.2) <$> indices) ;;;
    d_pos ← loc_coords c ((λ q, q.2) <$> indices) ;;;
    IB ← broadcast vsub b_pos i_pos ;;;
    BA ← broadcast vsub a_pos b_pos ;;;
    AD ← broadcast vsub d_pos a_pos ;;;
    N1 ← broadcast cross IB BA ;;;
    N2 ← broadcast cross BA AD ;;;
    let n1 := normalised <$> N1 in
    let n2 := normalised <$> N2 in
    dot_product ← broadcast
      (λ u v, u ← u; v ← v; Some (clip (dot u v))) n1 n2 ;;;
    let dihedrals := fmap (λ x, degrees (acos x)) <$> dot_product in
    n1_x_n2 ← broadcast (λ u v, u ← u; v ← v; Some (cross u v)) n1 n2 ;;;
    direction ← broadcast (λ u v, dot u <$> v) BA n1_x_n2 ;;;
    let where_to_modify := positive_positions direction in
    let length := Z.of_nat (length indices) - start_row in
    if decide (length < 0) then Raise ValueError
    else
      sign ← assign_at (replicate (Z.to_nat length) 1%R)
                       where_to_modify (-1)%R ;;;
      to_add ← assign_at (replicate (Z.to_nat length) 0%R)
                         where_to_modify 360%R ;;;
      scaled ← broadcast (λ s x, Rmult s <$> x) sign dihedrals ;;;
      broadcast (λ t x, Rplus t <$> x) to_add scaled
  end.

(** ** Indexers of the internal coordinates: [_indexers.py] *)

Module indexers.

(** The identity of a Python object. *)
Definition addr : Type := positive.

(** [key]: a tuple ([isinstance(key, tuple)]) or anything else. *)
Inductive index_key (K : Type) :=
  | Label (k : K)
  | Tuple (ks : list K).
Arguments Label {K} k.
Arguments Tuple {K} ks.

(** What a call raises.  An [InvalidReference] is an object with
    attributes; [zmat_after_assignment] is the one these classes set. *)
Inductive error (D : Type) :=
  | InvalidReference (details : D) (zmat_after_assignment : option addr)
  | NotImplementedError
  | Other (e : exn)
  (** not a Python exception: the store has no object at the address *)
  | NoSuchObject.
Arguments InvalidReference {D} details zmat_after_assignment.
Arguments NotImplementedError {D}.
Arguments Other {D} e.
Arguments NoSuchObject {D}.

Inductive outcome (D A : Type) :=
  | Done (a : A)
  | Raised (e : error D).
Arguments Done {D A} a.
Arguments Raised {D A} e.

(** A [Zmat] object: its frame and its private metadata, of which only
    boolean flags are read here. *)
Record Zmat (F : Type) := mkZmat {
  _frame : F;
  _metadata : gmap string bool;
}.
Arguments mkZmat {F} _frame _metadata.
Arguments _frame {F} z.
Arguments _metadata {F} z.

(** The objects of the program, by identity. *)
Abbreviation store F := (gmap addr (Zmat F)).

(** What these classes call and the sources do not contain: label and
    position access of the pandas frame, which may raise, and the methods
    of [Zmat] that rebuild the Cartesian coordinates and handle dummy
    atoms, which work on the object they are called on. *)
Record Collaborators := {
  frame : Type;
  key : Type;
  value : Type;
  selected : Type;
  details : Type;
  (** [frame.loc[k]] and [frame.loc[k0, k1]] *)
  loc_get : frame → key → outcome details selected;
  loc_get2 : frame → key → key → outcome details selected;
  (** [frame.loc[k] = v] and [frame.loc[k0, k1] = v] *)
  loc_set : frame → key → value → outcome details frame;
  loc_set2 : frame → key → key → value → outcome details frame;
  (** the same by position, [frame.iloc] *)
  iloc_get : frame → key → outcome details selected;
  iloc_get2 : frame → key → key → outcome details selected;
  iloc_set : frame → key → value → outcome details frame;
  iloc_set2 : frame → key → key → value → outcome details frame;
  (** [zmat.give_cartesian()], its result dropped *)
  give_cartesian : store frame → addr → store frame * outcome details unit;
  (** [zmat._insert_dummy_zmat(exception, inplace=True)] *)
  _insert_dummy_zmat :
    store frame → addr → error details → store frame * outcome details unit;
  (** [zmat._remove_dummies(inplace=True)] *)
  _remove_dummies : store frame → addr → store frame * outcome details unit;
}.

(** [_generic_Indexer]: an object with one attribute. *)
Record indexer := mkIndexer {
  molecule : addr;
}.

(** [_generic_Indexer.__init__] *)
Definition __init__ (molecule : addr) : indexer := mkIndexer molecule.

Section classes.
Context (L : Collaborators).

Abbreviation state := (store (frame L) * indexer)%type.

(** [self.molecule._frame] *)
Definition molecule_frame (st : state) : outcome (details L) (frame L) :=
  match st.1 !! molecule st.2 with
  | Some z => Done (_frame z)
  | None => Raised NoSuchObject
  end.

(** The two forms of [frame.loc[...]]; [key[0]] and [key[1]] of a tuple
    that is too short raise. *)
Definition get_by (get : frame L → key L → outcome (details L) (selected L))
    (get2 : frame L → key L → key L → outcome (details L) (selected L))
    (f : frame L) (k : index_key (key L))
  : outcome (details L) (selected L) :=
  match k with
  | Tuple (k0 :: k1 :: _) => get2 f k0 k1
  | Tuple _ => Raised (Other IndexError)
  | Label k => get f k
  end.

Definition set_by (set : frame L → key L → value L → outcome (details L) (frame L))
    (set2 : frame L → key L → key L → value L → outcome (details L) (frame L))
    (f : frame L) (k : index_key (key L)) (v : value L)
  : outcome (details L) (frame L) :=
  match k with
  | Tuple (k0 :: k1 :: _) => set2 f k0 k1 v
  | Tuple _ => Raised (Other IndexError)
  | Label k => set f k v
  end.

(** An assignment into the frame of the object at [a], in place. *)
Definition assign_frame
    (set : frame L → key L → value L → outcome (details L) (frame L))
    (set2 : frame L → key L → key L → value L → outcome (details L) (frame L))
    (h : store (frame L)) (a : addr) (k : index_key (key L)) (v : value L)
  : store (frame L) * outcome (details L) unit :=
  match h !! a with
  | None => (h, Raised NoSuchObject)
  | Some z =>
    match set_by set set2 (_frame z) k v with
    | Raised e => (h, Raised e)
    | Done f => (<[a := mkZmat f (_metadata z)]> h, Done ())
    end
  end.

(** [_Loc.__getitem__] *)
Definition _Loc__getitem__ (st : state) (k : index_key (key L))
  : outcome (details L) (selected L) :=
  match molecule_frame st with
  | Raised e => Raised e
  | Done f => get_by (loc_get L) (loc_get2 L) f k
  end.

(** [_Unsafe_Loc.__setitem__] *)
Definition _Unsafe_Loc__setitem__ (st : state) (k : index_key (key L))
    (v : value L) : state * outcome (details L) unit :=
  let '(h, r) := assign_frame (loc_set L) (loc_set2 L) st.1 (molecule st.2) k v in
  ((h, st.2), r).

(** Modelled from the spec: [Zmat.copy], which the sources do not
    contain: "a scratch copy", "an isolated copy": a new object with the
    content of the given one. *)
Definition copy (h : store (frame L)) (a : addr)
  : store (frame L) * outcome (details L) addr :=
  match h !! a with
  | None => (h, Raised NoSuchObject)
  | Some z => let a' := fresh (dom h) in (<[a' := z]> h, Done a')
  end.

(** [try: body except InvalidReference as exception: handler(exception)
    finally: final]: what is raised once [final] has run. *)
Definition after_finally (r final : outcome (details L) unit)
  : outcome (details L) unit :=
  match final with
  | Raised e => Raised e
  | Done _ => r
  end.

(** [_Safe_Loc.__setitem__] *)
Definition _Safe_Loc__setitem__ (st : state) (k : index_key (key L))
    (v : value L) : state * outcome (details L) unit :=
  let '(h, self) := st in
  match h !! molecule self with
  | None => (st, Raised NoSuchObject)
  | Some z =>
    match _metadata z !! "dummy_manipulation_allowed" with
    | None => (st, Raised (Other KeyError))
    | Some true =>
      match assign_frame (loc_set L) (loc_set2 L) h (molecule self) k v with
      | (h, Raised e) => ((h, self), Raised e)
      | (h, Done _) =>
        let '(h, r) := give_cartesian L h (molecule self) in
        let '(h, r) :=
          match r with
          | Raised (InvalidReference d z') =>
            _insert_dummy_zmat L h (molecule self) (InvalidReference d z')
          | _ => (h, r)
          end in
        let '(h, final) := _remove_dummies L h (molecule self) in
        ((h, self), after_finally r final)
      end
    | Some false =>
      match copy h (molecule self) with
      | (h, Raised e) => ((h, self), Raised e)
      | (h, Done zmat_after_assignment) =>
        match assign_frame (loc_set L) (loc_set2 L) h zmat_after_assignment
                           k v with
        | (h, Raised e) => ((h, self), Raised e)
        | (h, Done _) =>
          match give_cartesian L h zmat_after_assignment with
          | (h, Done _) => ((h, mkIndexer zmat_after_assignment), Done ())
          | (h, Raised (InvalidReference d _)) =>
            ((h, self),
             Raised (InvalidReference d (Some zmat_after_assignment)))
          | (h, Raised e) => ((h, self), Raised e)
          end
        end
      end
    end
  end.

(** [_ILoc.__getitem__] *)
Definition _ILoc__getitem__ (st : state) (k : index_key (key L))
  : outcome (details L) (selected L) :=
  match molecule_frame st with
  | Raised e => Raised e
  | Done f => get_by (iloc_get L) (iloc_get2 L) f k
  end.

(** [_Unsafe_ILoc.__setitem__] *)
Definition _Unsafe_ILoc__setitem__ (st : state) (k : index_key (key L))
    (v : value L) : state * outcome (details L) unit :=
  let '(h, r) := assign_frame (iloc_set L) (iloc_set2 L) st.1 (molecule st.2) k v in
  ((h, st.2), r).

(** [_Safe_ILoc.__setitem__] *)
Definition _Safe_ILoc__setitem__ (st : state) (k : index_key (key L))
    (v : value L) : state * outcome (details L) unit :=
  (st, Raised NotImplementedError).

End classes.

End indexers.

(** ** The bond test in double precision *)

(** [_jit_give_bond_array] is compiled by numba and computes on
    [float64] arrays.  This module follows it with the binary64 numbers of
    [SpecFloat]: every operation is rounded to the nearest number, ties to
    even; [x**2] is the rounded product [x * x]; [D = 0] starts the sum at
    [+0.0]. *)
Module binary64.

Definition float : Type := spec_float.

Definition prec : Z := 53.
Definition emax : Z := 1024.

Definition add : float → float → float := SFadd prec emax.
Definition sub : float → float → float := SFsub prec emax.
Definition mul : float → float → float := SFmul prec emax.
Definition div : float → float → float := SFdiv prec emax.

Definition zero : float := S754_zero false.

(** [x >= y] *)
Definition geb (x y : float) : bool := SFleb y x.



(** The float of an integer, [float(z)]. *)
Definition of_Z (z : Z) : float := binary_normalize prec emax z 0 false.

(** The float a decimal literal [n / d] stands for: the quotient of two
    integers that are floats themselves, rounded once. *)
Definition of_ratio (n d : Z) : float := div (of_Z n) (of_Z d).

(** The rational number that a finite float is. *)
Definition exact (x : float) : option Q :=
  match x with
  | S754_zero _ => Some 0%Q
  | S754_finite s m e =>
    Some (inject_Z (cond_Zopp s (Zpos m)) * 2 ^ e)%Q
  | _ => None
  end.

#[global] Instance float_inhabited : Inhabited float := populate zero.

(** One row [pos[i, :]] of the array of positions. *)
Definition vec3 : Type := float * float * float.

Definition coord (p : vec3) (h : nat) : float :=
  match h with
  | O => p.1.1
  | S O => p.1.2
  | _ => p.2
  end.

(** [D = 0; for h in range(3): D += (pos[i, h] - pos[j, h])**2] *)
Definition sq_distance (pi pj : vec3) : float :=
  foldl (λ D h,
           let d := sub (coord pi h) (coord pj h) in add D (mul d d))
        zero (seq 0 3).

(** [B = (bond_radii[i] + bond_radii[j])**2] *)
Definition sq_radii (ri rj : float) : float :=
  let s := add ri rj in mul s s.

(** [(B - D) >= 0] *)
Definition bond_test (pos : list vec3) (bond_radii : list float) (i j : nat)
  : bool :=
  let D := sq_distance (pos !!! i) (pos !!! j) in
  let B := sq_radii (bond_radii !!! i) (bond_radii !!! j) in
  geb (sub B D) zero.

Definition _jit_give_bond_array (pos : list vec3) (bond_radii : list float)
    (self_bonding_allowed : bool) : list (list bool) :=
  let n := length pos in
  let bond_array := replicate n (replicate n false) in
  let bond_array :=
    foldl (λ A i,
      foldl (λ A j,
        let A := mset A i j (bond_test pos bond_radii i j) in
        mset A j i (mget A i j))
      A (seq i (n - i)))
    bond_array (seq 0 n) in
  if self_bonding_allowed then bond_array
  else foldl (λ A i, mset A i i false) bond_array (seq 0 n).

Definition _update_bond_dict (O : PyOrder) (fragment_indices : gset Z)
    (positions : list vec3) (bond_radii : list float)
    (bond_dict : bond_dict_t) (self_bonding_allowed : bool)
  : result bond_dict_t :=
  let fragment_indices := iter_set O fragment_indices in
  let convert_index (i : nat) : Z := fragment_indices !!! i in
  frag_pos ← map_result (take_at positions) fragment_indices ;;;
  frag_bond_radii ← map_result (take_at bond_radii) fragment_indices ;;;
  let bond_array :=
    _jit_give_bond_array frag_pos frag_bond_radii self_bonding_allowed in
  let ab := nonzero bond_array in
  Ok (foldl (λ bd p, dd_add bd (convert_index p.1) (convert_index p.2))
            bond_dict ab).


End binary64.

(** ** Auxiliary notions used in the statements *)

(** An [n x n] array. *)
Definition square (n : nat) (A : list (list bool)) : Prop :=
  length A = n ∧ Forall (λ r, length r = n) A.

(** Two rows are within [offset] of each other along every axis. *)
Definition within (offset : Q) (ra rb : row) : Prop :=
  (col_x ra - offset <= col_x rb)%Q ∧ (col_x rb <= col_x ra + offset)%Q ∧
  (col_y ra - offset <= col_y rb)%Q ∧ (col_y rb <= col_y ra + offset)%Q ∧
  (col_z ra - offset <= col_z rb)%Q ∧ (col_z rb <= col_z ra + offset)%Q.

(** The test between two atoms named by their row number. *)
Definition bonded (positions : list vec3) (bond_radii : list Q)
    (self_bonding_allowed : bool) (a b : Z) : bool :=
  if decide (a = b ∧ self_bonding_allowed = false) then false
  else bond_test positions bond_radii (Z.to_nat a) (Z.to_nat b).

(** The frame with its rows numbered from 0: [self.index = range(len(self))]. *)
Definition renumbered (c : Cartesian) : Cartesian :=
  mkCartesian
    (zip_with (λ r k, Row k (col_atom r) (col_x r) (col_y r) (col_z r))
              (_frame c) (range (len c)))
    (metadata c) (_metadata c).

(** All-pairs bond detection, following the words of the specification:
    every ordered pair of rows is tested against the summed radii, a row
    is not paired with itself unless self bonding is allowed, and every
    identifier has an entry. *)
Definition brute_force_bonds (c : Cartesian) (self_bonding_allowed : bool)
    (modified_properties : option (gmap Z Q))
    (atomic_radius_data : string → Q) : bond_dict_t :=
  let positions := positions_of c in
  let bond_radii :=
    bond_radii_of (renumbered c) atomic_radius_data modified_properties in
  list_to_map
    (imap (λ p r,
       (label r,
        list_to_set
          (omap (λ q,
             if bonded positions bond_radii self_bonding_allowed
                       (Z.of_nat p) (Z.of_nat q)
             then index_of c !! q else None)
           (seq 0 (len c)))))
     (_frame c)).

(** Two rows, named by their row number, meet in a cell and pass the
    bond test. *)
Definition linked (cells : list (gset Z)) (positions : list vec3)
    (bond_radii : list Q) (self_bonding_allowed : bool) (a b : Z) : Prop :=
  ∃ cell, cell ∈ cells ∧ a ∈ cell ∧ b ∈ cell ∧
          bonded positions bond_radii self_bonding_allowed a b = true.

(** ** The dihedral of one chain *)

(** The normals of the planes [(i, b, a)] and [(b, a, d)]. *)
Definition plane_normals (pi pb pa pd : rvec) : rvec * rvec :=
  (cross (vsub pb pi) (vsub pa pb), cross (vsub pa pb) (vsub pd pa)).

(** The scalar triple product of the [b–a] vector with the cross product
    of the two unit normals, when both normals can be normalised. *)
Definition rotation_direction (pi pb pa pd : rvec) : option R :=
  n1 ← normalised (plane_normals pi pb pa pd).1;
  n2 ← normalised (plane_normals pi pb pa pd).2;
  Some (dot (vsub pa pb) (cross n1 n2)).

(** The angle in degrees between the two planes. *)
Definition plane_angle (pi pb pa pd : rvec) : option R :=
  n1 ← normalised (plane_normals pi pb pa pd).1;
  n2 ← normalised (plane_normals pi pb pa pd).2;
  Some (degrees (acos (clip (dot n1 n2)))).

(** The position of the atom with label [k], when exactly one row has
    that label. *)
Definition position_of (c : Cartesian) (k : Z) : option rvec :=
  match filter (λ r, label r = k) (_frame c) with
  | [r] => Some (Q2R (col_x r), Q2R (col_y r), Q2R (col_z r))
  | _ => None
  end.

(** ** Notions about an adjacency relation *)

(** Every partner has an entry of its own. *)
Definition closed_bond_dict (bd : bond_dict_t) : Prop :=
  ∀ i j, j ∈ bonds bd i → j ∈ dom bd.

Definition symmetric_bond_dict (bd : bond_dict_t) : Prop :=
  ∀ i j, j ∈ bonds bd i → i ∈ bonds bd j.

(** A relation as [get_bonds] computes it for the identifiers [ids]:
    an entry for exactly the identifiers, partners among them, symmetric. *)
Definition bond_graph_of (ids : list Z) (bd : bond_dict_t) : Prop :=
  (∀ i, i ∈ dom bd ↔ i ∈ ids) ∧
  closed_bond_dict bd ∧
  symmetric_bond_dict bd.

(** One bond from [a] to [b] that does not enter [exclude]. *)
Definition hop (bd : bond_dict_t) (exclude : gset Z) (a b : Z) : Prop :=
  b ∈ bonds bd a ∧ b ∉ exclude.

(** A path along bonds. *)
Definition connected (bd : bond_dict_t) (a b : Z) : Prop :=
  rtc (hop bd ∅) a b.

(** The partners of the atoms of [s]. *)
Definition neighbours (bd : bond_dict_t) (s : gset Z) : gset Z :=
  ⋃ (bonds bd <$> elements s).

(** Coordination spheres in the words of the specification: sphere 0 is
    [{i}]; sphere [k] is the neighbours of sphere [k - 1] that were not
    visited in the spheres [0 .. k - 1].  The pair is (visited, sphere). *)
Fixpoint spheres_upto (bd : bond_dict_t) (i : Z) (k : nat)
  : gset Z * gset Z :=
  match k with
  | O => ({[i]}, {[i]})
  | S k' =>
    let '(visited, sphere) := spheres_upto bd i k' in
    let next := neighbours bd sphere ∖ visited in
    (visited ∪ next, next)
  end.

Definition nth_coordination_sphere (bd : bond_dict_t) (i : Z) (k : nat)
  : gset Z :=
  (spheres_upto bd i k).2.

(** What the loop of [connected_to] maintains between two passes: the
    start and the excluded atoms are visited; a visited atom is excluded or
    reached from [i] along hops; every key of the pending dict is a partner
    of a reached atom; a pending value is the partners of its key less some
    visited atoms; the partners of an expanded atom are visited or
    pending. *)
Definition traversal_inv (bd : bond_dict_t) (i : Z) (exclude : gset Z)
    (visited : gset Z) (tmp : bond_dict_t) : Prop :=
  {[i]} ∪ exclude ⊆ visited ∧
  (∀ v, v ∈ visited → v ∈ exclude ∨ rtc (hop bd exclude) i v) ∧
  (∀ k, k ∈ dom tmp → ∃ u, rtc (hop bd exclude) i u ∧ k ∈ bonds bd u) ∧
  (∀ k w, tmp !! k = Some w →
          w ⊆ bonds bd k ∧ bonds bd k ∖ w ⊆ visited) ∧
  (∀ u, u ∈ visited → u ∉ exclude ∨ u = i →
        ∀ w, w ∈ bonds bd u → w ∈ visited ∨ w ∈ dom tmp) ∧
  dom tmp ⊆ dom bd.

Definition pairwise_disjoint (l : list (gset Z)) : Prop :=
  ∀ p q f g, p ≠ q → l !! p = Some f → l !! q = Some g → f ## g.

(** The atoms connected to some atom [v]. *)
Definition is_component (bd : bond_dict_t) (f : gset Z) : Prop :=
  ∃ v, ∀ u, u ∈ f ↔ connected bd v u.

(** What the loop of [fragmentate] maintains: the fragments found and
    the pending atoms cover the identifiers, the fragments are components
    disjoint from each other and from the pending atoms, and no path leaves
    the pending atoms. *)
Definition fragment_inv (bd : bond_dict_t) (ids : list Z)
    (pending : gset Z) (acc : list (gset Z)) : Prop :=
  (∀ a, a ∈ ids ↔ a ∈ pending ∨ ∃ f, f ∈ acc ∧ a ∈ f) ∧
  (∀ f, f ∈ acc → f ## pending) ∧
  pairwise_disjoint acc ∧
  (∀ f, f ∈ acc → is_component bd f) ∧
  (∀ a b, a ∈ pending → connected bd a b → b ∈ pending).

(** What the loop of [_preserve_bonds] maintains: the atoms included so
    far contain the selection and are atoms of the molecule, and
    [new_atoms] is their boundary, the partners of included atoms that are
    not included. *)
Definition preserve_inv (bd : bond_dict_t) (ids : list Z)
    (selection included new_atoms : gset Z) : Prop :=
  selection ⊆ included ∧
  (∀ a, a ∈ included → a ∈ ids) ∧
  (∀ b, b ∈ new_atoms ↔
        b ∉ included ∧ ∃ a, a ∈ included ∧ b ∈ bonds bd a).

(** ** Notions about the collaborators of the indexers *)

(** A method that changes no object but the one it is called on. *)
Definition touches_only_its_object {F D A}
    (method : gmap indexers.addr (indexers.Zmat F) → indexers.addr →
              gmap indexers.addr (indexers.Zmat F) * indexers.outcome D A)
  : Prop :=
  ∀ h a h' r, method h a = (h', r) → ∀ b, b ≠ a → h' !! b = h !! b.

(** ** Example molecules *)

(** Three atoms on a line, 1.5 apart. *)
Definition three_atoms : Cartesian :=
  mkCartesian [Row 10 "C" 0 0 0; Row 20 "C" 1.5 0 0; Row 30 "C" 3 0 0] ∅ ∅.

(** Every element with the same radius. *)
Definition uniform_radius (r : Q) : string → Q := λ _, r.

(** Two atoms whose distance is the sum of their radii, [0.8 + 0.8]. *)
Definition touching_positions : list vec3 := [(0, 0, 0); (1.6, 0, 0)]%Q.
Definition touching_radii : list Q := [0.8; 0.8]%Q.

(** Settings with the lookup off and every radius 0.8. *)
Definition example_settings : Settings :=
  {| default_use_lookup := false;
     default_atomic_radius_data := uniform_radius 0.8 |}.

(** The first atom of [three_atoms], cut out on its own. *)
Definition first_atom_only : Cartesian :=
  mkCartesian [Row 10 "C" 0 0 0] ∅ ∅.

(** Three atoms bonded to each other (a three-membered ring). *)
Definition triangle : Cartesian :=
  mkCartesian [Row 1 "C" 0 0 0; Row 2 "C" 1 0 0; Row 3 "C" 0 1 0] ∅ ∅.

(** One hydrogen atom. *)
Definition single_atom : Cartesian :=
  mkCartesian [Row 0 "H" 0 0 0] ∅ ∅.

(** A chain [1, 2, 3, 4] whose planes are perpendicular, the last atom
    on the side of negative [y]. *)
Definition chain_minus : Cartesian :=
  mkCartesian [Row 1 "C" 1 0 0; Row 2 "C" 0 0 0; Row 3 "C" 0 0 1;
               Row 4 "C" 0 (-1) 1] ∅ ∅.

(** The mirror image, the last atom on the side of positive [y]. *)
Definition chain_plus : Cartesian :=
  mkCartesian [Row 1 "C" 1 0 0; Row 2 "C" 0 0 0; Row 3 "C" 0 0 1;
               Row 4 "C" 0 1 1] ∅ ∅.

(** A frame of one number that refuses the value [0]: a stand-in for the
    tabular layer and for a [give_cartesian] that fails with a
    degenerate reference. *)
Definition toy_layer : indexers.Collaborators :=
  {| indexers.frame := Z;
     indexers.key := unit;
     indexers.value := Z;
     indexers.selected := Z;
     indexers.details := unit;
     indexers.loc_get := λ f _, indexers.Done f;
     indexers.loc_get2 := λ f _ _, indexers.Done f;
     indexers.loc_set := λ _ _ v, indexers.Done v;
     indexers.loc_set2 := λ _ _ _ v, indexers.Done v;
     indexers.iloc_get := λ f _, indexers.Done f;
     indexers.iloc_get2 := λ f _ _, indexers.Done f;
     indexers.iloc_set := λ _ _ v, indexers.Done v;
     indexers.iloc_set2 := λ _ _ _ v, indexers.Done v;
     indexers.give_cartesian := λ h a,
       match h !! a with
       | Some z =>
         if decide (indexers._frame z = 0)
         then (h, indexers.Raised (indexers.InvalidReference () None))
         else (h, indexers.Done ())
       | None => (h, indexers.Raised indexers.NoSuchObject)
       end;
     indexers._insert_dummy_zmat := λ h _ _, (h, indexers.Done ());
     indexers._remove_dummies := λ h _, (h, indexers.Done ()) |}.

(** One molecule object at address [1], its flag off. *)
Definition toy_store : gmap indexers.addr (indexers.Zmat Z) :=
  {[ 1%positive :=
       indexers.mkZmat 5 {[ "dummy_manipulation_allowed" := false ]} ]}.


(** Two atoms [1.6] apart with radius [0.8], in double precision. *)
Definition touching_floats : list binary64.vec3 :=
  [(binary64.zero, binary64.zero, binary64.zero);
   (binary64.of_ratio 16 10, binary64.zero, binary64.zero)].
Definition touching_float_radii : list binary64.float :=
  [binary64.of_ratio 8 10; binary64.of_ratio 8 10].

(** A second iteration order: the one of [canonical_order] backwards. *)
Definition reversed_order : PyOrder.
Proof.
  refine {| iter_set := λ s, reverse (elements s);
            iter_dict := λ d, reverse (elements (dom d));
            pick := λ s, default 0 (head (elements s)) |}.
  - intros s. apply reverse_Permutation.
  - intros d. apply reverse_Permutation.
  - intros s Hs. destruct (elements s) as [|a l] eqn:E.
    + apply elements_empty_inv in E. apply leibniz_equiv in E. done.
    + simpl. apply elem_of_elements. rewrite E. left.
Defined.

(** * Properties *)

(** ** Results and loops *)

Lemma for_each_app {A S} (xs ys : list A) (body : S → A → result S) acc :
  for_each (xs ++ ys) body acc = (acc' ← for_each xs body acc ;;; for_each ys body acc').
Proof.
  revert acc. induction xs as [|x xs IH]; intros acc; simpl; [done|].
  destruct (body acc x); simpl; [apply IH|done].
Qed.

Lemma map_result_Ok {A B} (f : A → result B) (g : A → B) xs :
  (∀ x, x ∈ xs → f x = Ok (g x)) → map_result f xs = Ok (g <$> xs).
Proof.
  induction xs as [|x xs IH]; intros H; simpl; [done|].
  rewrite H by left. simpl. rewrite IH; [done|].
  intros y Hy. apply H. by right.
Qed.

(** ** The boolean array *)

Lemma square_row n A i : square n A → (i < n)%nat → length (A !!! i) = n.
Proof.
  intros [Hl Hr] Hi. rewrite Forall_lookup in Hr.
  destruct (lookup_lt_is_Some_2 A i) as [r Hr']; [lia|].
  rewrite (list_lookup_total_correct _ _ _ Hr'). eauto.
Qed.

Lemma square_replicate n : square n (replicate n (replicate n false)).
Proof.
  split; [by rewrite length_replicate|].
  apply Forall_replicate. by rewrite length_replicate.
Qed.

Lemma square_mset n A i j v : square n A → square n (mset A i j v).
Proof.
  intros [Hl Hr]. split; unfold mset.
  - by rewrite length_alter.
  - apply Forall_alter; [done|]. intros r _ Hlen. by rewrite length_insert.
Qed.

Lemma mget_mset n A i j v a b :
  square n A → (i < n)%nat → (j < n)%nat →
  mget (mset A i j v) a b
  = if decide (a = i ∧ b = j) then v else mget A a b.
Proof.
  intros HA Hi Hj. unfold mget, mset.
  rewrite list_lookup_total_alter.
  pose proof (square_row n A i HA Hi) as Hrow. destruct HA as [Hl _].
  repeat case_decide; try (exfalso; naive_solver lia); try done.
  - destruct_and!; subst. rewrite list_lookup_total_insert_eq; [done|lia].
  - destruct_and!; subst. rewrite list_lookup_total_insert_ne; [done|].
    naive_solver.
Qed.

(** The inner loop [for j in range(i, n)] assigns the entries [(i, j)] and
    [(j, i)]. *)
Lemma inner_loop_spec (test : nat → nat → bool) n i len A :
  square n A → (i + len ≤ n)%nat →
  let R := foldl (λ A j,
             let A := mset A i j (test i j) in
             mset A j i (mget A i j)) A (seq i len) in
  square n R ∧
  ∀ a b, mget R a b =
    if decide ((a = i ∧ i ≤ b < i + len) ∨ (b = i ∧ i ≤ a < i + len))%nat
    then test i (a `max` b)%nat else mget A a b.
Proof.
  intros HA. induction len as [|len IH]; intros Hlen; cbv zeta.
  - split; [done|]. intros a b. case_decide; [lia|done].
  - rewrite seq_S, foldl_app. simpl.
    destruct IH as [HR IH]; [lia|].
    set (R := foldl _ A (seq i len)) in *.
    split; [by do 2 apply square_mset|].
    intros a b.
    rewrite !(mget_mset n);
      [|first [done | by apply square_mset | lia]..].
    rewrite !IH.
    repeat case_decide; try (exfalso; lia); try done;
      destruct_and?; subst; f_equal; lia.
Qed.

Lemma outer_loop_spec (test : nat → nat → bool) n k A :
  square n A → (k ≤ n)%nat →
  let R := foldl (λ A i,
             foldl (λ A j,
               let A := mset A i j (test i j) in
               mset A j i (mget A i j)) A (seq i (n - i))) A (seq 0 k) in
  square n R ∧
  ∀ a b, (a < n)%nat → (b < n)%nat →
    mget R a b =
      if decide (a `min` b < k)%nat
      then test (a `min` b)%nat (a `max` b)%nat else mget A a b.
Proof.
  intros HA. induction k as [|k IH]; intros Hk; cbv zeta.
  - split; [done|]. intros a b _ _. case_decide; [lia|done].
  - rewrite seq_S, foldl_app. simpl.
    destruct IH as [HR IH]; [lia|].
    set (R := foldl _ A (seq 0 k)) in *.
    destruct (inner_loop_spec test n k (n - k) R HR) as [HR' Hin]; [lia|].
    split; [done|]. intros a b Ha Hb. rewrite Hin, IH by done.
    repeat case_decide; try (exfalso; lia); try done;
      f_equal; lia.
Qed.

Lemma diagonal_loop_spec n k A :
  square n A → (k ≤ n)%nat →
  let R := foldl (λ A i, mset A i i false) A (seq 0 k) in
  square n R ∧
  ∀ a b, mget R a b = if decide (a = b ∧ a < k)%nat then false else mget A a b.
Proof.
  intros HA. induction k as [|k IH]; intros Hk; cbv zeta.
  - split; [done|]. intros a b. case_decide; [lia|done].
  - rewrite seq_S, foldl_app. simpl.
    destruct IH as [HR IH]; [lia|].
    split; [by apply square_mset|]. intros a b.
    rewrite (mget_mset n), IH by (done || lia).
    repeat case_decide; try (exfalso; lia); done.
Qed.

Lemma bond_array_square pos radii sba :
  square (length pos) (_jit_give_bond_array pos radii sba).
Proof.
  unfold _jit_give_bond_array.
  pose proof (outer_loop_spec (bond_test pos radii) _ (length pos) _
                (square_replicate (length pos)) (le_n _)) as [HR _].
  destruct sba; [done|].
  by apply (diagonal_loop_spec (length pos) (length pos)).
Qed.

(** Entry [(a, b)] of the array: the test of the pair taken with the
    smaller position first, and [False] on the diagonal unless self bonding
    is allowed. *)
Lemma bond_array_entry pos radii sba a b :
  (a < length pos)%nat → (b < length pos)%nat →
  mget (_jit_give_bond_array pos radii sba) a b
  = if decide (a = b ∧ sba = false) then false
    else bond_test pos radii (a `min` b) (a `max` b).
Proof.
  intros Ha Hb. unfold _jit_give_bond_array.
  pose proof (outer_loop_spec (bond_test pos radii) _ (length pos) _
                (square_replicate (length pos)) (le_n _)) as [HR Hout].
  simpl in Hout. destruct sba.
  - rewrite Hout by done. repeat case_decide; try done; naive_solver lia.
  - pose proof (diagonal_loop_spec (length pos) (length pos) _ HR (le_n _))
      as [_ Hd].
    simpl in Hd. rewrite Hd, Hout by done.
    repeat case_decide; try done; naive_solver lia.
Qed.

Lemma map_result_is_Ok {A B} (f : A → result B) xs :
  (∀ x, x ∈ xs → ∃ y, f x = Ok y) → ∃ ys, map_result f xs = Ok ys.
Proof.
  induction xs as [|x xs IH]; intros H; simpl; [by eexists|].
  destruct (H x) as [y ->]; [left|]. simpl.
  destruct IH as [ys ->]; [|by eexists].
  intros x' Hx'. apply H. by right.
Qed.

Lemma map_result_elem_of {A B} (f : A → result B) xs ys y :
  map_result f xs = Ok ys →
  y ∈ ys ↔ ∃ x, x ∈ xs ∧ f x = Ok y.
Proof.
  revert ys. induction xs as [|x xs IH]; intros ys; simpl.
  - intros [= <-]. split; [by intros ?%elem_of_nil|].
    by intros (? & ?%elem_of_nil & _).
  - destruct (f x) as [b|] eqn:Hb; simpl; [|done].
    destruct (map_result f xs) as [bs|] eqn:Hbs; simpl; [|done].
    intros [= <-]. rewrite elem_of_cons, (IH bs eq_refl). split.
    + intros [->|(x' & ? & ?)]; [exists x|exists x']; split; try done;
        [left|by right].
    + intros (x' & [->|?]%elem_of_cons & Hx'); [left; congruence|].
      right. eauto.
Qed.

(** ** Sorting a column *)

#[global] Instance by_value_trans : Transitive by_value.
Proof.
  intros e1 e2 e3. unfold by_value. rewrite !Qle_bool_iff.
  apply Qle_trans.
Qed.

#[global] Instance by_value_total : Total by_value.
Proof.
  intros e1 e2. unfold by_value. rewrite !Qle_bool_iff.
  destruct (Qlt_le_dec e2.2 e1.2); [right; by apply Qlt_le_weak|by left].
Qed.

Lemma sort_values_perm s : sort_values s ≡ₚ s.
Proof. apply merge_sort_Permutation. Qed.

Lemma sort_values_sorted s : StronglySorted by_value (sort_values s).
Proof. apply StronglySorted_merge_sort; apply _. Qed.

Lemma sorted_lookup_le (l : list (Z * Q)) p q e1 e2 :
  StronglySorted by_value l → (p ≤ q)%nat →
  l !! p = Some e1 → l !! q = Some e2 → (e1.2 <= e2.2)%Q.
Proof.
  intros Hs. revert p q. induction Hs as [|a l Hs IH Hall]; intros p q Hpq.
  - by rewrite lookup_nil.
  - destruct p as [|p], q as [|q]; simpl; try lia.
    + intros [= <-] [= <-]. apply Qle_refl.
    + intros [= <-] He2. rewrite Forall_forall in Hall.
      apply Qle_bool_iff, Hall. by eapply list_elem_of_lookup_2.
    + apply IH. lia.
Qed.

(** ** Cell counts *)

Lemma first_from_spec fuel m P :
  (m ≤ first_from fuel m P ≤ m + fuel)%nat ∧
  (∀ k, (m ≤ k < first_from fuel m P)%nat → P k = false) ∧
  ((first_from fuel m P < m + fuel)%nat → P (first_from fuel m P) = true).
Proof.
  revert m. induction fuel as [|fuel IH]; intros m; simpl.
  - repeat split; intros; lia.
  - destruct (P m) eqn:HP.
    + repeat split; intros; try lia; done.
    + destruct (IH (S m)) as (Hr & Hlt & Hfound).
      repeat split; try lia.
      * intros k Hk. destruct (decide (k = m)) as [->|]; [done|].
        apply Hlt. lia.
      * intros ?. apply Hfound. lia.
Qed.

Lemma ceil_cbrt_spec n aps :
  (1 ≤ n)%nat → (1 ≤ aps)%nat →
  (1 ≤ ceil_cbrt n aps)%nat ∧
  (n ≤ aps * ceil_cbrt n aps ^ 3)%nat ∧
  (aps * (ceil_cbrt n aps - 1) ^ 3 < n)%nat.
Proof.
  intros Hn Haps. unfold ceil_cbrt.
  set (P := λ m, (n <=? aps * m ^ 3)%nat).
  destruct (first_from_spec n 0 P) as (Hr & Hlt & Hfound).
  set (m := first_from n 0 P) in *.
  assert (P m = true) as HPm.
  { destruct (decide (m < n)%nat) as [?|?]; [by apply Hfound|].
    assert (m = n) as -> by lia. unfold P. apply Nat.leb_le.
    simpl. rewrite Nat.mul_1_r.
    assert (1 ≤ n * n)%nat by nia.
    assert (n ≤ n * (n * n))%nat by nia.
    assert (1 * (n * (n * n)) ≤ aps * (n * (n * n)))%nat
      by (apply Nat.mul_le_mono_r; lia).
    lia. }
  assert (1 ≤ m)%nat.
  { destruct (decide (m = 0)%nat) as [E|]; [|lia].
    rewrite E in HPm. unfold P in HPm. apply Nat.leb_le in HPm.
    simpl in HPm. lia. }
  repeat split; [done|by apply Nat.leb_le in HPm|].
  specialize (Hlt (m - 1)%nat). unfold P in Hlt.
  rewrite Nat.leb_gt in Hlt. apply Hlt. lia.
Qed.

Lemma ceil_div_spec a b :
  (1 ≤ b)%nat → (a ≤ b * ceil_div a b)%nat ∧ (b * ceil_div a b < a + b)%nat.
Proof.
  intros Hb. unfold ceil_div.
  pose proof (Nat.div_mod_eq (a + b - 1) b) as Hdm.
  pose proof (Nat.mod_upper_bound (a + b - 1) b) as Hmod.
  split; lia.
Qed.

(** The slices [i * N] for [i < n_sets_along_axis] all start inside the
    sorted column, and together they reach its end. *)
Lemma partition_arith n aps :
  (1 ≤ n)%nat → (1 ≤ aps)%nat →
  let m := ceil_cbrt n aps in
  let N := ceil_div n m in
  (1 ≤ m)%nat ∧ (1 ≤ N)%nat ∧ ((m - 1) * N < n)%nat ∧ (n ≤ m * N)%nat.
Proof.
  intros Hn Haps m N.
  destruct (ceil_cbrt_spec n aps Hn Haps) as (Hm & _ & Hprev).
  fold m in Hm, Hprev.
  destruct (ceil_div_spec n m Hm) as [Hlo Hhi]. fold N in Hlo, Hhi.
  repeat split; [done|nia| |done].
  destruct (decide (m = 1)%nat) as [->|]; [simpl; lia|].
  assert ((m - 1) ^ 2 < n)%nat as Hsq.
  { assert ((m - 1) ^ 2 ≤ (m - 1) ^ 3)%nat by (simpl; nia).
    assert ((m - 1) ^ 3 ≤ aps * (m - 1) ^ 3)%nat by nia. lia. }
  simpl in Hsq. nia.
Qed.

(** ** Bands along one axis *)

Lemma elem_of_between series lo hi k :
  k ∈ between series lo hi ↔
  ∃ v, (k, v) ∈ series ∧ (lo <= v)%Q ∧ (v <= hi)%Q.
Proof.
  unfold between. rewrite elem_of_list_to_set, list_elem_of_fmap. split.
  - intros ([k' v] & -> & [Hp He]%list_elem_of_filter). simpl in *.
    apply andb_true_iff in Hp as [?%Qle_bool_iff ?%Qle_bool_iff]. eauto.
  - intros (v & He & Hlo & Hhi). exists (k, v). split; [done|].
    apply list_elem_of_filter. split; [|done]. simpl.
    apply andb_true_iff. by rewrite !Qle_bool_iff.
Qed.

Lemma give_index_spec series i N offset :
  (i * N < length series)%nat →
  ∃ lo hi,
    series !! (i * N)%nat = Some lo ∧
    series !! (((i + 1) * N) `min` (length series - 1))%nat = Some hi ∧
    give_index series i N offset
    = Ok (between series (lo.2 - offset)%Q (hi.2 + offset)%Q).
Proof.
  intros Hi. unfold give_index.
  destruct (lookup_lt_is_Some_2 series (i * N)) as [lo Hlo]; [done|].
  rewrite Hlo. exists lo.
  destruct (series !! ((i + 1) * N)%nat) as [hi|] eqn:Hhi.
  - exists hi. apply lookup_lt_Some in Hhi as Hlt.
    rewrite Nat.min_l by lia. done.
  - apply lookup_ge_None in Hhi.
    destruct (lookup_lt_is_Some_2 series (length series - 1)) as [hi Hl];
      [lia|].
    exists hi. rewrite Nat.min_r by lia.
    rewrite last_lookup.
    replace (Init.Nat.pred (length series)) with (length series - 1)%nat
      by lia.
    by rewrite Hl.
Qed.

Section bands.
Context (series : list (Z * Q)) (n_atoms_per_set : nat) (offset : Q).
Context (Hn : (1 ≤ length series)%nat) (Haps : (1 ≤ n_atoms_per_set)%nat).

Let s := sort_values series.
Let m := ceil_cbrt (length series) n_atoms_per_set.
Let N := ceil_div (length series) m.

Lemma length_sorted : length s = length series.
Proof. unfold s. by rewrite sort_values_perm. Qed.

Lemma band_Ok i :
  (i < m)%nat → ∃ b, give_index s i N offset = Ok b.
Proof.
  intros Hi.
  destruct (partition_arith _ _ Hn Haps) as (Hm & HN & Hlast & Hall).
  fold m N in Hm, HN, Hlast, Hall.
  destruct (give_index_spec s i N offset) as (lo & hi & _ & _ & ->);
    [|by eexists].
  rewrite length_sorted. nia.
Qed.

Lemma band_subset i b k :
  give_index s i N offset = Ok b → k ∈ b → k ∈ series.*1.
Proof.
  unfold give_index.
  destruct (match s !! (i * N)%nat with Some _ => _ | None => _ end)
    as [mm|]; simpl; [|done].
  intros [= <-] (v & Hv & _)%elem_of_between.
  unfold s in Hv. rewrite sort_values_perm in Hv.
  apply list_elem_of_fmap. by exists (k, v).
Qed.

(** Every entry lies in the band of its slice, together with every
    entry whose value is within [offset] of it. *)
Lemma band_cover e :
  e ∈ series → (0 <= offset)%Q →
  ∃ i b, (i < m)%nat ∧ give_index s i N offset = Ok b ∧
    ∀ e', e' ∈ series →
      (e.2 - offset <= e'.2)%Q → (e'.2 <= e.2 + offset)%Q → e'.1 ∈ b.
Proof.
  intros He Hoff.
  destruct (partition_arith _ _ Hn Haps) as (Hm & HN & Hlast & Hall).
  fold m N in Hm, HN, Hlast, Hall.
  assert (e ∈ s) as [p Hp]%list_elem_of_lookup
    by (unfold s; by rewrite sort_values_perm).
  apply lookup_lt_Some in Hp as Hplt. rewrite length_sorted in Hplt.
  pose proof (Nat.div_mod_eq p N) as Hdm.
  pose proof (Nat.mod_upper_bound p N) as Hmod.
  set (i := (p `div` N)%nat) in *.
  assert (i < m)%nat as Him by nia.
  destruct (give_index_spec s i N offset) as (lo & hi & Hlo & Hhi & Hb).
  { rewrite length_sorted. nia. }
  eexists i, _. split; [done|]. split; [exact Hb|].
  pose proof (sort_values_sorted series) as Hsorted. fold s in Hsorted.
  assert (lo.2 <= e.2)%Q as Hle1.
  { eapply (sorted_lookup_le s (i * N) p); [done|nia|done..]. }
  assert (e.2 <= hi.2)%Q as Hle2.
  { eapply (sorted_lookup_le s p); [done| |done..].
    rewrite length_sorted. nia. }
  intros [k' v'] He' Hlo' Hhi'. simpl in *.
  apply elem_of_between. exists v'. split.
  - unfold s. by rewrite sort_values_perm.
  - split; lra.
Qed.
End bands.

(** ** The cells *)

Lemma elem_of_concat {A} (x : A) (ls : list (list A)) :
  x ∈ concat ls ↔ ∃ l, x ∈ l ∧ l ∈ ls.
Proof.
  induction ls as [|l ls IH]; simpl.
  - split; [by intros ?%elem_of_nil|by intros (? & _ & ?%elem_of_nil)].
  - rewrite elem_of_app, IH. split.
    + intros [?|(l' & ? & ?)]; [exists l|exists l']; split; try done;
        [left|by right].
    + intros (l' & ? & [->|?]%elem_of_cons); [by left|right; eauto].
Qed.

Lemma elem_of_cells (at_x at_y at_z : list (gset Z)) cell :
  cell ∈ concat (concat
    ((λ sx, (λ sy, (λ sz, sx ∩ sy ∩ sz) <$> at_z) <$> at_y) <$> at_x)) ↔
  ∃ sx sy sz, sx ∈ at_x ∧ sy ∈ at_y ∧ sz ∈ at_z ∧ cell = sx ∩ sy ∩ sz.
Proof.
  rewrite elem_of_concat. split.
  - intros (l & Hcell & (ll & Hl & (sx & -> & Hsx)%list_elem_of_fmap)
                          %elem_of_concat).
    apply list_elem_of_fmap in Hl as (sy & -> & Hsy).
    apply list_elem_of_fmap in Hcell as (sz & -> & Hsz).
    by exists sx, sy, sz.
  - intros (sx & sy & sz & Hsx & Hsy & Hsz & ->).
    exists ((λ sz, sx ∩ sy ∩ sz) <$> at_z). split.
    + apply list_elem_of_fmap. eauto.
    + apply elem_of_concat.
      exists ((λ sy, (λ sz, sx ∩ sy ∩ sz) <$> at_z) <$> at_y). split.
      * apply list_elem_of_fmap. eauto.
      * apply list_elem_of_fmap. eauto.
Qed.

Lemma column_labels c axis : (column c axis).*1 = index_of c.
Proof.
  unfold column, index_of. rewrite <- list_fmap_compose.
  by apply list_fmap_ext.
Qed.

Lemma length_column c axis : length (column c axis) = len c.
Proof. unfold column, len. by rewrite length_fmap. Qed.

Lemma divide_et_impera_spec c n_atoms_per_set offset :
  (1 ≤ len c)%nat → (1 ≤ n_atoms_per_set)%nat →
  ∃ fragments,
    _divide_et_impera c n_atoms_per_set offset = Ok fragments ∧
    (∀ cell k, cell ∈ concat (concat fragments) → k ∈ cell →
               k ∈ index_of c) ∧
    ((0 <= offset)%Q →
     ∀ ra rb, ra ∈ _frame c → rb ∈ _frame c → within offset ra rb →
       ∃ cell, cell ∈ concat (concat fragments) ∧
               label ra ∈ cell ∧ label rb ∈ cell).
Proof.
  intros Hn Haps. unfold _divide_et_impera.
  destruct (partition_arith _ _ Hn Haps) as (Hm & _).
  rewrite decide_False by lia. rewrite (decide_False (P := _ = 0%nat)) by lia.
  set (m := ceil_cbrt (len c) n_atoms_per_set) in *.
  set (N := ceil_div (len c) m).
  assert (∀ axis, ∃ bs,
    map_result (λ i, give_index (sort_values (column c axis)) i N offset)
               (seq 0 m) = Ok bs) as Hbands.
  { intros axis. apply map_result_is_Ok. intros i Hi%elem_of_seq.
    pose proof (band_Ok (column c axis) n_atoms_per_set offset) as HOk.
    rewrite !length_column in HOk. apply HOk; [done..|]. fold m. lia. }
  destruct (Hbands col_x) as [at_x Hx], (Hbands col_y) as [at_y Hy],
    (Hbands col_z) as [at_z Hz].
  rewrite Hx, Hy, Hz. simpl. eexists. split; [done|].
  assert (∀ axis bs b k,
    map_result (λ i, give_index (sort_values (column c axis)) i N offset)
               (seq 0 m) = Ok bs → b ∈ bs → k ∈ b → k ∈ index_of c) as Hsub.
  { intros axis bs b k Hbs Hb Hk.
    apply (map_result_elem_of _ _ _ _ Hbs) in Hb as (i & _ & Hi).
    rewrite <- (column_labels c axis).
    pose proof (band_subset (column c axis) n_atoms_per_set offset) as HS.
    rewrite !length_column in HS. by eapply HS. }
  assert (∀ axis bs ra,
    map_result (λ i, give_index (sort_values (column c axis)) i N offset)
               (seq 0 m) = Ok bs → (0 <= offset)%Q → ra ∈ _frame c →
    ∃ b, b ∈ bs ∧ ∀ rb, rb ∈ _frame c →
      (axis ra - offset <= axis rb)%Q → (axis rb <= axis ra + offset)%Q →
      label rb ∈ b) as Hcov.
  { intros axis bs ra Hbs Hoff Hra.
    pose proof (band_cover (column c axis) n_atoms_per_set offset) as HC.
    rewrite !length_column in HC.
    destruct (HC Hn Haps (label ra, axis ra)) as (i & b & Hi & Hb & Hin);
      [by apply list_elem_of_fmap; exists ra|done|].
    exists b. split.
    - apply (map_result_elem_of _ _ _ _ Hbs). exists i. split; [|done].
      apply elem_of_seq. fold m in Hi. lia.
    - intros rb Hrb ??. apply (Hin (label rb, axis rb)); [|done..].
      apply list_elem_of_fmap. by exists rb. }
  split.
  - intros cell k (sx & sy & sz & Hsx & _ & _ & ->)%elem_of_cells Hk.
    apply (Hsub col_x at_x sx k Hx Hsx). set_solver.
  - intros Hoff ra rb Hra Hrb (Hx1 & Hx2 & Hy1 & Hy2 & Hz1 & Hz2).
    destruct (Hcov col_x at_x ra Hx Hoff Hra) as (sx & Hsx & Hinx).
    destruct (Hcov col_y at_y ra Hy Hoff Hra) as (sy & Hsy & Hiny).
    destruct (Hcov col_z at_z ra Hz Hoff Hra) as (sz & Hsz & Hinz).
    exists (sx ∩ sy ∩ sz). split; [apply elem_of_cells; naive_solver|].
    assert (∀ axis, (axis ra - offset <= axis ra)%Q ∧
                    (axis ra <= axis ra + offset)%Q) as Hself
      by (intros axis; split; lra).
    split; rewrite !elem_of_intersection; repeat split;
      first [apply Hinx | apply Hiny | apply Hinz]; try done;
      apply Hself.
Qed.

(** ** The bond test is symmetric *)

Lemma sq_distance_sym p q : (sq_distance p q == sq_distance q p)%Q.
Proof. unfold sq_distance. simpl. ring. Qed.

Lemma bond_test_sym pos radii i j :
  bond_test pos radii i j = bond_test pos radii j i.
Proof.
  unfold bond_test. apply Qleb_comp; [reflexivity|].
  rewrite (sq_distance_sym (pos !!! i)). simpl. ring.
Qed.

(** ** One cell merged into the relation *)

Lemma bonds_dd_add bd a b a' :
  bonds (dd_add bd a b) a'
  = if decide (a = a') then {[b]} ∪ bonds bd a else bonds bd a'.
Proof.
  unfold bonds, dd_add. case_decide as E.
  - subst. by rewrite lookup_insert_eq.
  - by rewrite lookup_insert_ne.
Qed.

Lemma dom_dd_add bd a b : dom (dd_add bd a b) = {[a]} ∪ dom bd.
Proof. unfold dd_add. by rewrite dom_insert_L. Qed.

Lemma foldl_dd_add (conv : nat → Z) (ps : list (nat * nat)) bd :
  let bd' := foldl (λ bd p, dd_add bd (conv p.1) (conv p.2)) bd ps in
  (∀ a b, b ∈ bonds bd' a ↔
     b ∈ bonds bd a ∨ ∃ p, p ∈ ps ∧ conv p.1 = a ∧ conv p.2 = b) ∧
  (∀ a, a ∈ dom bd' ↔ a ∈ dom bd ∨ ∃ p, p ∈ ps ∧ conv p.1 = a).
Proof.
  revert bd. induction ps as [|p ps IH]; intros bd; cbv zeta; simpl.
  - split; intros; split; try tauto; intros [?|(? & ?%elem_of_nil & _)];
      done.
  - destruct (IH (dd_add bd (conv p.1) (conv p.2))) as [IHb IHd].
    split.
    + intros a b. rewrite IHb, bonds_dd_add. split.
      * intros [Hb|(p' & ? & ? & ?)].
        -- case_decide; [|by left].
           apply elem_of_union in Hb as [->%elem_of_singleton|?].
           ++ right. exists p. split; [left|done].
           ++ left. by subst.
        -- right. exists p'. split; [by right|done].
      * intros [Hb|(p' & [->|?]%elem_of_cons & ? & ?)].
        -- left. case_decide; [subst; set_solver|done].
        -- left. rewrite decide_True by done. set_solver.
        -- right. eauto.
    + intros a. rewrite IHd, dom_dd_add. split.
      * intros [[->%elem_of_singleton|?]%elem_of_union|(p' & ? & ?)].
        -- right. exists p. split; [left|done].
        -- by left.
        -- right. exists p'. split; [by right|done].
      * intros [?|(p' & [->|?]%elem_of_cons & ?)].
        -- left. set_solver.
        -- left. set_solver.
        -- right. eauto.
Qed.

Lemma elem_of_nonzero n A i j :
  square n A →
  (i, j) ∈ nonzero A ↔ (i < n)%nat ∧ (j < n)%nat ∧ mget A i j = true.
Proof.
  intros HA. unfold nonzero. rewrite list_elem_of_bind. split.
  - intros (i' & (j' & Hij & Hj')%list_elem_of_bind & Hi').
    apply elem_of_seq in Hi', Hj'. destruct HA as [Hl Hr].
    rewrite Hl in Hi'.
    rewrite (square_row n A i') in Hj' by (done || lia).
    destruct (mget A i' j') eqn:E; [|by apply elem_of_nil in Hij].
    apply list_elem_of_singleton in Hij as [= -> ->]. repeat split; lia || done.
  - intros (Hi & Hj & Hget). exists i. destruct HA as [Hl Hr]. split.
    + apply list_elem_of_bind. exists j. rewrite Hget. split; [left|].
      apply elem_of_seq. rewrite (square_row n A i) by (done || lia). lia.
    + apply elem_of_seq. lia.
Qed.

Lemma bonded_sym positions radii sba a b :
  bonded positions radii sba a b = bonded positions radii sba b a.
Proof.
  unfold bonded. rewrite bond_test_sym.
  repeat case_decide; try done; naive_solver.
Qed.

Lemma take_at_Ok {A} `{Inhabited A} (arr : list A) k :
  0 ≤ k < Z.of_nat (length arr) → take_at arr k = Ok (arr !!! Z.to_nat k).
Proof.
  intros Hk. unfold take_at. rewrite decide_True by lia.
  destruct (lookup_lt_is_Some_2 arr (Z.to_nat k)) as [a Ha]; [lia|].
  by rewrite Ha, (list_lookup_total_correct _ _ _ Ha).
Qed.

Lemma update_bond_dict_spec O F positions radii bd sba :
  length radii = length positions →
  (∀ a, a ∈ F → 0 ≤ a < Z.of_nat (length positions)) →
  ∃ bd', _update_bond_dict O F positions radii bd sba = Ok bd' ∧
    (∀ a b, b ∈ bonds bd' a ↔
       b ∈ bonds bd a ∨
       (a ∈ F ∧ b ∈ F ∧ bonded positions radii sba a b = true)) ∧
    (∀ a, a ∈ dom bd' → a ∈ dom bd ∨ a ∈ F) ∧
    dom bd ⊆ dom bd'.
Proof.
  intros Hlen HF. unfold _update_bond_dict.
  set (L := iter_set O F).
  assert (∀ a, a ∈ L ↔ a ∈ F) as HL by apply elem_of_iter_set.
  pose proof (NoDup_iter_set O F) as Hnd. fold L in Hnd.
  rewrite (map_result_Ok _ (λ k, positions !!! Z.to_nat k)).
  2:{ intros k Hk. apply take_at_Ok, HF, HL, Hk. }
  rewrite (map_result_Ok _ (λ k, radii !!! Z.to_nat k)).
  2:{ intros k Hk. apply take_at_Ok. rewrite Hlen. apply HF, HL, Hk. }
  simpl. eexists. split; [done|].
  set (frag_pos := (λ k, positions !!! Z.to_nat k) <$> L).
  set (frag_radii := (λ k, radii !!! Z.to_nat k) <$> L).
  set (BA := _jit_give_bond_array frag_pos frag_radii sba).
  assert (length frag_pos = length L) as Hfl
    by (unfold frag_pos; by rewrite length_fmap).
  pose proof (bond_array_square frag_pos frag_radii sba) as Hsq.
  fold BA in Hsq. rewrite Hfl in Hsq.
  assert (∀ p q, (p < length L)%nat → (q < length L)%nat →
    mget BA p q = bonded positions radii sba (L !!! p) (L !!! q)) as Hentry.
  { intros p q Hp Hq. unfold BA.
    rewrite bond_array_entry by lia.
    assert (∀ p q, (p < length L)%nat → (q < length L)%nat →
      bond_test frag_pos frag_radii p q
      = bond_test positions radii (Z.to_nat (L !!! p)) (Z.to_nat (L !!! q)))
      as Hbt.
    { intros p' q' Hp' Hq'. unfold bond_test, frag_pos, frag_radii.
      by rewrite !(list_lookup_total_fmap _ L) by done. }
    unfold bonded.
    assert (p = q ↔ L !!! p = L !!! q) as Hinj.
    { split; [by intros ->|]. intros E.
      destruct (lookup_lt_is_Some_2 L p) as [a Ha]; [done|].
      destruct (lookup_lt_is_Some_2 L q) as [b Hb]; [done|].
      rewrite (list_lookup_total_correct _ _ _ Ha),
        (list_lookup_total_correct _ _ _ Hb) in E. subst b.
      by eapply NoDup_lookup. }
    destruct (decide (p = q ∧ sba = false)) as [[-> ->]|Hne].
    { by rewrite decide_True. }
    rewrite decide_False
      by (intros [E ->]; apply Hne; split; [by apply Hinj|done]).
    destruct (decide (p ≤ q)%nat).
    - rewrite Nat.min_l, Nat.max_r by lia. by apply Hbt.
    - rewrite Nat.min_r, Nat.max_l by lia. rewrite Hbt by done.
      apply bond_test_sym. }
  clearbody BA frag_pos frag_radii.
  destruct (foldl_dd_add (λ i, L !!! i) (nonzero BA) bd) as [Hb Hd].
  cbv zeta in Hb, Hd.
  assert (∀ a, a ∈ F ↔ ∃ p, (p < length L)%nat ∧ L !!! p = a) as Hpos.
  { intros a. rewrite <- HL, list_elem_of_lookup. split.
    - intros [p Hp]. exists p. split; [by eapply lookup_lt_Some|].
      by apply list_lookup_total_correct.
    - intros (p & Hp & <-). exists p. by apply list_lookup_lookup_total_lt. }
  split; [|split].
  - intros a b. rewrite Hb. split.
    + intros [?|([p q] & Hnz & <- & <-)]; [by left|right]. cbn [fst snd].
      apply (elem_of_nonzero (length L)) in Hnz as (Hp & Hq & Hget);
        [|done].
      rewrite Hentry in Hget by done.
      split; [apply Hpos; eauto|]. split; [apply Hpos; eauto|done].
    + intros [?|(Ha & Hb' & Hbond)]; [by left|right].
      apply Hpos in Ha as (p & Hp & <-). apply Hpos in Hb' as (q & Hq & <-).
      exists (p, q). split; [|done].
      apply (elem_of_nonzero (length L)); [done|].
      by rewrite Hentry.
  - intros a [?|([p q] & Hnz & <-)]%Hd; [by left|right]. cbn [fst snd].
    apply (elem_of_nonzero (length L)) in Hnz as (Hp & _); [|done].
    apply Hpos. eauto.
  - intros a Ha. apply Hd. by left.
Qed.

(** ** Renumbering the index and restoring it *)

Lemma relabel_labels (l : list row) (ks : list Z) :
  length ks = length l →
  label <$> zip_with (λ r k, Row k (col_atom r) (col_x r) (col_y r) (col_z r))
                     l ks = ks.
Proof.
  revert ks. induction l as [|r l IH]; intros [|k ks]; simpl; try done.
  intros [= Hlen]. by rewrite IH.
Qed.

Lemma relabel_columns {A} (g : string → Q → Q → Q → A) (l : list row) ks :
  length ks = length l →
  (λ r, g (col_atom r) (col_x r) (col_y r) (col_z r))
    <$> zip_with (λ r k, Row k (col_atom r) (col_x r) (col_y r) (col_z r))
                 l ks
  = (λ r, g (col_atom r) (col_x r) (col_y r) (col_z r)) <$> l.
Proof.
  revert ks. induction l as [|r l IH]; intros [|k ks]; simpl; try done.
  intros [= Hlen]. by rewrite IH.
Qed.

Lemma relabel_back (l : list row) ks :
  length ks = length l →
  zip_with (λ r k, Row k (col_atom r) (col_x r) (col_y r) (col_z r))
    (zip_with (λ r k, Row k (col_atom r) (col_x r) (col_y r) (col_z r)) l ks)
    (label <$> l) = l.
Proof.
  revert ks. induction l as [|r l IH]; intros [|k ks]; simpl; try done.
  intros [= Hlen]. rewrite IH by done. by destruct r.
Qed.

Lemma length_range n : length (range n) = n.
Proof. unfold range. by rewrite length_fmap, length_seq. Qed.

Lemma lookup_range n p : (p < n)%nat → range n !! p = Some (Z.of_nat p).
Proof.
  intros Hp. unfold range. rewrite list_lookup_fmap, lookup_seq_lt by done.
  done.
Qed.

Lemma elem_of_range n k : k ∈ range n ↔ 0 ≤ k < Z.of_nat n.
Proof.
  unfold range. rewrite list_elem_of_fmap. split.
  - intros (p & -> & Hp%elem_of_seq). lia.
  - intros Hk. exists (Z.to_nat k). split; [lia|]. apply elem_of_seq. lia.
Qed.

Lemma set_index_range c : set_index c (range (len c)) = Ok (renumbered c).
Proof. unfold set_index. by rewrite decide_True by apply length_range. Qed.

Lemma len_renumbered c : len (renumbered c) = len c.
Proof.
  unfold len, renumbered. simpl.
  rewrite length_zip_with, length_range. unfold len. lia.
Qed.

Lemma index_renumbered c : index_of (renumbered c) = range (len c).
Proof. unfold index_of, renumbered. simpl. apply relabel_labels, length_range. Qed.

Lemma positions_renumbered c : positions_of (renumbered c) = positions_of c.
Proof.
  unfold positions_of, renumbered. simpl.
  apply (relabel_columns (λ _ x y z, (x, y, z))), length_range.
Qed.

Lemma set_index_back c : set_index (renumbered c) (index_of c) = Ok c.
Proof.
  unfold set_index. rewrite len_renumbered.
  rewrite decide_True by (unfold index_of, len; by rewrite length_fmap).
  unfold renumbered. simpl. rewrite relabel_back by apply length_range.
  by destruct c.
Qed.

Lemma length_positions c : length (positions_of c) = len c.
Proof. unfold positions_of, len. by rewrite length_fmap. Qed.

Lemma length_bond_radii c data mp : length (bond_radii_of c data mp) = len c.
Proof. unfold bond_radii_of, len. by rewrite length_fmap. Qed.

Lemma length_index c : length (index_of c) = len c.
Proof. unfold index_of, len. by rewrite length_fmap. Qed.

(** ** All cells merged *)

Lemma cells_loop_spec O cells positions radii sba bd :
  length radii = length positions →
  (∀ cell a, cell ∈ cells → a ∈ cell →
             0 ≤ a < Z.of_nat (length positions)) →
  ∃ bd',
    for_each cells
      (λ bd cell, _update_bond_dict O cell positions radii bd sba) bd
    = Ok bd' ∧
    (∀ a b, b ∈ bonds bd' a ↔
       b ∈ bonds bd a ∨ linked cells positions radii sba a b) ∧
    (∀ a, a ∈ dom bd' → a ∈ dom bd ∨ ∃ cell, cell ∈ cells ∧ a ∈ cell).
Proof.
  intros Hlen. revert bd.
  induction cells as [|cell cells IH]; intros bd Hrange; simpl.
  - eexists. split; [done|]. split.
    + intros a b. split; [by left|].
      by intros [?|(? & ?%elem_of_nil & _)].
    + intros a ?. by left.
  - destruct (update_bond_dict_spec O cell positions radii bd sba Hlen)
      as (bd1 & -> & Hb1 & Hd1 & _).
    { intros a Ha. apply (Hrange cell); [left|done]. }
    simpl. destruct (IH bd1) as (bd' & -> & Hb' & Hd').
    { intros cell' a ? ?. apply (Hrange cell'); [by right|done]. }
    eexists. split; [done|]. split.
    + intros a b. rewrite Hb', Hb1. unfold linked. split.
      * intros [[?|(? & ? & ?)]|(cell' & ? & ?)]; [by left|right..].
        -- exists cell. split; [left|done].
        -- exists cell'. split; [by right|done].
      * intros [?|(cell' & [->|?]%elem_of_cons & ?)].
        -- by do 2 left.
        -- left. by right.
        -- right. by exists cell'.
    + intros a [[?|?]%Hd1|(cell' & ? & ?)]%Hd'.
      * by left.
      * right. exists cell. split; [left|done].
      * right. exists cell'. split; [by right|done].
Qed.

(** [for i in set(self.index) - set(bond_dict.keys()): bond_dict[i] = {}] *)
Lemma fill_spec (l : list Z) (bd : bond_dict_t) :
  (∀ i, i ∈ l → i ∉ dom bd) →
  let bd' := foldl (λ bd i, <[i := ∅]> bd) bd l in
  (∀ a, bonds bd' a = bonds bd a) ∧
  (∀ a, a ∈ dom bd' ↔ a ∈ dom bd ∨ a ∈ l).
Proof.
  intros Hl. cbv zeta.
  assert (∀ i, i ∈ l → bonds bd i = ∅) as Hempty.
  { intros i Hi%Hl. unfold bonds. apply not_elem_of_dom in Hi.
    by rewrite Hi. }
  clear Hl. revert bd Hempty.
  induction l as [|i l IH]; intros bd Hempty; simpl.
  - split; [done|]. intros a. split; [by left|].
    by intros [?|?%elem_of_nil].
  - assert (∀ a, bonds (<[i := ∅]> bd) a = bonds bd a) as Hsame.
    { intros a. unfold bonds. destruct (decide (i = a)) as [->|].
      - rewrite lookup_insert_eq. simpl. symmetry. apply Hempty. left.
      - by rewrite lookup_insert_ne. }
    destruct (IH (<[i := ∅]> bd)) as [Hb Hd].
    { intros j Hj. rewrite Hsame. apply Hempty. by right. }
    split.
    + intros a. by rewrite Hb, Hsame.
    + intros a. rewrite Hd, dom_insert_L, elem_of_union, elem_of_singleton,
        elem_of_cons. naive_solver.
Qed.

(** ** Renaming row numbers to identifiers *)

Section rename.
Context (O : PyOrder) (idx : list Z) (bd : bond_dict_t).

Let ren (k : Z) : Z := idx !!! Z.to_nat k.

Let renamed_partners (k : Z) : gset Z :=
  list_to_set (ren <$> iter_set O (bonds bd k)) ∪ ∅.

Hypothesis Hdom : ∀ k, k ∈ dom bd → 0 ≤ k < Z.of_nat (length idx).
Hypothesis Hval :
  ∀ k j, j ∈ bonds bd k → 0 ≤ j < Z.of_nat (length idx).

Lemma rename_at_Ok k :
  0 ≤ k < Z.of_nat (length idx) → rename_at idx k = Ok (ren k).
Proof.
  intros Hk. unfold rename_at, ren. rewrite decide_True by lia.
  destruct (lookup_lt_is_Some_2 idx (Z.to_nat k)) as [a Ha]; [lia|].
  by rewrite Ha, (list_lookup_total_correct _ _ _ Ha).
Qed.

Lemma rename_partners l (acc : gset Z) :
  (∀ i, i ∈ l → 0 ≤ i < Z.of_nat (length idx)) →
  for_each l (λ acc i, i' ← rename_at idx i ;;; Ok ({[i']} ∪ acc)) acc
  = Ok (list_to_set (ren <$> l) ∪ acc).
Proof.
  revert acc. induction l as [|i l IH]; intros acc Hl; simpl.
  - f_equal. set_solver.
  - rewrite rename_at_Ok by (apply Hl; left). simpl.
    rewrite IH by (intros; apply Hl; by right). f_equal. set_solver.
Qed.

Lemma rename_loop ks (new : bond_dict_t) :
  (∀ k, k ∈ ks → k ∈ dom bd) →
  for_each ks
    (λ new key,
       key' ← rename_at idx key ;;;
       partners ←
         for_each (iter_set O (default ∅ (bd !! key)))
           (λ acc i, i' ← rename_at idx i ;;; Ok ({[i']} ∪ acc))
           (∅ : gset Z) ;;;
       Ok (<[key' := partners]> new)) new
  = Ok (foldl (λ new k, <[ren k := renamed_partners k]> new) new ks).
Proof.
  revert new. induction ks as [|k ks IH]; intros new Hks; simpl; [done|].
  rewrite rename_at_Ok by (apply Hdom, Hks; left). simpl.
  rewrite rename_partners.
  2:{ intros i Hi%elem_of_iter_set. by apply (Hval k). }
  simpl. apply IH. intros; apply Hks; by right.
Qed.

Lemma elem_of_renamed_partners k j :
  j ∈ renamed_partners k ↔ ∃ k', k' ∈ bonds bd k ∧ ren k' = j.
Proof.
  unfold renamed_partners.
  rewrite elem_of_union, elem_of_list_to_set, list_elem_of_fmap.
  split.
  - intros [(k' & -> & Hk'%elem_of_iter_set)|?%not_elem_of_empty];
      [eauto|done].
  - intros (k' & Hk' & <-). left. exists k'. split; [done|].
    by apply elem_of_iter_set.
Qed.
End rename.

Lemma foldl_insert_dom {V} (f : Z → Z) (F : Z → V) ks (new : gmap Z V) a :
  a ∈ dom (foldl (λ m k, <[f k := F k]> m) new ks) ↔
  a ∈ dom new ∨ a ∈ f <$> ks.
Proof.
  revert new. induction ks as [|k ks IH]; intros new; simpl.
  - split; [by left|]. by intros [?|?%elem_of_nil].
  - rewrite IH, dom_insert_L, elem_of_union, elem_of_singleton, elem_of_cons.
    naive_solver.
Qed.

Lemma foldl_insert_lookup_ne {V} (f : Z → Z) (F : Z → V) ks
    (new : gmap Z V) a :
  a ∉ f <$> ks → foldl (λ m k, <[f k := F k]> m) new ks !! a = new !! a.
Proof.
  revert new. induction ks as [|k ks IH]; intros new Ha; simpl; [done|].
  rewrite fmap_cons, not_elem_of_cons in Ha. destruct Ha as [? ?].
  rewrite IH by done. by rewrite lookup_insert_ne.
Qed.

Lemma foldl_insert_lookup {V} (f : Z → Z) (F : Z → V) ks
    (new : gmap Z V) k :
  NoDup (f <$> ks) → k ∈ ks →
  foldl (λ m k, <[f k := F k]> m) new ks !! f k = Some (F k).
Proof.
  revert new. induction ks as [|k0 ks IH]; intros new Hnd Hk; simpl.
  - by apply elem_of_nil in Hk.
  - rewrite fmap_cons in Hnd. apply NoDup_cons in Hnd as [Hnotin Hnd].
    apply elem_of_cons in Hk as [->|Hk].
    + rewrite foldl_insert_lookup_ne by done. by rewrite lookup_insert_eq.
    + by apply IH.
Qed.

(** ** The fresh computation of [get_bonds] *)

Lemma complete_calculation_spec O c aps sba offset mp data :
  (1 ≤ len c)%nat → (1 ≤ aps)%nat →
  ∃ fragments bd,
    _divide_et_impera (renumbered c) aps offset = Ok fragments ∧
    complete_calculation O c aps sba offset mp data = (c, Ok bd) ∧
    (∀ i, i ∈ dom bd ↔ i ∈ index_of c) ∧
    (NoDup (index_of c) →
     ∀ i j, j ∈ bonds bd i ↔
       ∃ p q, index_of c !! p = Some i ∧ index_of c !! q = Some j ∧
         linked (concat (concat fragments)) (positions_of c)
                (bond_radii_of (renumbered c) data mp) sba
                (Z.of_nat p) (Z.of_nat q)).
Proof.
  intros Hn Haps. unfold complete_calculation.
  rewrite set_index_range.
  destruct (divide_et_impera_spec (renumbered c) aps offset)
    as (fragments & Hfr & Hsub & _); [by rewrite len_renumbered|done|].
  rewrite Hfr. simpl. exists fragments.
  set (cells := concat (concat fragments)) in *.
  set (positions := positions_of (renumbered c)).
  set (radii := bond_radii_of (renumbered c) data mp).
  assert (∀ cell a, cell ∈ cells → a ∈ cell → 0 ≤ a < Z.of_nat (len c))
    as Hrange.
  { intros cell a Hcell Ha. apply elem_of_range.
    rewrite <- index_renumbered. by eapply Hsub. }
  destruct (cells_loop_spec O cells positions radii sba ∅) as
    (bd1 & -> & Hb1 & Hd1).
  { unfold radii, positions.
    by rewrite length_bond_radii, length_positions. }
  { unfold positions. rewrite length_positions, len_renumbered.
    exact Hrange. }
  simpl.
  set (missing := iter_set O (list_to_set (index_of (renumbered c)) ∖ dom bd1)).
  destruct (fill_spec missing bd1) as [Hb2 Hd2].
  { intros i Hi%elem_of_iter_set. set_solver. }
  set (bd2 := foldl (λ bd i, <[i := ∅]> bd) bd1 missing) in *.
  rewrite set_index_back.
  assert (∀ k, k ∈ dom bd2 ↔ 0 ≤ k < Z.of_nat (len c)) as Hdom2.
  { intros k. rewrite Hd2. unfold missing.
    rewrite elem_of_iter_set, elem_of_difference, elem_of_list_to_set,
      index_renumbered, elem_of_range.
    split.
    - intros [[Hk|(cell & ? & ?)]%Hd1|[? _]]; [set_solver|eauto|done].
    - intros Hk. destruct (decide (k ∈ dom bd1)); [by left|by right]. }
  assert (∀ a b, b ∈ bonds bd2 a ↔ linked cells positions radii sba a b)
    as Hbonds2.
  { intros a b. rewrite Hb2, Hb1. unfold bonds at 1.
    rewrite lookup_empty. simpl. set_solver. }
  assert (∀ k j, j ∈ bonds bd2 k → 0 ≤ j < Z.of_nat (length (index_of c)))
    as Hval2.
  { intros k j (cell & Hcell & _ & Hj & _)%Hbonds2.
    rewrite length_index. by eapply Hrange. }
  rewrite (rename_loop O (index_of c) bd2).
  2:{ intros k Hk%Hdom2. by rewrite length_index. }
  2:{ exact Hval2. }
  2:{ intros k Hk. by apply elem_of_iter_dict in Hk. }
  set (ren := λ k : Z, index_of c !!! Z.to_nat k).
  set (F := λ k : Z,
         list_to_set (ren <$> iter_set O (bonds bd2 k)) ∪ (∅ : gset Z)).
  exists (foldl (λ (new : bond_dict_t) k, <[ren k := F k]> new) ∅
                (iter_dict O bd2)).
  split; [done|]. split; [done|].
  assert (∀ k j, j ∈ F k ↔ ∃ k', k' ∈ bonds bd2 k ∧ ren k' = j) as HF
    by apply (elem_of_renamed_partners O (index_of c) bd2).
  assert (∀ i, i ∈ ren <$> iter_dict O bd2 ↔ i ∈ index_of c) as Hkeys.
  { intros i. rewrite list_elem_of_fmap. split.
    - intros (k & -> & Hk%elem_of_iter_dict%Hdom2). unfold ren.
      apply list_elem_of_lookup_total_2. rewrite length_index. lia.
    - intros [p Hp]%list_elem_of_lookup. exists (Z.of_nat p).
      apply lookup_lt_Some in Hp as Hlt. rewrite length_index in Hlt.
      split.
      + unfold ren. rewrite Nat2Z.id.
        symmetry. by apply list_lookup_total_correct.
      + apply elem_of_iter_dict, Hdom2. lia. }
  split.
  - intros i. rewrite foldl_insert_dom, dom_empty_L, Hkeys. set_solver.
  - intros Hnd i j.
    assert (NoDup (ren <$> iter_dict O bd2)) as Hnd'.
    { apply NoDup_fmap_2_strong; [|apply NoDup_iter_dict].
      intros k1 k2 Hk1%elem_of_iter_dict%Hdom2 Hk2%elem_of_iter_dict%Hdom2.
      unfold ren. intros E.
      destruct (lookup_lt_is_Some_2 (index_of c) (Z.to_nat k1)) as [a Ha];
        [rewrite length_index; lia|].
      destruct (lookup_lt_is_Some_2 (index_of c) (Z.to_nat k2)) as [b Hb];
        [rewrite length_index; lia|].
      rewrite (list_lookup_total_correct _ _ _ Ha),
        (list_lookup_total_correct _ _ _ Hb) in E. subst b.
      pose proof (NoDup_lookup _ _ _ _ Hnd Ha Hb). lia. }
    unfold positions in Hbonds2. rewrite positions_renumbered in Hbonds2.
    split.
    + intros Hj. unfold bonds in Hj.
      destruct (foldl _ _ _ !! i) as [s|] eqn:Hs; simpl in Hj;
        [|by apply not_elem_of_empty in Hj].
      assert (i ∈ ren <$> iter_dict O bd2) as Hi.
      { destruct (decide (i ∈ ren <$> iter_dict O bd2)); [done|].
        rewrite foldl_insert_lookup_ne in Hs by done.
        by rewrite lookup_empty in Hs. }
      apply list_elem_of_fmap in Hi as (k & -> & Hk).
      rewrite (foldl_insert_lookup ren) in Hs by done.
      injection Hs as <-.
      apply HF in Hj as (k' & Hk' & <-).
      apply elem_of_iter_dict, Hdom2 in Hk.
      pose proof (Hval2 _ _ Hk') as Hk'r. rewrite length_index in Hk'r.
      exists (Z.to_nat k), (Z.to_nat k'). rewrite !Z2Nat.id by lia.
      split; [|split]; [| |by apply Hbonds2];
        apply list_lookup_lookup_total_lt; rewrite length_index; lia.
    + intros (p & q & Hp & Hq & Hlink).
      apply lookup_lt_Some in Hp as Hplt. rewrite length_index in Hplt.
      assert (Z.of_nat p ∈ iter_dict O bd2) as Hk
        by (apply elem_of_iter_dict, Hdom2; lia).
      assert (ren (Z.of_nat p) = i) as <-.
      { unfold ren. rewrite Nat2Z.id. by apply list_lookup_total_correct. }
      unfold bonds. rewrite (foldl_insert_lookup ren) by done. simpl.
      apply HF. exists (Z.of_nat q). split.
      * by apply Hbonds2.
      * unfold ren. rewrite Nat2Z.id. by apply list_lookup_total_correct.
Qed.

(** ** Two adjacency relations with the same keys and partners are equal *)

Lemma bond_dict_eq (d1 d2 : bond_dict_t) :
  (∀ i, i ∈ dom d1 ↔ i ∈ dom d2) →
  (∀ i j, j ∈ bonds d1 i ↔ j ∈ bonds d2 i) →
  d1 = d2.
Proof.
  intros Hd Hb. apply map_eq. intros i.
  specialize (Hd i). rewrite !elem_of_dom in Hd.
  assert (bonds d1 i = bonds d2 i) as E by (apply set_eq; apply Hb).
  unfold bonds in E.
  destruct (d1 !! i) as [s1|], (d2 !! i) as [s2|]; simpl in *.
  - by rewrite E.
  - destruct Hd as [Hd _]. destruct Hd as [? [=]]. eauto.
  - destruct Hd as [_ Hd]. destruct Hd as [? [=]]. eauto.
  - done.
Qed.

(** ** Rows and the arrays built from them *)

Lemma positions_lookup c p r :
  _frame c !! p = Some r →
  (positions_of c !!! p : vec3) = (col_x r, col_y r, col_z r).
Proof.
  intros Hr. apply list_lookup_total_correct.
  unfold positions_of. by rewrite list_lookup_fmap, Hr.
Qed.

Lemma index_lookup c p i :
  index_of c !! p = Some i ↔ ∃ r, _frame c !! p = Some r ∧ label r = i.
Proof.
  unfold index_of. rewrite list_lookup_fmap. split.
  - destruct (_frame c !! p) as [r|]; [|done]. intros [= <-]. eauto.
  - intros (r & -> & <-). done.
Qed.

Lemma renumbered_lookup c p r :
  _frame c !! p = Some r →
  _frame (renumbered c) !! p
  = Some (Row (Z.of_nat p) (col_atom r) (col_x r) (col_y r) (col_z r)).
Proof.
  intros Hr. unfold renumbered. simpl. apply lookup_zip_with_Some.
  exists r, (Z.of_nat p). split; [done|]. split; [done|].
  apply lookup_range. apply lookup_lt_Some in Hr. by unfold len.
Qed.

(** ** The all-pairs relation *)

Lemma brute_force_spec c sba mp data :
  NoDup (index_of c) →
  (∀ i, i ∈ dom (brute_force_bonds c sba mp data) ↔ i ∈ index_of c) ∧
  ∀ i j, j ∈ bonds (brute_force_bonds c sba mp data) i ↔
    ∃ p q, index_of c !! p = Some i ∧ index_of c !! q = Some j ∧
      bonded (positions_of c) (bond_radii_of (renumbered c) data mp) sba
             (Z.of_nat p) (Z.of_nat q) = true.
Proof.
  intros Hnd.
  pose (S := λ p : nat, (list_to_set
          (omap (λ q,
             if bonded (positions_of c)
                  (bond_radii_of (renumbered c) data mp) sba
                  (Z.of_nat p) (Z.of_nat q)
             then index_of c !! q else None)
           (seq 0 (len c))) : gset Z)).
  pose (l := imap (λ p r, (label r, S p)) (_frame c)).
  change (brute_force_bonds c sba mp data) with (list_to_map l : bond_dict_t).
  assert (l.*1 = index_of c) as Hl.
  { unfold l. rewrite fmap_imap. unfold index_of.
    rewrite <- (imap_const label). by apply imap_ext. }
  assert (∀ p j, j ∈ S p ↔ ∃ q, index_of c !! q = Some j ∧
      bonded (positions_of c) (bond_radii_of (renumbered c) data mp) sba
             (Z.of_nat p) (Z.of_nat q) = true) as HS.
  { intros p j. unfold S. rewrite elem_of_list_to_set, list_elem_of_omap.
    split.
    - intros (q & _ & Hq). destruct (bonded _ _ _ _ _) eqn:E; [|done].
      eauto.
    - intros (q & Hq & E). exists q. rewrite E. split; [|done].
      apply elem_of_seq. apply lookup_lt_Some in Hq.
      rewrite length_index in Hq. lia. }
  split.
  - intros i. rewrite dom_list_to_map_L, Hl. apply elem_of_list_to_set.
  - intros i j. unfold bonds. split.
    + destruct (list_to_map l !! i) as [s|] eqn:Hs; simpl;
        [|by intros ?%not_elem_of_empty].
      apply elem_of_list_to_map in Hs; [|by rewrite Hl].
      apply elem_of_lookup_imap in Hs as (p & r & [= -> ->] & Hr).
      intros (q & Hq & Hb)%HS. exists p, q. split; [|done].
      apply index_lookup. eauto.
    + intros (p & q & (r & Hr & <-)%index_lookup & Hq & Hb).
      assert (list_to_map l !! label r = Some (S p)) as ->.
      { apply elem_of_list_to_map; [by rewrite Hl|].
        apply elem_of_lookup_imap. eauto. }
      simpl. apply HS. eauto.
Qed.

(** ** Bonded atoms are closer than the overlap margin along each axis *)

Lemma sq_nonneg (d : Q) : (0 <= d * d)%Q.
Proof. nra. Qed.

Lemma sq_le_bound (d o : Q) :
  (0 <= o)%Q → (d * d <= o * o)%Q → (- o <= d)%Q ∧ (d <= o)%Q.
Proof. intros Ho Hd. split; nra. Qed.

Lemma bond_test_within positions radii p q offset :
  bond_test positions radii p q = true →
  (0 <= radii !!! p)%Q → (0 <= radii !!! q)%Q →
  (2 * radii !!! p < offset)%Q → (2 * radii !!! q < offset)%Q →
  ∀ h, (h < 3)%nat →
    (coord (positions !!! p) h - offset <= coord (positions !!! q) h)%Q ∧
    (coord (positions !!! q) h <= coord (positions !!! p) h + offset)%Q.
Proof.
  unfold bond_test, sq_distance. intros Ht%Qle_bool_iff Hp Hq Hp2 Hq2.
  simpl in Ht.
  set (rp := radii !!! p) in *. set (rq := radii !!! q) in *.
  clearbody rp rq.
  destruct (positions !!! p) as [[ax ay] az].
  destruct (positions !!! q) as [[bx byy] bz]. simpl in *.
  assert (0 <= offset)%Q as Ho by lra.
  assert ((rp + rq) * (rp + rq) <= offset * offset)%Q as Hsq.
  { clear Ht. nra. }
  clear Hp Hq Hp2 Hq2.
  pose proof (sq_nonneg (ax - bx)) as Hx.
  pose proof (sq_nonneg (ay - byy)) as Hy.
  pose proof (sq_nonneg (az - bz)) as Hz.
  intros h Hh.
  assert (h = 0 ∨ h = 1 ∨ h = 2)%nat as [-> | [-> | ->]] by lia; simpl.
  - destruct (sq_le_bound (ax - bx) offset); [done|lra|]. split; lra.
  - destruct (sq_le_bound (ay - byy) offset); [done|lra|]. split; lra.
  - destruct (sq_le_bound (az - bz) offset); [done|lra|]. split; lra.
Qed.

(** ** [get_bonds]: what a call returns and what it leaves behind *)

Lemma complete_calculation_empty O c aps sba offset mp data :
  _frame c = [] →
  complete_calculation O c aps sba offset mp data
  = (renumbered c, Raise ZeroDivisionError).
Proof.
  intros Hc. unfold complete_calculation. rewrite set_index_range.
  unfold _divide_et_impera. rewrite len_renumbered.
  unfold len. rewrite Hc. simpl.
  destruct (decide (aps = 0%nat)); done.
Qed.

Lemma len_pos c : _frame c ≠ [] → (1 ≤ len c)%nat.
Proof. unfold len. destruct (_frame c); simpl; [done|lia]. Qed.

(** A call either computes afresh or returns the cached relation. *)
Lemma get_bonds_cases O c sba offset mp use_lookup set_lookup data c' bd :
  get_bonds O c sba offset mp use_lookup set_lookup data = (c', Ok bd) →
  c' = (if set_lookup
        then mkCartesian (_frame c) (metadata c)
                         (<["bond_dict" := bd]> (_metadata c))
        else c) ∧
  ((use_lookup = true ∧ _metadata c !! "bond_dict" = Some bd) ∨
   (_frame c ≠ [] ∧
    complete_calculation O c 500 sba offset mp data = (c, Ok bd))).
Proof.
  unfold get_bonds.
  assert (∀ r : Cartesian * result bond_dict_t,
    r = complete_calculation O c 500 sba offset mp data →
    (let '(c', bond_dict) := r in
     match bond_dict with
     | Raise e => (c', Raise e)
     | Ok bd =>
       if set_lookup then
         (mkCartesian (_frame c') (metadata c')
                      (<["bond_dict" := bd]> (_metadata c')), Ok bd)
       else (c', Ok bd)
     end) = (c', Ok bd) →
    c' = (if set_lookup
          then mkCartesian (_frame c) (metadata c)
                           (<["bond_dict" := bd]> (_metadata c))
          else c) ∧
    _frame c ≠ [] ∧
    complete_calculation O c 500 sba offset mp data = (c, Ok bd)) as Hcalc.
  { intros r -> Hr.
    destruct (decide (_frame c = [])) as [Hc|Hc].
    - rewrite complete_calculation_empty in Hr by done. done.
    - destruct (complete_calculation_spec O c 500 sba offset mp data)
        as (fr & bd0 & _ & Hcc & _); [by apply len_pos|lia|].
      rewrite Hcc in Hr |- *. destruct set_lookup; by injection Hr as <- <-. }
  destruct use_lookup.
  - destruct (_metadata c !! "bond_dict") as [cached|] eqn:Hcached.
    + intros Hr. split.
      * destruct set_lookup; by injection Hr as <- <-.
      * left. destruct set_lookup; by injection Hr as <- <-.
    + intros Hr. destruct (Hcalc _ eq_refl Hr) as (? & ? & ?). eauto.
  - intros Hr. destruct (Hcalc _ eq_refl Hr) as (? & ? & ?). eauto.
Qed.

Lemma get_bonds_fresh O c sba offset mp set_lookup data :
  _frame c ≠ [] →
  ∃ fragments bd,
    _divide_et_impera (renumbered c) 500 offset = Ok fragments ∧
    complete_calculation O c 500 sba offset mp data = (c, Ok bd) ∧
    get_bonds O c sba offset mp false set_lookup data
    = (if set_lookup
       then mkCartesian (_frame c) (metadata c)
                        (<["bond_dict" := bd]> (_metadata c))
       else c, Ok bd).
Proof.
  intros Hc.
  destruct (complete_calculation_spec O c 500 sba offset mp data)
    as (fr & bd & Hfr & Hcc & _); [by apply len_pos|lia|].
  exists fr, bd. split; [done|]. split; [done|].
  unfold get_bonds. rewrite Hcc. by destruct set_lookup.
Qed.

(** The cells never separate two atoms that pass the bond test, when
    the radii are lengths below half the overlap margin. *)
Lemma linked_iff_bonded c aps offset mp data sba fragments p q :
  _divide_et_impera (renumbered c) aps offset = Ok fragments →
  (1 ≤ aps)%nat →
  (∀ r, r ∈ bond_radii_of (renumbered c) data mp →
        (0 <= r)%Q ∧ (2 * r < offset)%Q) →
  (p < len c)%nat → (q < len c)%nat →
  linked (concat (concat fragments)) (positions_of c)
         (bond_radii_of (renumbered c) data mp) sba
         (Z.of_nat p) (Z.of_nat q) ↔
  bonded (positions_of c) (bond_radii_of (renumbered c) data mp) sba
         (Z.of_nat p) (Z.of_nat q) = true.
Proof.
  intros Hfr Haps Hradii Hp Hq. split; [by intros (? & _ & _ & _ & ?)|].
  intros Hb.
  destruct (divide_et_impera_spec (renumbered c) aps offset)
    as (fr' & Hfr' & _ & Hcov); [rewrite len_renumbered; lia|done|].
  rewrite Hfr in Hfr'. injection Hfr' as <-.
  set (radii := bond_radii_of (renumbered c) data mp) in *.
  assert (∀ k, (k < len c)%nat →
    (0 <= radii !!! k)%Q ∧ (2 * radii !!! k < offset)%Q) as Hr.
  { intros k Hk. apply Hradii, list_elem_of_lookup_total_2.
    unfold radii. rewrite length_bond_radii, len_renumbered. lia. }
  destruct (Hr p Hp) as [Hp0 Hp2], (Hr q Hq) as [Hq0 Hq2].
  destruct (lookup_lt_is_Some_2 (_frame c) p) as [ra Hra]; [done|].
  destruct (lookup_lt_is_Some_2 (_frame c) q) as [rb Hrb]; [done|].
  pose proof (renumbered_lookup c p ra Hra) as Hra'.
  pose proof (renumbered_lookup c q rb Hrb) as Hrb'.
  assert (within offset ra rb) as Hw.
  { unfold bonded in Hb. rewrite !Nat2Z.id in Hb.
    destruct (decide (_ ∧ _)); [done|].
    pose proof (bond_test_within _ _ _ _ offset Hb Hp0 Hq0 Hp2 Hq2) as Hc.
    pose proof (Hc 0%nat ltac:(lia)) as H0.
    pose proof (Hc 1%nat ltac:(lia)) as H1.
    pose proof (Hc 2%nat ltac:(lia)) as H2.
    rewrite (positions_lookup c p ra Hra),
      (positions_lookup c q rb Hrb) in H0, H1, H2.
    simpl in H0, H1, H2. unfold within. tauto. }
  destruct (Hcov) with (ra := Row (Z.of_nat p) (col_atom ra) (col_x ra)
                                  (col_y ra) (col_z ra))
                       (rb := Row (Z.of_nat q) (col_atom rb) (col_x rb)
                                  (col_y rb) (col_z rb))
    as (cell & Hcell & Ha & Hb').
  - lra.
  - by eapply list_elem_of_lookup_2.
  - by eapply list_elem_of_lookup_2.
  - exact Hw.
  - by exists cell.
Qed.

(** ** Partition invariance *)

Lemma complete_calculation_brute_force O c aps sba offset mp data :
  _frame c ≠ [] → (1 ≤ aps)%nat → NoDup (index_of c) →
  (∀ r, r ∈ bond_radii_of (renumbered c) data mp →
        (0 <= r)%Q ∧ (2 * r < offset)%Q) →
  complete_calculation O c aps sba offset mp data
  = (c, Ok (brute_force_bonds c sba mp data)).
Proof.
  intros Hc Haps Hnd Hradii.
  destruct (complete_calculation_spec O c aps sba offset mp data)
    as (fr & bd & Hfr & -> & Hdom & Hbonds); [by apply len_pos|done|].
  destruct (brute_force_spec c sba mp data Hnd) as [Hbfd Hbfb].
  do 2 f_equal. apply bond_dict_eq.
  - intros i. by rewrite Hdom, Hbfd.
  - intros i j. rewrite (Hbonds Hnd), Hbfb.
    split; intros (p & q & Hp & Hq & H); exists p, q;
      (split; [done|]); (split; [done|]);
      apply lookup_lt_Some in Hp as Hp'; apply lookup_lt_Some in Hq as Hq';
      rewrite length_index in Hp', Hq';
      by eapply linked_iff_bonded.
Qed.

(** C1. For a non-empty atom set with one row per identifier and radii
    that are lengths below half the overlap margin, the relation computed
    through the cells of [_divide_et_impera] is the all-pairs relation, for
    each number of atoms per cell (at least one) and each iteration order;
    [get_bonds], which uses 500 atoms per cell, returns it. *)
Theorem get_bonds_partition_invariance O c n_atoms_per_set
    self_bonding_allowed offset modified_properties atomic_radius_data
    set_lookup :
  _frame c ≠ [] → (1 ≤ n_atoms_per_set)%nat → NoDup (index_of c) →
  (∀ r, r ∈ bond_radii_of (renumbered c) atomic_radius_data
                          modified_properties →
        (0 <= r)%Q ∧ (2 * r < offset)%Q) →
  complete_calculation O c n_atoms_per_set self_bonding_allowed offset
                       modified_properties atomic_radius_data
  = (c, Ok (brute_force_bonds c self_bonding_allowed modified_properties
                              atomic_radius_data)) ∧
  (get_bonds O c self_bonding_allowed offset modified_properties
             false set_lookup atomic_radius_data).2
  = Ok (brute_force_bonds c self_bonding_allowed modified_properties
                          atomic_radius_data).
Proof.
  intros Hc Haps Hnd Hradii. split.
  - by apply complete_calculation_brute_force.
  - unfold get_bonds.
    rewrite (complete_calculation_brute_force O c 500) by (done || lia).
    by destruct set_lookup.
Qed.

Lemma three_atoms_NoDup : NoDup (index_of three_atoms).
Proof.
  unfold index_of, three_atoms. simpl.
  repeat (apply NoDup_cons; split; [set_solver|]). apply NoDup_nil_2.
Defined.

Lemma three_atoms_radii (r : Q) :
  r ∈ bond_radii_of (renumbered three_atoms) (uniform_radius 0.8) None →
  (0 <= r)%Q ∧ (2 * r < 3)%Q.
Proof.
  unfold bond_radii_of, renumbered, three_atoms, uniform_radius. simpl.
  intros Hr. repeat (apply elem_of_cons in Hr as [->|Hr]; [by vm_compute|]).
  by apply elem_of_nil in Hr.
Defined.

Lemma get_bonds_partition_invariance_witness :
  complete_calculation canonical_order three_atoms 1 false 3 None
                       (uniform_radius 0.8)
  = (three_atoms,
     Ok (brute_force_bonds three_atoms false None (uniform_radius 0.8))) ∧
  (get_bonds canonical_order three_atoms false 3 None false true
             (uniform_radius 0.8)).2
  = Ok (brute_force_bonds three_atoms false None (uniform_radius 0.8)).
Proof.
  apply (get_bonds_partition_invariance canonical_order three_atoms 1 false
           3 None (uniform_radius 0.8) true).
  - discriminate.
  - lia.
  - exact three_atoms_NoDup.
  - exact three_atoms_radii.
Defined.

(** ** Symmetry *)

Lemma linked_sym cells positions radii sba a b :
  linked cells positions radii sba a b →
  linked cells positions radii sba b a.
Proof.
  intros (cell & ? & ? & ? & Hb). exists cell.
  by rewrite bonded_sym.
Qed.

(** C7. With self bonding disabled, a relation that [get_bonds] computes
    for an atom set with one row per identifier is symmetric and no
    identifier is its own partner; a non-empty atom set does get a
    relation. *)
Theorem get_bonds_symmetric O c offset modified_properties set_lookup
    atomic_radius_data :
  NoDup (index_of c) →
  (_frame c ≠ [] →
   ∃ c' bd, get_bonds O c false offset modified_properties false set_lookup
                      atomic_radius_data = (c', Ok bd)) ∧
  ∀ c' bd,
    get_bonds O c false offset modified_properties false set_lookup
              atomic_radius_data = (c', Ok bd) →
    (∀ i j, j ∈ bonds bd i ↔ i ∈ bonds bd j) ∧
    (∀ i, i ∉ bonds bd i).
Proof.
  intros Hnd. split.
  - intros Hc.
    destruct (get_bonds_fresh O c false offset modified_properties
                set_lookup atomic_radius_data Hc) as (? & bd & _ & _ & ->).
    eauto.
  - intros c' bd Hget.
    apply get_bonds_cases in Hget as [_ [[[=] _]|[Hc Hcc]]].
    destruct (complete_calculation_spec O c 500 false offset
                modified_properties atomic_radius_data)
      as (fr & bd' & _ & Hcc' & _ & Hbonds); [by apply len_pos|lia|].
    rewrite Hcc in Hcc'. injection Hcc' as <-.
    specialize (Hbonds Hnd). split.
    + intros i j. rewrite !Hbonds.
      split; intros (p & q & ? & ? & ?%linked_sym); by exists q, p.
    + intros i (p & q & Hp & Hq & (? & _ & _ & _ & Hb))%Hbonds.
      assert (p = q) as -> by by eapply NoDup_lookup.
      unfold bonded in Hb. by rewrite decide_True in Hb.
Qed.

Lemma get_bonds_symmetric_witness :
  NoDup (index_of three_atoms) ∧
  (∃ c' bd, get_bonds canonical_order three_atoms false 3 None false true
                      (uniform_radius 0.8) = (c', Ok bd)) ∧
  ∀ c' bd,
    get_bonds canonical_order three_atoms false 3 None false true
              (uniform_radius 0.8) = (c', Ok bd) →
    (∀ i j, j ∈ bonds bd i ↔ i ∈ bonds bd j) ∧ (∀ i, i ∉ bonds bd i).
Proof.
  pose proof (get_bonds_symmetric canonical_order three_atoms 3 None true
                (uniform_radius 0.8) three_atoms_NoDup) as [Hret Hsym].
  split; [exact three_atoms_NoDup|]. split; [|exact Hsym].
  apply Hret. discriminate.
Defined.

(** ** The boundary of the bond test, in exact arithmetic *)

Lemma bond_test_boundary pos radii i j :
  (sq_distance (pos !!! i) (pos !!! j)
   == (radii !!! i + radii !!! j) ^ 2)%Q →
  bond_test pos radii i j = true.
Proof.
  intros E. unfold bond_test. apply Qle_bool_iff. rewrite E. lra.
Qed.

(** ** What [get_bonds] leaves behind *)

(** C10. A call of [get_bonds] that returns leaves the rows (index
    labels, element symbols, positions) and the public metadata as they
    were; of the private metadata only the entry ['bond_dict'] may differ.
    On a non-empty atom set the call returns. *)
Theorem get_bonds_leaves_atoms_unchanged O c self_bonding_allowed offset
    modified_properties use_lookup set_lookup atomic_radius_data :
  (_frame c ≠ [] →
   ∃ c' bd, get_bonds O c self_bonding_allowed offset modified_properties
                      use_lookup set_lookup atomic_radius_data
            = (c', Ok bd)) ∧
  ∀ c' bd,
    get_bonds O c self_bonding_allowed offset modified_properties
              use_lookup set_lookup atomic_radius_data = (c', Ok bd) →
    _frame c' = _frame c ∧
    metadata c' = metadata c ∧
    ∀ key, key ≠ "bond_dict" → _metadata c' !! key = _metadata c !! key.
Proof.
  split.
  - intros Hc.
    destruct (get_bonds_fresh O c self_bonding_allowed offset
                modified_properties set_lookup atomic_radius_data Hc)
      as (? & bd & _ & Hcc & Hfresh).
    destruct use_lookup; [|eauto].
    unfold get_bonds.
    destruct (_metadata c !! "bond_dict") as [cached|].
    + destruct set_lookup; eauto.
    + rewrite Hcc. destruct set_lookup; eauto.
  - intros c' bd [-> _]%get_bonds_cases.
    destruct set_lookup; simpl; [|done].
    repeat split. intros key Hkey. by rewrite lookup_insert_ne.
Qed.

Lemma get_bonds_leaves_atoms_unchanged_witness :
  (∃ c' bd, get_bonds canonical_order three_atoms false 3 None false true
                      (uniform_radius 0.8) = (c', Ok bd)) ∧
  ∀ c' bd,
    get_bonds canonical_order three_atoms false 3 None false true
              (uniform_radius 0.8) = (c', Ok bd) →
    _frame c' = _frame three_atoms ∧
    metadata c' = metadata three_atoms ∧
    ∀ key, key ≠ "bond_dict" →
           _metadata c' !! key = _metadata three_atoms !! key.
Proof.
  pose proof (get_bonds_leaves_atoms_unchanged canonical_order three_atoms
                false 3 None false true (uniform_radius 0.8)) as [Hret Hfr].
  split; [apply Hret; discriminate|exact Hfr].
Defined.

(** ** Double precision: what rounding keeps *)

Section binary64_facts.
Import binary64.

(** [SpecFloat] names the integer operations by their defining module. *)
Ltac stdlib_Z :=
  change IntDef.Z.min with Z.min in *;
  change IntDef.Z.add with Z.add in *;
  change IntDef.Z.sub with Z.sub in *;
  change IntDef.Z.opp with Z.opp in *;
  change IntDef.Z.compare with Z.compare in *;
  change PosDef.Pos.compare_cont with Pos.compare_cont in *.

Lemma add_comm x y : add x y = add y x.
Proof.
  unfold add, SFadd.
  destruct x as [sx|sx| |sx mx ex], y as [sy|sy| |sy my ey]; try done;
    try (by destruct sx, sy).
  stdlib_Z. by rewrite (Z.min_comm ey ex), Z.add_comm.
Qed.

Lemma binary_round_aux_opp sx m e l :
  binary_round_aux prec emax (negb sx) m e l
  = SFopp (binary_round_aux prec emax sx m e l).
Proof.
  unfold binary_round_aux.
  destruct (shr_fexp prec emax m e l) as [mrs' e'].
  destruct (shr_fexp prec emax _ e' loc_Exact) as [mrs'' e''].
  destruct (shr_m mrs''); [done| |done].
  by destruct (Z.leb e'' _).
Qed.

Lemma binary_round_opp m e :
  binary_round prec emax true m e = SFopp (binary_round prec emax false m e).
Proof.
  unfold binary_round. destruct (shl_align _ _ _) as [mz ez].
  apply (binary_round_aux_opp false).
Qed.

Lemma SFopp_involutive x : SFopp (SFopp x) = x.
Proof. destruct x as [s|s| |s m e]; simpl; by rewrite ?negb_involutive. Qed.

Lemma binary_normalize_opp m e :
  m ≠ 0 →
  binary_normalize prec emax (- m) e false
  = SFopp (binary_normalize prec emax m e false).
Proof.
  intros Hm. destruct m as [|m|m]; [done|..]; cbn [Z.opp binary_normalize].
  - apply binary_round_opp.
  - by rewrite binary_round_opp, SFopp_involutive.
Qed.

(** [x - y] and [y - x] are opposite, or both [+0.0]. *)
Lemma sub_swap x y :
  sub y x = SFopp (sub x y) ∨ (sub x y = zero ∧ sub y x = zero).
Proof.
  unfold sub, SFsub, zero.
  destruct x as [sx|sx| |sx mx ex], y as [sy|sy| |sy my ey];
    try (left; reflexivity);
    try (destruct sx, sy; simpl;
         (left; reflexivity) || (right; split; reflexivity));
    try (destruct sx; left; reflexivity);
    try (destruct sy; left; reflexivity).
  - stdlib_Z. rewrite (Z.min_comm ey ex).
    set (cx := cond_Zopp sx _). set (cy := cond_Zopp sy _).
    destruct (decide (cx - cy = 0)) as [E|E].
    + right. replace (cy - cx) with 0 by lia. by rewrite E.
    + left. replace (cy - cx) with (- (cx - cy)) by lia.
      by apply binary_normalize_opp.
Qed.

Lemma mul_opp_opp x : mul (SFopp x) (SFopp x) = mul x x.
Proof.
  unfold mul, SFmul. destruct x as [s|s| |s m e]; try done;
    by destruct s.
Qed.

Lemma sq_sub_sym x y : mul (sub x y) (sub x y) = mul (sub y x) (sub y x).
Proof.
  destruct (sub_swap x y) as [-> | [-> ->]]; [|done].
  by rewrite mul_opp_opp.
Qed.

Lemma sq_distance_sym_f64 p q : sq_distance p q = sq_distance q p.
Proof.
  unfold sq_distance. cbn [foldl seq]. cbv zeta.
  by rewrite (sq_sub_sym (coord p 0%nat) (coord q 0%nat)),
    (sq_sub_sym (coord p 1%nat) (coord q 1%nat)),
    (sq_sub_sym (coord p 2%nat) (coord q 2%nat)).
Qed.

Lemma bond_test_sym_f64 pos radii i j :
  bond_test pos radii i j = bond_test pos radii j i.
Proof.
  unfold bond_test, sq_radii.
  by rewrite (sq_distance_sym_f64 (pos !!! i)),
    (add_comm (radii !!! i)).
Qed.


End binary64_facts.

(** ** The array and the merge in double precision *)

Lemma bond_array_square_f64 pos radii sba :
  square (length pos) (binary64._jit_give_bond_array pos radii sba).
Proof.
  unfold binary64._jit_give_bond_array.
  pose proof (outer_loop_spec (binary64.bond_test pos radii) _ (length pos) _
                (square_replicate (length pos)) (le_n _)) as [HR _].
  destruct sba; [done|].
  by apply (diagonal_loop_spec (length pos) (length pos)).
Qed.

Lemma bond_array_entry_f64 pos radii sba a b :
  (a < length pos)%nat → (b < length pos)%nat →
  mget (binary64._jit_give_bond_array pos radii sba) a b
  = if decide (a = b ∧ sba = false) then false
    else binary64.bond_test pos radii a b.
Proof.
  intros Ha Hb. unfold binary64._jit_give_bond_array.
  pose proof (outer_loop_spec (binary64.bond_test pos radii) _ (length pos) _
                (square_replicate (length pos)) (le_n _)) as [HR Hout].
  simpl in Hout.
  assert (binary64.bond_test pos radii (a `min` b) (a `max` b)
          = binary64.bond_test pos radii a b) as Hmm.
  { destruct (decide (a ≤ b)%nat).
    - by rewrite Nat.min_l, Nat.max_r by lia.
    - rewrite Nat.min_r, Nat.max_l by lia. apply bond_test_sym_f64. }
  destruct sba.
  - rewrite Hout, Hmm by done.
    repeat case_decide; try done; naive_solver lia.
  - pose proof (diagonal_loop_spec (length pos) (length pos) _ HR (le_n _))
      as [_ Hd].
    simpl in Hd. rewrite Hd, Hout, Hmm by done.
    repeat case_decide; try done; naive_solver lia.
Qed.


(** ** The boundary of the bond test *)






(** ** The traversal step *)

Lemma dict_get_bonds bd j : j ∈ dom bd → dict_get bd j = Ok (bonds bd j).
Proof.
  intros [w Hw]%elem_of_dom. unfold dict_get, bonds. by rewrite Hw.
Qed.

Lemma assign_partners bd (V : gset Z) (l : list Z) (new : bond_dict_t) :
  (∀ j, j ∈ l → j ∈ dom bd) →
  for_each l (λ new j, pj ← dict_get bd j ;;; Ok (<[j := pj ∖ V]> new)) new
  = Ok (foldl (λ new j, <[j := bonds bd j ∖ V]> new) new l).
Proof.
  revert new. induction l as [|j l IH]; intros new Hl; simpl; [done|].
  rewrite dict_get_bonds by (apply Hl; left). simpl.
  apply IH. intros; apply Hl; by right.
Qed.

Lemma lookup_assigned bd (V : gset Z) (l : list Z) (new : bond_dict_t) j :
  foldl (λ new j, <[j := bonds bd j ∖ V]> new) new l !! j
  = if decide (j ∈ l) then Some (bonds bd j ∖ V) else new !! j.
Proof.
  revert new. induction l as [|k l IH]; intros new; cbn [foldl].
  - by rewrite decide_False by apply not_elem_of_nil.
  - rewrite IH. destruct (decide (j ∈ l)) as [Hj|Hj].
    + by rewrite decide_True by by right.
    + destruct (decide (k = j)) as [->|Hne].
      * rewrite lookup_insert_eq. by rewrite decide_True by left.
      * rewrite lookup_insert_ne by done.
        by rewrite decide_False by (intros [?|?]%elem_of_cons; done).
Qed.

Lemma first_sphere_spec O bd i V :
  closed_bond_dict bd →
  ∃ tmp, first_sphere O bd i V = Ok tmp ∧
    (∀ j, j ∈ dom tmp ↔ j ∈ bonds bd i) ∧
    (∀ j w, tmp !! j = Some w → w = bonds bd j ∖ V).
Proof.
  intros Hclosed. unfold first_sphere, dict_get at 1.
  destruct (bd !! i) as [partners|] eqn:Hi; simpl.
  - assert (bonds bd i = partners) as Hb by (unfold bonds; by rewrite Hi).
    rewrite assign_partners.
    2:{ intros j Hj%elem_of_iter_set. apply (Hclosed i). by rewrite Hb. }
    eexists. split; [done|]. split.
    + intros j. rewrite elem_of_dom, lookup_assigned, Hb.
      case_decide as Hj; rewrite elem_of_iter_set in Hj.
      * split; [done|by eexists].
      * rewrite lookup_empty. split; [by intros [? [=]]|done].
    + intros j w. rewrite lookup_assigned. case_decide; [|done].
      by intros [= <-].
  - exists ∅. split; [done|]. split.
    + intros j. unfold bonds. rewrite Hi, dom_empty_L. simpl. done.
    + intros j w. by rewrite lookup_empty.
Qed.

Section step.
Context (O : PyOrder) (bd tmp : bond_dict_t) (visited0 : gset Z).

Hypothesis Htmp : ∀ u w j, tmp !! u = Some w → j ∈ w → j ∈ dom bd.

Let body (state : gset Z * bond_dict_t) (i : Z)
  : result (gset Z * bond_dict_t) :=
  let visited := state.1 in
  let new_tmp_bond_dict := state.2 in
  if decide (i ∈ visited) then Ok (visited, new_tmp_bond_dict)
  else
    let visited := {[i]} ∪ visited in
    new_tmp_bond_dict ←
      for_each (iter_set O (default ∅ (tmp !! i)))
        (λ new j,
           pj ← dict_get bd j ;;; Ok (<[j := pj ∖ visited]> new))
        new_tmp_bond_dict ;;;
    Ok (visited, new_tmp_bond_dict).

Lemma sphere_step_keys (ks : list Z) (vis : gset Z) (new : bond_dict_t) :
  NoDup ks →
  (∀ u, u ∈ ks → u ∈ vis → u ∈ visited0) →
  visited0 ⊆ vis →
  ∃ new',
    for_each ks body (vis, new) = Ok (vis ∪ list_to_set ks, new') ∧
    (∀ j, j ∈ dom new' ↔
       j ∈ dom new ∨
       ∃ u, u ∈ ks ∧ u ∉ visited0 ∧ j ∈ default ∅ (tmp !! u)) ∧
    (∀ j w, new' !! j = Some w →
       new !! j = Some w ∨
       (w ⊆ bonds bd j ∧ bonds bd j ∖ w ⊆ vis ∪ list_to_set ks)).
Proof.
  revert vis new. induction ks as [|u ks IH]; intros vis new Hnd Hks Hsub.
  - simpl. exists new. split; [f_equal; f_equal; set_solver|].
    split; [|by left]. intros j. split; [by left|].
    by intros [?|(? & ?%elem_of_nil & _)].
  - apply NoDup_cons in Hnd as [Hu Hnd].
    cbn [for_each]. unfold body at 1. cbn [fst snd].
    destruct (decide (u ∈ vis)) as [Hin|Hnotin]; cbn [rbind].
    + destruct (IH vis new Hnd) as (new' & -> & Hdom & Hval);
        [intros; apply Hks; [by right|done]|done|].
      exists new'. split; [f_equal; f_equal; set_solver|]. split.
      * intros j. rewrite Hdom. split.
        -- intros [?|(u' & ? & ?)]; [by left|right].
           exists u'. split; [by right|done].
        -- intros [?|(u' & [->|?]%elem_of_cons & Hn & ?)];
             [by left| |right; eauto].
           exfalso. apply Hn, Hks; [left|done].
      * intros j w [?|[? ?]]%Hval; [by left|right].
        split; [done|set_solver].
    + rewrite assign_partners.
      2:{ intros j Hj%elem_of_iter_set.
          destruct (tmp !! u) as [w|] eqn:Hw; simpl in Hj; [|set_solver].
          by eapply Htmp. }
      cbn [rbind].
      set (new1 := foldl _ new _).
      destruct (IH ({[u]} ∪ vis) new1 Hnd) as (new' & -> & Hdom & Hval).
      { intros u' Hu' [->%elem_of_singleton|?]%elem_of_union; [done|].
        apply Hks; [by right|done]. }
      { set_solver. }
      assert (∀ j, new1 !! j =
        if decide (j ∈ default ∅ (tmp !! u))
        then Some (bonds bd j ∖ ({[u]} ∪ vis)) else new !! j) as Hnew1.
      { intros j. unfold new1. rewrite lookup_assigned.
        repeat case_decide; try done; rewrite elem_of_iter_set in *; done. }
      assert (∀ j, j ∈ dom new1 ↔
        j ∈ default ∅ (tmp !! u) ∨ j ∈ dom new) as Hdom1.
      { intros j. rewrite !elem_of_dom, Hnew1.
        case_decide; [|naive_solver]. split; [by left|by eexists]. }
      exists new'. split; [f_equal; f_equal; set_solver|]. split.
      * intros j. rewrite Hdom, Hdom1. split.
        -- intros [[Hj|Hj]|(u' & ? & ?)].
           ++ right. exists u. split; [left|]. split; [|done].
              intros ?. apply Hnotin. by apply Hsub.
           ++ by left.
           ++ right. exists u'. split; [by right|done].
        -- intros [Hj|(u' & [->|?]%elem_of_cons & Hn & Hj)].
           ++ left. by right.
           ++ left. by left.
           ++ right. eauto.
      * intros j w [Hj|[? ?]]%Hval.
        -- rewrite Hnew1 in Hj. case_decide; [|by left].
           injection Hj as <-. right. clear. split.
           ++ apply subseteq_difference_l. done.
           ++ intros x [Hx Hn]%elem_of_difference.
              destruct (decide (x ∈ {[u]} ∪ vis)) as [e|Hx'].
              ** clear -e. set_solver.
              ** exfalso. apply Hn. by apply elem_of_difference.
        -- right. split; [done|].
           clear -H0. set_solver.
Qed.

Lemma sphere_step_spec :
  visited0 ⊆ visited0 →
  ∃ new,
    sphere_step O bd tmp visited0 = Ok (visited0 ∪ dom tmp, new) ∧
    (∀ j, j ∈ dom new ↔
       ∃ u, u ∈ dom tmp ∧ u ∉ visited0 ∧ j ∈ default ∅ (tmp !! u)) ∧
    (∀ j w, new !! j = Some w →
       w ⊆ bonds bd j ∧ bonds bd j ∖ w ⊆ visited0 ∪ dom tmp).
Proof.
  intros _.
  destruct (sphere_step_keys (iter_dict O tmp) visited0 ∅)
    as (new & Hstep & Hdom & Hval);
    [apply NoDup_iter_dict|done|done|].
  assert (list_to_set (iter_dict O tmp) = dom tmp) as Hkeys.
  { apply set_eq. intros k.
    by rewrite elem_of_list_to_set, elem_of_iter_dict. }
  rewrite Hkeys in Hstep, Hval.
  exists new. split; [exact Hstep|]. split.
  - intros j. rewrite Hdom, dom_empty_L. split.
    + intros [?%not_elem_of_empty|(u & ?%elem_of_iter_dict & ?)];
        [done|eauto].
    + intros (u & ? & ?). right. exists u.
      split; [by apply elem_of_iter_dict|done].
  - intros j w [Hj|?]%Hval; [by rewrite lookup_empty in Hj|done].
Qed.
End step.

(** ** The loop of [connected_to] *)

Lemma sphere_loop_empty O bd within_bound fuel visited n :
  sphere_loop O bd within_bound fuel visited ∅ n = Ok (visited, ∅).
Proof. destruct fuel; simpl; by rewrite decide_True. Qed.

Section reach.
Context (O : PyOrder) (bd : bond_dict_t) (i : Z) (exclude : gset Z).
Hypothesis Hclosed : closed_bond_dict bd.

Lemma traversal_inv_first tmp :
  (∀ j, j ∈ dom tmp ↔ j ∈ bonds bd i) →
  (∀ j w, tmp !! j = Some w → w = bonds bd j ∖ ({[i]} ∪ exclude)) →
  traversal_inv bd i exclude ({[i]} ∪ exclude) tmp.
Proof.
  intros Hdom Hval. repeat split.
  - done.
  - intros v [->%elem_of_singleton|?]%elem_of_union; [by right|by left].
  - intros k Hk%Hdom. by exists i.
  - apply Hval in H as ->. apply subseteq_difference_l. done.
  - apply Hval in H as ->. intros x [Hx Hn]%elem_of_difference.
    destruct (decide (x ∈ {[i]} ∪ exclude)) as [|Hx']; [done|].
    exfalso. apply Hn. by apply elem_of_difference.
  - intros u Hu Hor w Hw. right. apply Hdom.
    assert (u = i) as -> by set_solver. done.
  - intros k Hk%Hdom. by apply (Hclosed i).
Qed.

Lemma traversal_inv_step visited tmp :
  traversal_inv bd i exclude visited tmp →
  ∃ new,
    sphere_step O bd tmp visited = Ok (visited ∪ dom tmp, new) ∧
    traversal_inv bd i exclude (visited ∪ dom tmp) new ∧
    (dom tmp ⊆ visited → new = ∅).
Proof.
  intros (I1 & I2 & I3 & I4 & I5 & I6).
  destruct (sphere_step_spec O bd tmp visited) as (new & Hstep & Hdom & Hval).
  { intros u w j Hu Hj. apply (Hclosed u). by apply (I4 u w). }
  { done. }
  exists new. split; [done|].
  assert (∀ k, k ∈ dom tmp → k ∉ exclude → rtc (hop bd exclude) i k) as Hkey.
  { intros k (u & Hu & Hk)%I3 Hne. eapply rtc_r; [done|]. by split. }
  split; [repeat split|].
  - set_solver.
  - intros v [?|Hv]%elem_of_union; [by apply I2|].
    destruct (decide (v ∈ exclude)); [by left|right]. by apply Hkey.
  - intros k (u & Hu & Hnv & Hk)%Hdom.
    destruct (tmp !! u) as [w|] eqn:Hw; simpl in Hk; [|set_solver].
    exists u. split.
    + apply Hkey; [done|]. intros ?. apply Hnv. set_solver.
    + by apply (I4 u w).
  - by apply (Hval k w).
  - by apply (Hval k w).
  - intros u Hu Hor w Hw.
    destruct (decide (u ∈ visited)) as [Huv|Huv].
    + left. destruct (I5 u Huv Hor w Hw); set_solver.
    + assert (u ∈ dom tmp) as Hut by set_solver.
      apply elem_of_dom in Hut as Hut'. destruct Hut' as [wu Hwu].
      destruct (decide (w ∈ wu)) as [Hin|Hnotin].
      * right. apply Hdom. exists u. rewrite Hwu. done.
      * left. apply elem_of_union_l. apply (I4 u wu Hwu).
        by apply elem_of_difference.
  - intros k (u & Hu & _ & Hk)%Hdom.
    destruct (tmp !! u) as [w|] eqn:Hw; simpl in Hk; [|set_solver].
    apply (Hclosed u). by apply (I4 u w).
  - intros Hsub. apply dom_empty_iff_L. apply set_eq. intros j.
    rewrite Hdom. split; [|set_solver].
    intros (u & Hu & Hnv & _). exfalso. by apply Hnv, Hsub.
Qed.

(** The loop never reaches its modelled bound and ends with the
    invariant; it ends with nothing pending unless the bound on [n]
    stopped it. *)
Lemma sphere_loop_spec within_bound fuel visited tmp n :
  traversal_inv bd i exclude visited tmp →
  (size (dom bd ∖ visited) < fuel)%nat →
  ∃ visited' tmp',
    sphere_loop O bd within_bound fuel visited tmp n = Ok (visited', tmp') ∧
    traversal_inv bd i exclude visited' tmp' ∧
    (tmp' = ∅ ∨ ∃ m, within_bound m = false).
Proof.
  revert visited tmp n. induction fuel as [|fuel IH];
    intros visited tmp n Hinv Hfuel; [lia|].
  simpl. destruct (decide (tmp = ∅)) as [->|Hne]; [by eauto 6|].
  destruct (within_bound n) eqn:Hb; [|by eauto 8].
  destruct (traversal_inv_step visited tmp Hinv) as (new & -> & Hinv' & Hnew).
  simpl.
  destruct (decide (dom tmp ⊆ visited)) as [Hsub|Hsub].
  - rewrite (Hnew Hsub), sphere_loop_empty. rewrite (Hnew Hsub) in Hinv'.
    eauto 6.
  - apply IH; [done|].
    assert (dom bd ∖ (visited ∪ dom tmp) ⊂ dom bd ∖ visited) as Hlt.
    { destruct Hinv as (_ & _ & _ & _ & _ & I6).
      destruct (set_choose_L (dom tmp ∖ visited)) as (k & Hk).
      { intros E. apply Hsub. intros x Hx.
        destruct (decide (x ∈ visited)) as [|Hxv]; [done|].
        assert (x ∈ dom tmp ∖ visited) as Hx' by by apply elem_of_difference.
        rewrite E in Hx'. by apply not_elem_of_empty in Hx'. }
      apply elem_of_difference in Hk as [Hk Hkv].
      split; [clear; set_solver|]. intros Hc.
      assert (k ∈ dom bd ∖ visited) as Hk'
        by (apply elem_of_difference; split; [by apply I6|done]).
      apply Hc in Hk'. clear -Hk' Hk. set_solver. }
    apply subset_size in Hlt. lia.
Qed.

(** [connected_to] on a closed relation, without bound on the depth:
    the atoms that a path of hops from [i] reaches. *)
Lemma connected_indices_spec :
  i ∉ exclude →
  ∃ found,
    connected_indices O bd i None exclude = Ok found ∧
    ∀ v, v ∈ found ↔ rtc (hop bd exclude) i v.
Proof.
  intros Hi. unfold connected_indices.
  destruct (first_sphere_spec O bd i ({[i]} ∪ exclude) Hclosed)
    as (tmp & -> & Hdom & Hval).
  cbn [rbind].
  destruct (sphere_loop_spec
              (λ n, match (None : option Z) with
                    | None => true
                    | Some k => bool_decide (Z.of_nat n < k)
                    end)
              (S (size bd)) ({[i]} ∪ exclude)
              tmp 0) as (visited & tmp' & -> & Hinv & Hend).
  { by apply traversal_inv_first. }
  { rewrite <- size_dom. apply Nat.lt_succ_r, subseteq_size. set_solver. }
  cbn [rbind fst]. eexists. split; [done|].
  destruct Hend as [->|[? [=]]].
  destruct Hinv as (I1 & I2 & _ & _ & I5 & _).
  intros v. rewrite elem_of_difference. split.
  - intros [[?|?]%I2 ?]; done.
  - intros Hv.
    assert (v ∈ visited ∧ (v ∉ exclude ∨ v = i)) as [? [? | ->]]; [|done..].
    revert v Hv.
    apply (rtc_ind_r (λ v, v ∈ visited ∧ (v ∉ exclude ∨ v = i))).
    + split; [set_solver|by right].
    + intros u v Hu [Hv Hve] [Huv Hor]. split; [|by left].
      destruct (I5 u Huv Hor v Hv) as [?|?]; set_solver.
Qed.
End reach.

(** ** The cache and repeated calls *)

(** The computed relation depends on the rows only; the metadata are
    carried along. *)
Lemma complete_calculation_frame O f m p m2 p2 aps sba offset mp data :
  complete_calculation O (mkCartesian f m2 p2) aps sba offset mp data
  = (mkCartesian
       (_frame (complete_calculation O (mkCartesian f m p) aps sba offset
                                     mp data).1) m2 p2,
     (complete_calculation O (mkCartesian f m p) aps sba offset mp data).2).
Proof.
  unfold complete_calculation, set_index, len, index_of. cbn [_frame].
  destruct (decide (length (range (length f)) = length f)); [|done].
  cbn [metadata _metadata].
  set (F := zip_with
              (λ r k, Row k (col_atom r) (col_x r) (col_y r) (col_z r))
              f (range (length f))).
  change (_divide_et_impera (mkCartesian F m2 p2) aps offset)
    with (_divide_et_impera (mkCartesian F m p) aps offset).
  change (positions_of (mkCartesian F m2 p2))
    with (positions_of (mkCartesian F m p)).
  change (bond_radii_of (mkCartesian F m2 p2) data mp)
    with (bond_radii_of (mkCartesian F m p) data mp).
  cbn [_frame metadata _metadata].
  match goal with
  | |- context [rbind (_divide_et_impera ?c aps offset) ?k] =>
    destruct (rbind (_divide_et_impera c aps offset) k) as [bd|err]
  end; [|done].
  destruct (decide (length (label <$> f) = length F)); done.
Qed.

Lemma get_bonds_default_stable O st c use_lookup c1 bd :
  get_bonds_default O st c use_lookup = (c1, Ok bd) →
  _frame c1 = _frame c ∧
  _metadata c1 !! "bond_dict" = Some bd ∧
  get_bonds_default O st c1 true = (c1, Ok bd) ∧
  get_bonds_default O st c1 use_lookup = (c1, Ok bd).
Proof.
  unfold get_bonds_default. intros Hget.
  apply get_bonds_cases in Hget as [-> Hor]. cbn [_frame _metadata].
  split; [done|]. split; [by rewrite lookup_insert_eq|].
  assert (get_bonds O
            (mkCartesian (_frame c) (metadata c)
                         (<["bond_dict" := bd]> (_metadata c)))
            false 3 None true true (default_atomic_radius_data st)
          = (mkCartesian (_frame c) (metadata c)
                         (<["bond_dict" := bd]> (_metadata c)), Ok bd))
    as Hcached.
  { unfold get_bonds. cbn [_metadata _frame metadata].
    rewrite lookup_insert_eq. cbn [_metadata _frame metadata].
    by rewrite insert_insert_eq. }
  split; [done|].
  destruct Hor as [[-> _]|[Hc Hcc]]; [done|].
  destruct use_lookup; [done|].
  unfold get_bonds.
  rewrite (complete_calculation_frame O (_frame c) (metadata c) (_metadata c)).
  destruct c as [f m p]. cbn [_frame metadata _metadata] in *.
  rewrite Hcc. cbn [fst snd _frame metadata _metadata].
  by rewrite insert_insert_eq.
Qed.

(** A freshly computed relation is a bond graph of the identifiers. *)
Lemma get_bonds_default_bond_graph O st c c1 bd :
  NoDup (index_of c) →
  get_bonds_default O st c false = (c1, Ok bd) →
  bond_graph_of (index_of c) bd.
Proof.
  intros Hnd Hget. unfold get_bonds_default in Hget.
  apply get_bonds_cases in Hget as [_ [[[=] _]|[Hc Hcc]]].
  destruct (complete_calculation_spec O c 500 false 3 None
              (default_atomic_radius_data st))
    as (fr & bd' & _ & Hcc' & Hdom & Hbonds); [by apply len_pos|lia|].
  rewrite Hcc in Hcc'. injection Hcc' as <-.
  specialize (Hbonds Hnd). split; [done|]. split.
  - intros i j (p & q & _ & Hq & _)%Hbonds. apply Hdom.
    by eapply list_elem_of_lookup_2.
  - intros i j (p & q & ? & ? & ?%linked_sym)%Hbonds. apply Hbonds.
    by exists q, p.
Qed.

(** ** [connected_to] as a method *)

Lemma connected_to_spec O st c use_lookup c1 bd i exclude :
  get_bonds_default O st c use_lookup = (c1, Ok bd) →
  closed_bond_dict bd →
  i ∉ default ∅ exclude →
  ∃ found,
    connected_to O st c1 i None true exclude use_lookup
    = (c1, Ok (Indices found)) ∧
    connected_to O st c1 i None true exclude true
    = (c1, Ok (Indices found)) ∧
    ∀ v, v ∈ found ↔ rtc (hop bd (default ∅ exclude)) i v.
Proof.
  intros Hget Hclosed Hi.
  destruct (get_bonds_default_stable _ _ _ _ _ _ Hget)
    as (_ & _ & Htrue & Hsame).
  destruct (connected_indices_spec O bd i (default ∅ exclude) Hclosed Hi)
    as (found & Hfound & Hreach).
  exists found. unfold connected_to. rewrite Htrue, Hsame.
  cbn [rbind]. rewrite Hfound. cbn [rbind select]. done.
Qed.

(** ** Connectivity *)

Lemma connected_sym bd a b :
  symmetric_bond_dict bd → connected bd a b → connected bd b a.
Proof.
  unfold connected. intros Hsym Hab.
  induction Hab as [|a c b [Hac _] _ IH]; [reflexivity|].
  eapply rtc_r; [exact IH|]. split; [by apply Hsym|set_solver].
Qed.

Lemma connected_in_dom bd a b :
  closed_bond_dict bd → a ∈ dom bd → connected bd a b → b ∈ dom bd.
Proof.
  unfold connected. intros Hclosed Ha Hab.
  induction Hab as [|a c b [Hac _] _ IH]; [done|].
  apply IH. by apply (Hclosed a).
Qed.

Lemma connected_refl bd a : connected bd a a.
Proof. unfold connected. reflexivity. Qed.

Lemma connected_trans bd a b c :
  connected bd a b → connected bd b c → connected bd a c.
Proof. unfold connected. intros. by etrans. Qed.

(** ** [fragmentate] *)

Lemma pairwise_disjoint_snoc acc (f : gset Z) :
  pairwise_disjoint acc → (∀ g, g ∈ acc → g ## f) →
  pairwise_disjoint (acc ++ [f]).
Proof.
  intros Hpd Hf p q g1 g2 Hne H1 H2.
  apply lookup_app_Some in H1 as [H1|[Hp H1]];
    apply lookup_app_Some in H2 as [H2|[Hq H2]].
  - by eapply Hpd.
  - apply list_lookup_singleton_Some in H2 as [_ <-].
    apply Hf. by eapply list_elem_of_lookup_2.
  - apply list_lookup_singleton_Some in H1 as [_ <-].
    symmetry. apply Hf. by eapply list_elem_of_lookup_2.
  - apply list_lookup_singleton_Some in H1 as [? _].
    apply list_lookup_singleton_Some in H2 as [? _]. lia.
Qed.

Lemma fragmentate_loop_spec O st c1 bd ids fuel pending acc :
  get_bonds_default O st c1 true = (c1, Ok bd) →
  bond_graph_of ids bd →
  (size pending ≤ fuel)%nat →
  fragment_inv bd ids pending acc →
  ∃ frags,
    fragmentate_loop O st true fuel c1 pending (Indices <$> acc)
    = (c1, Ok (Indices <$> frags)) ∧
    fragment_inv bd ids ∅ frags.
Proof.
  intros Hget (Hdom & Hclosed & Hsym).
  revert pending acc. induction fuel as [|fuel IH];
    intros pending acc Hfuel Hinv.
  - assert (pending = ∅) as ->
      by (apply leibniz_equiv, size_empty_iff; lia).
    exists acc. simpl. by rewrite decide_True.
  - simpl. destruct (decide (pending = ∅)) as [->|Hne]; [by exists acc|].
    pose proof (pick_elem_of O pending Hne) as Hpick.
    set (i := pick O pending) in *.
    destruct (connected_to_spec O st c1 true c1 bd i None Hget Hclosed)
      as (found & _ & -> & Hfound); [set_solver|].
    cbn [as_indices rbind].
    destruct Hinv as (Hcover & Hdisj & Hpd & Hcomp & Hstay).
    assert (∀ v, v ∈ found ↔ connected bd i v) as Hf by exact Hfound.
    assert (found ⊆ pending) as Hsub.
    { intros v Hv%Hf. by apply (Hstay i). }
    assert (i ∈ found) as Hi by (apply Hf, connected_refl).
    replace ((Indices <$> acc) ++ [Indices found])
      with (Indices <$> (acc ++ [found])) by by rewrite fmap_app.
    apply IH.
    + assert (pending ∖ found ⊂ pending) as Hlt.
      { split; [set_solver|]. intros Hc. specialize (Hc i Hpick).
        set_solver. }
      apply subset_size in Hlt. lia.
    + repeat split.
      * intros Ha%Hcover. destruct Ha as [Ha|(f & ? & ?)].
        -- destruct (decide (a ∈ found)).
           ++ right. exists found. split; [|done].
              apply elem_of_app. right. by left.
           ++ left. set_solver.
        -- right. exists f. split; [|done]. apply elem_of_app. by left.
      * intros [Ha|(f & [Hfa|Hfa%list_elem_of_singleton]%elem_of_app & Ha)];
          apply Hcover.
        -- left. set_solver.
        -- right. eauto.
        -- left. subst f. by apply Hsub.
      * intros f [Hfa| ->%list_elem_of_singleton]%elem_of_app.
        -- specialize (Hdisj f Hfa). set_solver.
        -- set_solver.
      * apply pairwise_disjoint_snoc; [done|].
        intros g Hg. specialize (Hdisj g Hg). set_solver.
      * intros f [Hfa| ->%list_elem_of_singleton]%elem_of_app;
          [by apply Hcomp|]. by exists i.
      * intros a b [Ha Hna]%elem_of_difference Hab.
        apply elem_of_difference. split; [by apply (Hstay a)|].
        intros Hb%Hf. apply Hna, Hf.
        eapply connected_trans; [exact Hb|]. by apply connected_sym.
Qed.

(** C6. With a bond graph of the molecule in use, [fragmentate] returns
    index sets that are pairwise disjoint and cover the index; two atoms of
    a fragment are connected by a path of bonds, and a bond never leaves a
    fragment. *)
Theorem fragmentate_partition O st c use_lookup c1 bd :
  get_bonds_default O st c use_lookup = (c1, Ok bd) →
  bond_graph_of (index_of c) bd →
  ∃ frags,
    fragmentate O st c true use_lookup = (c1, Ok (Indices <$> frags)) ∧
    pairwise_disjoint frags ∧
    (∀ a, a ∈ index_of c ↔ ∃ f, f ∈ frags ∧ a ∈ f) ∧
    (∀ f a b, f ∈ frags → a ∈ f → b ∈ f → connected bd a b) ∧
    (∀ f a b, f ∈ frags → a ∈ f → b ∈ bonds bd a → b ∈ f).
Proof.
  intros Hget Hgraph.
  destruct (get_bonds_default_stable _ _ _ _ _ _ Hget) as (_ & _ & Htrue & _).
  pose proof Hgraph as (Hdom & Hclosed & Hsym).
  unfold fragmentate. rewrite Hget.
  destruct (fragmentate_loop_spec O st c1 bd (index_of c)
              (size (list_to_set (index_of c) : gset Z))
              (list_to_set (index_of c)) [] Htrue Hgraph)
    as (frags & Hloop & Hcover & _ & Hpd & Hcomp & _); [done| |].
  { repeat split.
    - intros ?. left. by apply elem_of_list_to_set.
    - intros [?%elem_of_list_to_set|(? & ?%elem_of_nil & _)]; done.
    - intros f ?%elem_of_nil. done.
    - intros p q f g _ Hp. by rewrite lookup_nil in Hp.
    - intros f ?%elem_of_nil. done.
    - intros a b Ha%elem_of_list_to_set%Hdom Hab.
      apply elem_of_list_to_set, Hdom. by eapply connected_in_dom. }
  exists frags. split; [exact Hloop|]. split; [done|]. split; [|split].
  - intros a. rewrite Hcover. split; [|by right].
    intros [?%not_elem_of_empty|?]; done.
  - intros f a b (v & Hv)%Hcomp Ha%Hv Hb%Hv.
    eapply connected_trans; [by apply connected_sym|done].
  - intros f a b (v & Hv)%Hcomp Ha%Hv Hb. apply Hv.
    eapply rtc_r; [exact Ha|]. split; [done|set_solver].
Qed.

Lemma fragmentate_partition_witness :
  ∃ c1 bd frags,
    get_bonds_default canonical_order example_settings three_atoms false
    = (c1, Ok bd) ∧
    bond_graph_of (index_of three_atoms) bd ∧
    fragmentate canonical_order example_settings three_atoms true false
    = (c1, Ok (Indices <$> frags)) ∧
    pairwise_disjoint frags ∧
    (∀ a, a ∈ index_of three_atoms ↔ ∃ f, f ∈ frags ∧ a ∈ f) ∧
    (∀ f a b, f ∈ frags → a ∈ f → b ∈ f → connected bd a b) ∧
    (∀ f a b, f ∈ frags → a ∈ f → b ∈ bonds bd a → b ∈ f).
Proof.
  destruct (get_bonds_fresh canonical_order three_atoms false 3 None true
              (uniform_radius 0.8)) as (fr & bd & _ & _ & Hget);
    [discriminate|].
  pose proof (get_bonds_default_bond_graph canonical_order example_settings
                three_atoms _ bd three_atoms_NoDup Hget) as Hgraph.
  destruct (fragmentate_partition canonical_order example_settings
              three_atoms false _ bd Hget Hgraph) as (frags & Hfrag).
  eexists _, bd, frags. split; [exact Hget|]. split; [exact Hgraph|].
  exact Hfrag.
Defined.

(** ** Selecting rows by label *)

Lemma loc_labels_spec c labels :
  (∀ k, k ∈ labels → k ∈ index_of c) →
  ∃ out, loc_labels c labels = Ok out ∧
    metadata out = metadata c ∧ _metadata out = _metadata c ∧
    (∀ r, r ∈ _frame out ↔ r ∈ _frame c ∧ label r ∈ labels).
Proof.
  intros Hl. unfold loc_labels.
  set (rows := λ k, filter (λ r, label r = k) (_frame c)).
  rewrite (map_result_Ok _ rows).
  2:{ intros k Hk%Hl. fold (rows k).
      destruct (rows k) as [|r rs] eqn:E; [|done]. exfalso.
      apply list_elem_of_fmap in Hk as (r & -> & Hr).
      assert (r ∈ rows (label r)) as Hin
        by (apply list_elem_of_filter; done).
      rewrite E in Hin. by apply elem_of_nil in Hin. }
  simpl. eexists. split; [done|]. split; [done|]. split; [done|].
  simpl. intros r. rewrite elem_of_concat. split.
  - intros (l & Hr & (k & -> & Hk)%list_elem_of_fmap).
    apply list_elem_of_filter in Hr as [<- ?]. done.
  - intros [Hr Hk]. exists (rows (label r)). split.
    + by apply list_elem_of_filter.
    + apply list_elem_of_fmap. eauto.
Qed.

Lemma loc_labels_index O c (s : gset Z) :
  s ⊆ list_to_set (index_of c) →
  ∃ out, loc_labels c (iter_set O s) = Ok out ∧
         list_to_set (index_of out) = s.
Proof.
  intros Hs.
  destruct (loc_labels_spec c (iter_set O s)) as (out & Hout & _ & _ & Hrows).
  { intros k Hk%elem_of_iter_set%Hs. by apply elem_of_list_to_set in Hk. }
  exists out. split; [done|]. apply set_eq. intros k.
  rewrite elem_of_list_to_set. unfold index_of at 1.
  rewrite list_elem_of_fmap. split.
  - intros (r & -> & [_ Hr%elem_of_iter_set]%Hrows). done.
  - intros Hk. pose proof (Hs k Hk) as Hkc.
    apply elem_of_list_to_set, list_elem_of_fmap in Hkc as (r & -> & Hr).
    exists r. split; [done|]. apply Hrows. split; [done|].
    by apply elem_of_iter_set.
Qed.

(** ** [_preserve_bonds] *)

Lemma union_of_partners bd (l : list Z) (acc : gset Z) :
  (∀ a, a ∈ l → a ∈ dom bd) →
  ∃ U,
    for_each l (λ new_atoms atom,
                  p ← dict_get bd atom ;;; Ok (new_atoms ∪ p)) acc = Ok U ∧
    ∀ b, b ∈ U ↔ b ∈ acc ∨ ∃ a, a ∈ l ∧ b ∈ bonds bd a.
Proof.
  revert acc. induction l as [|a l IH]; intros acc Hl; simpl.
  - exists acc. split; [done|]. intros b. split; [by left|].
    by intros [?|(? & ?%elem_of_nil & _)].
  - rewrite dict_get_bonds by (apply Hl; left). simpl.
    destruct (IH (acc ∪ bonds bd a)) as (U & -> & HU).
    { intros; apply Hl; by right. }
    exists U. split; [done|]. intros b. rewrite HU, elem_of_union. split.
    + intros [[?|?]|(a' & ? & ?)]; [by left|right..].
      * exists a. split; [left|done].
      * exists a'. split; [by right|done].
    + intros [?|(a' & [->|?]%elem_of_cons & ?)]; [by do 2 left| |].
      * left. by right.
      * right. eauto.
Qed.

Lemma set_pop_spec O (s : gset Z) :
  s ≠ ∅ → ∃ x, set_pop O s = Ok (x, s ∖ {[x]}) ∧ x ∈ s.
Proof.
  intros Hs. unfold set_pop.
  destruct (iter_set O s) as [|x l] eqn:E.
  - exfalso. apply Hs. apply set_eq. intros y.
    rewrite <- (elem_of_iter_set O), E. set_solver.
  - exists x. split; [done|]. apply (elem_of_iter_set O). rewrite E. left.
Qed.

Lemma preserve_loop_spec O st use_lookup c1 bd ids selection fuel included
    new_atoms :
  get_bonds_default O st c1 use_lookup = (c1, Ok bd) →
  closed_bond_dict bd → (∀ i, i ∈ dom bd ↔ i ∈ ids) →
  (size new_atoms ≤ fuel)%nat →
  preserve_inv bd ids selection included new_atoms →
  ∃ included',
    preserve_loop O st use_lookup fuel c1 included new_atoms
    = (c1, Ok included') ∧
    preserve_inv bd ids selection included' ∅.
Proof.
  intros Hget Hclosed Hdom.
  revert included new_atoms. induction fuel as [|fuel IH];
    intros included new_atoms Hfuel Hinv.
  - assert (new_atoms = ∅) as ->
      by (apply leibniz_equiv, size_empty_iff; lia).
    exists included. simpl. by rewrite decide_True.
  - simpl. destruct (decide (new_atoms = ∅)) as [->|Hne];
      [by exists included|].
    destruct (set_pop_spec O new_atoms Hne) as (x & -> & Hx).
    destruct Hinv as (Hsel & Hids & Hboundary).
    pose proof (proj1 (Hboundary x) Hx) as [Hxi _].
    destruct (connected_to_spec O st c1 use_lookup c1 bd x (Some included)
                Hget Hclosed Hxi) as (found & -> & _ & Hfound).
    cbn [as_indices rbind]. simpl in Hfound.
    apply IH.
    + assert (new_atoms ∖ {[x]} ∖ (included ∪ found) ⊂ new_atoms) as Hlt.
      { split; [set_solver|]. intros Hc. specialize (Hc x Hx). set_solver. }
      apply subset_size in Hlt. lia.
    + assert (x ∈ found) as Hxf by (apply Hfound; reflexivity).
      assert (∀ v, v ∈ found → v ∈ dom bd) as Hfd.
      { intros v Hv%Hfound.
        assert (x ∈ dom bd) as Hxd.
        { destruct (proj1 (Hboundary x) Hx) as (_ & a & _ & Ha).
          by apply (Hclosed a). }
        clear -Hv Hxd Hclosed.
        induction Hv as [|a c b [Hac _] _ IH]; [done|].
        apply IH. by apply (Hclosed a). }
      split; [set_solver|]. split.
      * intros a [?|?%Hfd%Hdom]%elem_of_union; [by apply Hids|done].
      * intros b. split.
        -- intros [[Hb Hbx]%elem_of_difference Hn]%elem_of_difference.
           split; [done|].
           apply Hboundary in Hb as (_ & a & ? & ?). exists a.
           split; [|done]. by apply elem_of_union_l.
        -- intros [Hnb (a & [Ha|Ha]%elem_of_union & Hb)].
           ++ apply elem_of_difference. split; [|done].
              apply elem_of_difference. split.
              ** apply Hboundary. split; [|by eauto].
                 intros ?. apply Hnb. by apply elem_of_union_l.
              ** intros ->%elem_of_singleton. apply Hnb.
                 by apply elem_of_union_r.
           ++ exfalso. apply Hnb. apply elem_of_union_r, Hfound.
              eapply rtc_r; [by apply Hfound|]. split; [done|].
              intros ?. apply Hnb. by apply elem_of_union_l.
Qed.

(** C8. With a bond graph of the molecule in use and a selection of its
    atoms, [_preserve_bonds] returns a molecule that contains the
    selection and is bond-closed: every partner of one of its atoms is one
    of its atoms.  Applied to its own output it returns that output
    again. *)
Theorem preserve_bonds_idempotent O st c sliced_cartesian use_lookup c1 bd :
  get_bonds_default O st c use_lookup = (c1, Ok bd) →
  bond_graph_of (index_of c) bd →
  (list_to_set (index_of sliced_cartesian) : gset Z)
    ⊆ list_to_set (index_of c) →
  ∃ out,
    _preserve_bonds O st c sliced_cartesian use_lookup = (c1, Ok out) ∧
    (∀ a, a ∈ index_of sliced_cartesian → a ∈ index_of out) ∧
    (∀ a b, a ∈ index_of out → b ∈ bonds bd a → b ∈ index_of out) ∧
    _preserve_bonds O st c1 out use_lookup = (c1, Ok out).
Proof.
  intros Hget (Hdom & Hclosed & Hsym) Hsub.
  destruct (get_bonds_default_stable _ _ _ _ _ _ Hget)
    as (Hframe & _ & _ & Hsame).
  assert (index_of c1 = index_of c) as Hidx
    by (unfold index_of; by rewrite Hframe).
  assert (∀ (I : gset Z), I ⊆ list_to_set (index_of c) →
    ∃ U, for_each (iter_set O I)
           (λ new_atoms atom,
              p ← dict_get bd atom ;;; Ok (new_atoms ∪ p)) (∅ : gset Z)
         = Ok U ∧
    (∀ b, b ∈ U → ∃ a, a ∈ I ∧ b ∈ bonds bd a) ∧
    preserve_inv bd (index_of c) I I (U ∖ I)) as Hfirst.
  { intros I HI.
    destruct (union_of_partners bd (iter_set O I) ∅) as (U & HU & Hmem).
    { intros a Ha%elem_of_iter_set%HI. apply Hdom.
      by apply elem_of_list_to_set in Ha. }
    exists U. split; [done|]. split.
    { intros b [?%not_elem_of_empty|(a & Ha%elem_of_iter_set & ?)]%Hmem;
        [done|eauto]. }
    split; [done|]. split.
    - intros a Ha%HI. by apply elem_of_list_to_set in Ha.
    - intros b. split.
      + intros [[?%not_elem_of_empty|(a & Ha%elem_of_iter_set & ?)]%Hmem Hn]
          %elem_of_difference; [done|]. split; [done|eauto].
      + intros [Hn (a & Ha & Hb)]. apply elem_of_difference.
        split; [|done]. apply Hmem. right. exists a.
        split; [by apply elem_of_iter_set|done]. }
  unfold _preserve_bonds at 1. rewrite decide_True by done. rewrite Hget.
  destruct (Hfirst _ Hsub) as (U & -> & _ & Hinv).
  destruct (preserve_loop_spec O st use_lookup c1 bd (index_of c)
              (list_to_set (index_of sliced_cartesian))
              (size (U ∖ list_to_set (index_of sliced_cartesian)))
              (list_to_set (index_of sliced_cartesian))
              (U ∖ list_to_set (index_of sliced_cartesian))
              Hsame Hclosed Hdom (le_n _) Hinv)
    as (I & -> & Hsel & Hids & Hboundary).
  assert (I ⊆ list_to_set (index_of c1)) as HI.
  { rewrite Hidx. intros a Ha%Hids. by apply elem_of_list_to_set. }
  destruct (loc_labels_index O c1 I HI) as (out & Hout & Hoi).
  cbn [rbind]. rewrite Hout. exists out. split; [done|].
  assert (∀ a, a ∈ index_of out ↔ a ∈ I) as Hmem.
  { intros a. by rewrite <- Hoi, elem_of_list_to_set. }
  assert (∀ a b, a ∈ I → b ∈ bonds bd a → b ∈ I) as Hclosed'.
  { intros a b Ha Hb. destruct (decide (b ∈ I)) as [|Hn]; [done|].
    exfalso. apply (not_elem_of_empty (C := gset Z) b).
    apply Hboundary. eauto. }
  split; [|split].
  - intros a Ha. apply Hmem, Hsel. by apply elem_of_list_to_set.
  - intros a b Ha%Hmem Hb. apply Hmem. by apply (Hclosed' a).
  - unfold _preserve_bonds. rewrite Hoi, decide_True by done.
    rewrite Hsame. rewrite Hidx in HI.
    destruct (Hfirst I HI) as (U' & -> & HU' & _).
    assert (U' ∖ I = ∅) as ->.
    { apply set_eq. intros b. split; [|by intros ?%not_elem_of_empty].
      intros [(a & Ha & Hb)%HU' Hn]%elem_of_difference. exfalso.
      apply Hn. by apply (Hclosed' a). }
    rewrite size_empty. simpl. rewrite decide_True by done.
    cbn [rbind]. by rewrite Hout.
Qed.

Lemma preserve_bonds_idempotent_witness :
  ∃ c1 bd out,
    get_bonds_default canonical_order example_settings three_atoms false
    = (c1, Ok bd) ∧
    bond_graph_of (index_of three_atoms) bd ∧
    _preserve_bonds canonical_order example_settings three_atoms
                    first_atom_only false = (c1, Ok out) ∧
    (∀ a, a ∈ index_of first_atom_only → a ∈ index_of out) ∧
    (∀ a b, a ∈ index_of out → b ∈ bonds bd a → b ∈ index_of out) ∧
    _preserve_bonds canonical_order example_settings c1 out false
    = (c1, Ok out).
Proof.
  destruct (get_bonds_fresh canonical_order three_atoms false 3 None true
              (uniform_radius 0.8)) as (fr & bd & _ & _ & Hget);
    [discriminate|].
  pose proof (get_bonds_default_bond_graph canonical_order example_settings
                three_atoms _ bd three_atoms_NoDup Hget) as Hgraph.
  destruct (preserve_bonds_idempotent canonical_order example_settings
              three_atoms first_atom_only false _ bd Hget Hgraph)
    as (out & Hout).
  { unfold index_of, first_atom_only, three_atoms. simpl. set_solver. }
  eexists _, bd, out. split; [exact Hget|]. split; [exact Hgraph|].
  exact Hout.
Defined.

(** ** [give_coordination_sphere] *)

Lemma sphere_loop_unfold O bd within_bound fuel visited tmp n :
  sphere_loop O bd within_bound (S fuel) visited tmp n
  = if decide (tmp = ∅) then Ok (visited, tmp)
    else if within_bound n then
      state ← sphere_step O bd tmp visited ;;;
      sphere_loop O bd within_bound fuel state.1 state.2 (S n)
    else Ok (visited, tmp).
Proof. done. Qed.

(** With [n_sphere] at most 1 the loop does not run: the keys are the
    partners of the atom. *)
Lemma coordination_sphere_keys_le_1 O bd i n_sphere :
  closed_bond_dict bd → n_sphere ≤ 1 →
  coordination_sphere_keys O bd i n_sphere = Ok (bonds bd i).
Proof.
  intros Hclosed Hn. unfold coordination_sphere_keys.
  destruct (first_sphere_spec O bd i {[i]} Hclosed) as (tmp & -> & Hdom & _).
  cbn [rbind].
  assert (sphere_loop O bd (λ n, bool_decide (Z.of_nat n + 1 < n_sphere))
            (Z.to_nat n_sphere) {[i]} tmp 0 = Ok ({[i]}, tmp)) as ->.
  { destruct (Z.to_nat n_sphere); simpl;
      (destruct (decide (tmp = ∅)); [done|]);
      by rewrite bool_decide_eq_false_2 by lia. }
  cbn [rbind snd]. f_equal. apply set_eq. intros j. apply Hdom.
Qed.

(** With [n_sphere = 2] the loop runs once: the keys are the partners of
    the partners of [i], [i] itself left out - whether or not they are
    partners of [i] themselves. *)
Lemma coordination_sphere_keys_2 O bd i :
  closed_bond_dict bd →
  ∃ keys,
    coordination_sphere_keys O bd i 2 = Ok keys ∧
    ∀ j, j ∈ keys ↔
      ∃ u, u ∈ bonds bd i ∧ u ≠ i ∧ j ∈ bonds bd u ∧ j ≠ i.
Proof.
  intros Hclosed. unfold coordination_sphere_keys.
  destruct (first_sphere_spec O bd i {[i]} Hclosed)
    as (tmp & -> & Hdom & Hval).
  cbn [rbind]. change (Z.to_nat 2) with 2%nat.
  rewrite sphere_loop_unfold.
  destruct (decide (tmp = ∅)) as [->|Hne].
  - cbn [rbind snd]. eexists. split; [done|]. intros j.
    rewrite dom_empty_L. split; [by intros ?%not_elem_of_empty|].
    intros (u & Hu%Hdom & _). by rewrite dom_empty_L in Hu.
  - rewrite bool_decide_eq_true_2 by lia.
    destruct (sphere_step_spec O bd tmp {[i]}) as (new & -> & Hnew & _).
    { intros u w j Hu Hj. apply (Hclosed u).
      apply Hval in Hu as ->. set_solver. }
    { done. }
    cbn [rbind fst snd].
    assert (sphere_loop O bd (λ n, bool_decide (Z.of_nat n + 1 < 2)) 1
              ({[i]} ∪ dom tmp) new 1 = Ok ({[i]} ∪ dom tmp, new)) as ->.
    { rewrite sphere_loop_unfold. destruct (decide (new = ∅)); [done|].
      by rewrite bool_decide_eq_false_2 by lia. }
    cbn [rbind snd]. eexists. split; [done|]. intros j. rewrite Hnew.
    split.
    + intros (u & Hu & Hui & Hj).
      apply elem_of_dom in Hu as Hu'. destruct Hu' as [w Hw].
      rewrite Hw in Hj. simpl in Hj. apply Hval in Hw as ->.
      exists u. apply Hdom in Hu. set_solver.
    + intros (u & Hu%Hdom & Hui & Hj & Hji). exists u.
      apply elem_of_dom in Hu as Hu'. destruct Hu' as [w Hw].
      rewrite Hw. simpl. apply Hval in Hw as ->. set_solver.
Qed.

Lemma triangle_NoDup : NoDup (index_of triangle).
Proof.
  unfold index_of, triangle. simpl.
  repeat (apply NoDup_cons; split; [set_solver|]). apply NoDup_nil_2.
Qed.

Lemma triangle_bonds O :
  get_bonds_default O example_settings triangle false
  = (mkCartesian (_frame triangle) (metadata triangle)
       (<["bond_dict" := {[1 := {[2; 3]}; 2 := {[1; 3]}; 3 := {[1; 2]}]}]>
          (_metadata triangle)),
     Ok {[1 := {[2; 3]}; 2 := {[1; 3]}; 3 := {[1; 2]}]}).
Proof.
  unfold get_bonds_default, get_bonds.
  rewrite (complete_calculation_brute_force O triangle 500).
  - assert (brute_force_bonds triangle false None
              (default_atomic_radius_data example_settings)
            = {[1 := {[2; 3]}; 2 := {[1; 3]}; 3 := {[1; 2]}]}) as ->
      by by vm_compute.
    done.
  - discriminate.
  - lia.
  - exact triangle_NoDup.
  - unfold bond_radii_of, renumbered, triangle, example_settings,
      uniform_radius. simpl. intros r Hr.
    repeat (apply elem_of_cons in Hr as [->|Hr]; [by vm_compute|]).
    by apply elem_of_nil in Hr.
Qed.

(** C4, evaluated where it fails.  In a ring of three atoms 1, 2, 3,
    whatever the iteration order, [give_coordination_sphere(1, 2,
    give_only_index=True)] returns [{2, 3}], the first sphere, although no
    atom is two bonds away: the second sphere of the specification is
    empty.  With [n_sphere = 0] it returns [{2, 3}] as well, not [{1}]. *)
Theorem give_coordination_sphere_triangle O :
  ∃ c1 bd,
    get_bonds_default O example_settings triangle false = (c1, Ok bd) ∧
    give_coordination_sphere O example_settings triangle 1 2 true false
    = (c1, Ok (Indices {[2; 3]})) ∧
    nth_coordination_sphere bd 1 2 = ∅ ∧
    give_coordination_sphere O example_settings triangle 1 0 true false
    = (c1, Ok (Indices {[2; 3]})) ∧
    nth_coordination_sphere bd 1 0 = {[1]}.
Proof.
  eexists _, _. split; [apply triangle_bonds|].
  pose proof (get_bonds_default_bond_graph O example_settings triangle _ _
                triangle_NoDup (triangle_bonds O)) as (_ & Hclosed & _).
  set (bd := ({[1 := {[2; 3]}; 2 := {[1; 3]}; 3 := {[1; 2]}]}
              : bond_dict_t)) in *.
  assert (bonds bd 1 = {[2; 3]}) as H1 by by vm_compute.
  assert (bonds bd 2 = {[1; 3]}) as H2 by by vm_compute.
  assert (bonds bd 3 = {[1; 2]}) as H3 by by vm_compute.
  split; [|split; [by vm_compute|split; [|by vm_compute]]].
  - unfold give_coordination_sphere. rewrite triangle_bonds. fold bd.
    cbn [rbind].
    destruct (coordination_sphere_keys_2 O bd 1 Hclosed)
      as (keys & -> & Hkeys).
    cbn [rbind select]. do 3 f_equal. apply set_eq. intros j.
    rewrite Hkeys, H1. split.
    + intros (u & [->%elem_of_singleton| ->%elem_of_singleton]%elem_of_union
                & _ & Hj & Hne).
      * rewrite H2 in Hj. set_solver.
      * rewrite H3 in Hj. set_solver.
    + intros [->%elem_of_singleton| ->%elem_of_singleton]%elem_of_union.
      * exists 3. rewrite H3. set_solver.
      * exists 2. rewrite H2. set_solver.
  - unfold give_coordination_sphere. rewrite triangle_bonds. fold bd.
    cbn [rbind].
    rewrite coordination_sphere_keys_le_1 by (done || lia).
    cbn [rbind select]. by rewrite H1.
Qed.

(** ** [partition_chem_env] *)

(** C5, as the code behaves.  [get_chem_env] calls
    [self.connected_to(i, follow_bonds=follow_bonds, ...)], and
    [connected_to] has no parameter [follow_bonds]: on every molecule with
    at least one atom, [partition_chem_env] raises [TypeError] at the first
    atom and classifies nothing. *)
Theorem partition_chem_env_raises O st c follow_bonds use_lookup :
  _frame c ≠ [] →
  partition_chem_env O st c follow_bonds use_lookup
  = (c, Raise (TypeError "follow_bonds")).
Proof.
  intros Hc. unfold partition_chem_env, index_of.
  destruct (_frame c) as [|r rows]; [done|]. done.
Qed.

Lemma partition_chem_env_raises_witness :
  partition_chem_env canonical_order example_settings single_atom 1 false
  = (single_atom, Raise (TypeError "follow_bonds")).
Proof.
  apply (partition_chem_env_raises canonical_order example_settings
           single_atom 1 false).
  discriminate.
Defined.

(** ** [dihedral_degrees] on one chain *)

Lemma loc_coords_single c k p :
  position_of c k = Some p → loc_coords c [k] = Ok [p].
Proof.
  unfold position_of, loc_coords, loc_labels. simpl.
  destruct (filter _ _) as [|r [|? ?]]; [done| |done].
  intros [= <-]. done.
Qed.

Lemma broadcast_single {A B C} (f : A → B → C) x y :
  broadcast f [x] [y] = Ok [f x y].
Proof. done. Qed.

Lemma clip_0 : clip 0 = 0%R.
Proof.
  unfold clip. destruct (Rlt_dec 1 0); [lra|].
  destruct (Rlt_dec 0 (-1)); [lra|done].
Qed.

Lemma degrees_right_angle : degrees (acos 0) = 90%R.
Proof.
  rewrite acos_0. unfold degrees. pose proof PI_neq0. by field.
Qed.

Lemma dot_normalised u v n1 n2 :
  normalised u = Some n1 → normalised v = Some n2 →
  dot n1 n2 = (dot u v * (/ norm u * / norm v))%R.
Proof.
  unfold normalised.
  destruct (Req_dec_T (norm u) 0); [done|]. intros [= <-].
  destruct (Req_dec_T (norm v) 0); [done|]. intros [= <-].
  unfold dot, Rdiv. simpl. ring.
Qed.

(** One chain: the angle between the planes, or its complement to 360
    when the rotation direction is positive. *)
Lemma dihedral_degrees_single c i b a d pi pb pa pd n1 n2 :
  position_of c i = Some pi → position_of c b = Some pb →
  position_of c a = Some pa → position_of c d = Some pd →
  normalised (plane_normals pi pb pa pd).1 = Some n1 →
  normalised (plane_normals pi pb pa pd).2 = Some n2 →
  dihedral_degrees c [(i, b, a, d)] 0
  = Ok [Some (if Rlt_dec 0 (dot (vsub pa pb) (cross n1 n2))
              then 360 - degrees (acos (clip (dot n1 n2)))
              else degrees (acos (clip (dot n1 n2))))%R].
Proof.
  intros Hi Hb Ha Hd H1 H2. unfold dihedral_degrees.
  cbn [fmap list_fmap fst snd].
  rewrite (loc_coords_single _ _ _ Hi), (loc_coords_single _ _ _ Hb),
    (loc_coords_single _ _ _ Ha), (loc_coords_single _ _ _ Hd).
  unfold plane_normals in H1, H2. cbn [fst snd] in H1, H2.
  cbn [rbind].
  repeat (rewrite broadcast_single; cbn [rbind fmap list_fmap]).
  rewrite H1, H2. cbn [mbind option_bind fmap option_fmap option_map].
  unfold positive_positions.
  cbn [length seq mbind list_bind lookup list_lookup app].
  rewrite decide_False by lia.
  change (Z.to_nat (Z.of_nat 1 - 0)) with 1%nat. cbn [replicate].
  destruct (Rlt_dec 0 _); cbn [app assign_at for_each rbind length].
  - rewrite !decide_True by (cbn; lia).
    cbn [rbind insert list_insert].
    repeat (rewrite broadcast_single;
            cbn [rbind fmap option_fmap option_map]).
    do 3 f_equal. ring.
  - repeat (rewrite broadcast_single;
            cbn [rbind fmap option_fmap option_map]).
    do 3 f_equal. ring.
Qed.

Lemma Q2R_IZR z : Q2R (inject_Z z) = IZR z.
Proof. unfold Q2R. simpl. lra. Qed.

Lemma chain_minus_positions :
  position_of chain_minus 1 = Some (1, 0, 0)%R ∧
  position_of chain_minus 2 = Some (0, 0, 0)%R ∧
  position_of chain_minus 3 = Some (0, 0, 1)%R ∧
  position_of chain_minus 4 = Some (0, -1, 1)%R.
Proof.
  unfold position_of, chain_minus. cbn.
  repeat split; f_equal; repeat f_equal; unfold Q2R; simpl; lra.
Qed.

Lemma chain_plus_positions :
  position_of chain_plus 1 = Some (1, 0, 0)%R ∧
  position_of chain_plus 2 = Some (0, 0, 0)%R ∧
  position_of chain_plus 3 = Some (0, 0, 1)%R ∧
  position_of chain_plus 4 = Some (0, 1, 1)%R.
Proof.
  unfold position_of, chain_plus. cbn.
  repeat split; f_equal; repeat f_equal; unfold Q2R; simpl; lra.
Qed.

Lemma normalised_unit v : dot v v = 1%R → normalised v = Some v.
Proof.
  intros Hv. unfold normalised, norm. rewrite Hv, sqrt_1.
  destruct (Req_dec_T 1 0); [lra|].
  destruct v as [[x y] z]. simpl. do 2 f_equal; [f_equal|]; lra.
Qed.

Lemma right_angle_cases pi pb pa pd n1 n2 :
  normalised (plane_normals pi pb pa pd).1 = Some n1 →
  normalised (plane_normals pi pb pa pd).2 = Some n2 →
  dot (plane_normals pi pb pa pd).1 (plane_normals pi pb pa pd).2 = 0%R →
  degrees (acos (clip (dot n1 n2))) = 90%R.
Proof.
  intros H1 H2 H0.
  rewrite (dot_normalised _ _ _ _ H1 H2), H0, Rmult_0_l, clip_0.
  apply degrees_right_angle.
Qed.

Lemma chain_minus_normals :
  plane_normals (1, 0, 0)%R (0, 0, 0)%R (0, 0, 1)%R (0, -1, 1)%R
  = ((0, 1, 0)%R, (1, 0, 0)%R).
Proof.
  unfold plane_normals, cross, vsub. simpl.
  f_equal; do 2 f_equal; try f_equal; lra.
Qed.

Lemma chain_plus_normals :
  plane_normals (1, 0, 0)%R (0, 0, 0)%R (0, 0, 1)%R (0, 1, 1)%R
  = ((0, 1, 0)%R, (-1, 0, 0)%R).
Proof.
  unfold plane_normals, cross, vsub. simpl.
  f_equal; do 2 f_equal; try f_equal; lra.
Qed.

Lemma chain_minus_direction :
  rotation_direction (1, 0, 0)%R (0, 0, 0)%R (0, 0, 1)%R (0, -1, 1)%R
  = Some (-1)%R.
Proof.
  unfold rotation_direction. rewrite chain_minus_normals. cbn [fst snd].
  rewrite !normalised_unit by (unfold dot; simpl; lra).
  cbn [mbind option_bind]. f_equal. unfold dot, cross, vsub. simpl. lra.
Qed.

Lemma chain_plus_direction :
  rotation_direction (1, 0, 0)%R (0, 0, 0)%R (0, 0, 1)%R (0, 1, 1)%R
  = Some 1%R.
Proof.
  unfold rotation_direction. rewrite chain_plus_normals. cbn [fst snd].
  rewrite !normalised_unit by (unfold dot; simpl; lra).
  cbn [mbind option_bind]. f_equal. unfold dot, cross, vsub. simpl. lra.
Qed.

Lemma right_angle_dihedral c i b a d pi pb pa pd t :
  position_of c i = Some pi → position_of c b = Some pb →
  position_of c a = Some pa → position_of c d = Some pd →
  dot (plane_normals pi pb pa pd).1 (plane_normals pi pb pa pd).2 = 0%R →
  rotation_direction pi pb pa pd = Some t →
  dihedral_degrees c [(i, b, a, d)] 0
  = Ok [Some (if Rlt_dec 0 t then 270 else 90)%R].
Proof.
  intros Hi Hb Ha Hd H0 Ht. unfold rotation_direction in Ht.
  destruct (normalised (plane_normals pi pb pa pd).1) as [n1|] eqn:H1;
    [|done].
  destruct (normalised (plane_normals pi pb pa pd).2) as [n2|] eqn:H2;
    [|done].
  cbn [mbind option_bind] in Ht. injection Ht as <-.
  rewrite (dihedral_degrees_single c i b a d pi pb pa pd n1 n2) by done.
  rewrite (right_angle_cases _ _ _ _ _ _ H1 H2 H0).
  do 3 f_equal. destruct (Rlt_dec 0 _); [lra|done].
Qed.

(** C3, as the claim words it, fails: in the chain [chain_minus] the two
    planes are perpendicular and the scalar triple product of the b–a
    vector with the cross product of the two unit normals is [-1], yet
    [dihedral_degrees] returns 90 degrees, not 270. *)
Lemma dihedral_negative_direction_gives_90 :
  dot (plane_normals (1, 0, 0)%R (0, 0, 0)%R (0, 0, 1)%R (0, -1, 1)%R).1
      (plane_normals (1, 0, 0)%R (0, 0, 0)%R (0, 0, 1)%R (0, -1, 1)%R).2
  = 0%R ∧
  (∃ t, rotation_direction (1, 0, 0)%R (0, 0, 0)%R (0, 0, 1)%R (0, -1, 1)%R
        = Some t ∧ (t < 0)%R) ∧
  dihedral_degrees chain_minus [(1, 2, 3, 4)] 0 = Ok [Some 90%R] ∧
  dihedral_degrees chain_minus [(1, 2, 3, 4)] 0 ≠ Ok [Some 270%R].
Proof.
  destruct chain_minus_positions as (Hi & Hb & Ha & Hd).
  assert (dot (plane_normals (1, 0, 0)%R (0, 0, 0)%R (0, 0, 1)%R
                             (0, -1, 1)%R).1
              (plane_normals (1, 0, 0)%R (0, 0, 0)%R (0, 0, 1)%R
                             (0, -1, 1)%R).2 = 0%R) as H0.
  { rewrite chain_minus_normals. unfold dot. simpl. lra. }
  pose proof (right_angle_dihedral chain_minus 1 2 3 4 _ _ _ _ _
                Hi Hb Ha Hd H0 chain_minus_direction) as Hres.
  destruct (Rlt_dec 0 (-1)) as [Hlt|_]; [lra|].
  split; [done|]. split.
  { exists (-1)%R. split; [apply chain_minus_direction|lra]. }
  split; [done|]. rewrite Hres. intros [= Hx]. lra.
Qed.

(** C3, amended: for every chain [(i, b, a, d)] of atoms of the molecule
    whose two plane normals are perpendicular (the planes form an angle of
    exactly 90 degrees), [dihedral_degrees] reports 270 degrees when the
    scalar triple product of the b–a vector with the cross product of the
    two unit normals is positive, and 90 degrees otherwise, in particular
    when it is negative. *)
Theorem dihedral_right_angle c i b a d pi pb pa pd t :
  position_of c i = Some pi → position_of c b = Some pb →
  position_of c a = Some pa → position_of c d = Some pd →
  dot (plane_normals pi pb pa pd).1 (plane_normals pi pb pa pd).2 = 0%R →
  rotation_direction pi pb pa pd = Some t →
  ((0 < t)%R → dihedral_degrees c [(i, b, a, d)] 0 = Ok [Some 270%R]) ∧
  ((t <= 0)%R → dihedral_degrees c [(i, b, a, d)] 0 = Ok [Some 90%R]).
Proof.
  intros Hi Hb Ha Hd H0 Ht.
  rewrite (right_angle_dihedral c i b a d pi pb pa pd t) by done.
  split; intros Hsign; destruct (Rlt_dec 0 t); try done; lra.
Qed.

Lemma dihedral_right_angle_witness :
  dihedral_degrees chain_plus [(1, 2, 3, 4)] 0 = Ok [Some 270%R].
Proof.
  destruct chain_plus_positions as (Hi & Hb & Ha & Hd).
  refine (proj1 (dihedral_right_angle chain_plus 1 2 3 4 _ _ _ _ 1%R
                   Hi Hb Ha Hd _ chain_plus_direction) _).
  - rewrite chain_plus_normals. unfold dot. simpl. lra.
  - lra.
Defined.

(** ** The indexers of the internal coordinates *)

Section indexer_facts.
Import indexers.
Context (L : Collaborators).

Lemma fresh_address (h : store (frame L)) : h !! fresh (dom h) = None.
Proof. apply not_elem_of_dom, is_fresh. Qed.

Lemma assign_frame_copy set set2 (h : store (frame L)) z k v f :
  set_by L set set2 (_frame z) k v = Done f →
  assign_frame L set set2 (<[fresh (dom h) := z]> h) (fresh (dom h)) k v
  = (<[fresh (dom h) := mkZmat f (_metadata z)]> h, Done ()).
Proof.
  intros Hset. unfold assign_frame.
  rewrite lookup_insert_eq, Hset. by rewrite insert_insert_eq.
Qed.

End indexer_facts.

(** C2: with the [dummy_manipulation_allowed] flag off, when the
    assignment on the copy goes through and [give_cartesian] on the copy
    raises [InvalidReference] without touching any other object, the
    call raises that exception with the copy, which holds the assigned
    frame, as its [zmat_after_assignment]; the indexer still refers to
    the same molecule and every object that existed before the call is
    unchanged. *)
Theorem safe_write_failure_keeps_state (L : indexers.Collaborators)
    (h : gmap indexers.addr (indexers.Zmat (indexers.frame L)))
    (self : indexers.indexer) k v z f h' d old :
  let pending := fresh (dom h) in
  let h_pending :=
    <[pending := indexers.mkZmat f (indexers._metadata z)]> h in
  h !! indexers.molecule self = Some z →
  indexers._metadata z !! "dummy_manipulation_allowed" = Some false →
  indexers.set_by L (indexers.loc_set L) (indexers.loc_set2 L)
                  (indexers._frame z) k v = indexers.Done f →
  indexers.give_cartesian L h_pending pending
  = (h', indexers.Raised (indexers.InvalidReference d old)) →
  (∀ a, a ≠ pending → h' !! a = h_pending !! a) →
  indexers._Safe_Loc__setitem__ L (h, self) k v
  = ((h', self),
     indexers.Raised (indexers.InvalidReference d (Some pending))) ∧
  h !! pending = None ∧
  (∀ a, a ∈ dom h → h' !! a = h !! a) ∧
  h' !! indexers.molecule self = Some z.
Proof.
  intros pending h_pending Hz Hflag Hset Hgive Hframe.
  assert (h !! pending = None) as Hfresh by apply fresh_address.
  assert (∀ a, a ∈ dom h → h' !! a = h !! a) as Hold.
  { intros a [za Ha]%elem_of_dom.
    assert (a ≠ pending) as Hne by congruence.
    rewrite Hframe by done. unfold h_pending.
    by rewrite lookup_insert_ne. }
  split; [|split; [done|split; [done|]]].
  - unfold indexers._Safe_Loc__setitem__, indexers.copy.
    rewrite Hz, Hflag.
    rewrite (assign_frame_copy L _ _ h z k v f Hset).
    fold pending. fold h_pending. by rewrite Hgive.
  - rewrite Hold; [done|]. by apply elem_of_dom.
Qed.

Lemma safe_write_failure_keeps_state_witness :
  indexers._Safe_Loc__setitem__ toy_layer
    (toy_store, indexers.mkIndexer 1%positive) (indexers.Label ()) 0
  = ((<[2%positive :=
          indexers.mkZmat 0 {[ "dummy_manipulation_allowed" := false ]}]>
        toy_store,
      indexers.mkIndexer 1%positive),
     indexers.Raised (indexers.InvalidReference () (Some 2%positive))).
Proof.
  refine (proj1 (safe_write_failure_keeps_state toy_layer toy_store
            (indexers.mkIndexer 1%positive) (indexers.Label ()) 0
            (indexers.mkZmat 5 {[ "dummy_manipulation_allowed" := false ]})
            0 _ () None _ _ _ _ _)).
  - reflexivity.
  - reflexivity.
  - reflexivity.
  - reflexivity.
  - reflexivity.
Defined.

(** ** Further properties of the bond test and of the cells *)

(** X1. In double precision too, the array of [_jit_give_bond_array] is
    [n x n] and symmetric, and its diagonal is false when self bonding is
    disabled: subtraction, squaring and addition are rounded the same way
    for [(i, j)] and for [(j, i)]. *)
Theorem bond_array_symmetric pos radii sba a b :
  (a < length pos)%nat → (b < length pos)%nat →
  square (length pos) (binary64._jit_give_bond_array pos radii sba) ∧
  mget (binary64._jit_give_bond_array pos radii sba) a b
  = mget (binary64._jit_give_bond_array pos radii sba) b a ∧
  (sba = false →
   mget (binary64._jit_give_bond_array pos radii sba) a a = false).
Proof.
  intros Ha Hb. split; [apply bond_array_square_f64|].
  rewrite !bond_array_entry_f64 by done. split.
  - rewrite (bond_test_sym_f64 pos radii b a).
    destruct (decide (a = b ∧ sba = false)) as [Hab|Hab],
      (decide (b = a ∧ sba = false)) as [Hba|Hba];
      try done; exfalso; naive_solver.
  - intros ->. by rewrite decide_True.
Qed.

Lemma bond_array_symmetric_witness :
  square 2 (binary64._jit_give_bond_array touching_floats
              touching_float_radii false) ∧
  mget (binary64._jit_give_bond_array touching_floats touching_float_radii
          false) 0 1
  = mget (binary64._jit_give_bond_array touching_floats touching_float_radii
            false) 1 0 ∧
  (false = false →
   mget (binary64._jit_give_bond_array touching_floats touching_float_radii
           false) 0 0 = false).
Proof.
  apply (bond_array_symmetric touching_floats touching_float_radii false
           0 1); unfold touching_floats; cbn [length]; lia.
Defined.

(** X2. [_update_bond_dict] only adds: for a cell of valid row numbers
    it returns a relation that keeps every entry and every partner of the
    relation passed in, and every new key is an atom of the cell. *)
Theorem update_bond_dict_monotone O F positions radii bd sba :
  length radii = length positions →
  (∀ a, a ∈ F → 0 ≤ a < Z.of_nat (length positions)) →
  ∃ bd', _update_bond_dict O F positions radii bd sba = Ok bd' ∧
    dom bd ⊆ dom bd' ∧
    (∀ a, bonds bd a ⊆ bonds bd' a) ∧
    (∀ a, a ∈ dom bd' → a ∉ dom bd → a ∈ F) ∧
    (∀ a b, b ∈ bonds bd' a → b ∉ bonds bd a → a ∈ F ∧ b ∈ F).
Proof.
  intros Hlen HF.
  destruct (update_bond_dict_spec O F positions radii bd sba Hlen HF)
    as (bd' & Hbd' & Hbonds & Hdom & Hsub).
  exists bd'. split; [done|]. split; [done|]. split; [|split].
  - intros a b Hb. apply Hbonds. by left.
  - intros a Ha Hna. destruct (Hdom a Ha); [done|done].
  - intros a b Hb Hnb. apply Hbonds in Hb as [Hb|(? & ? & _)]; done.
Qed.

Lemma update_bond_dict_monotone_witness :
  ∃ bd', _update_bond_dict canonical_order {[0; 1]} touching_positions
                           touching_radii {[7 := {[8]}]} false = Ok bd' ∧
    dom ({[7 := {[8]}]} : bond_dict_t) ⊆ dom bd' ∧
    (∀ a, bonds {[7 := {[8]}]} a ⊆ bonds bd' a) ∧
    (∀ a, a ∈ dom bd' → a ∉ dom ({[7 := {[8]}]} : bond_dict_t) →
          a ∈ ({[0; 1]} : gset Z)) ∧
    (∀ a b, b ∈ bonds bd' a → b ∉ bonds {[7 := {[8]}]} a →
            a ∈ ({[0; 1]} : gset Z) ∧ b ∈ ({[0; 1]} : gset Z)).
Proof.
  apply (update_bond_dict_monotone canonical_order {[0; 1]}
           touching_positions touching_radii {[7 := {[8]}]} false).
  - reflexivity.
  - intros a Ha. assert (a = 0 ∨ a = 1) as [-> | ->] by set_solver;
      simpl; lia.
Defined.

(** X3. On a molecule with at least one atom and with at least one atom
    per cell, [_divide_et_impera] returns its cells (no position of the
    sorted columns is read out of range); a cell holds identifiers of the
    molecule only, and with a non-negative overlap every atom lies in
    some cell. *)
Theorem divide_et_impera_covers c n_atoms_per_set offset :
  _frame c ≠ [] → (1 ≤ n_atoms_per_set)%nat → (0 <= offset)%Q →
  ∃ fragments,
    _divide_et_impera c n_atoms_per_set offset = Ok fragments ∧
    (∀ cell, cell ∈ concat (concat fragments) →
             cell ⊆ list_to_set (index_of c)) ∧
    (∀ r, r ∈ _frame c →
          ∃ cell, cell ∈ concat (concat fragments) ∧ label r ∈ cell).
Proof.
  intros Hc Haps Hoff.
  destruct (divide_et_impera_spec c n_atoms_per_set offset)
    as (fr & Hfr & Hsub & Hcov); [by apply len_pos|done|].
  exists fr. split; [done|]. split.
  - intros cell Hcell k Hk. apply elem_of_list_to_set. by eapply Hsub.
  - intros r Hr. destruct (Hcov Hoff r r Hr Hr) as (cell & ? & ? & _).
    + unfold within. repeat split; lra.
    + by exists cell.
Qed.

Lemma divide_et_impera_covers_witness :
  ∃ fragments,
    _divide_et_impera three_atoms 1 3 = Ok fragments ∧
    (∀ cell, cell ∈ concat (concat fragments) →
             cell ⊆ list_to_set (index_of three_atoms)) ∧
    (∀ r, r ∈ _frame three_atoms →
          ∃ cell, cell ∈ concat (concat fragments) ∧ label r ∈ cell).
Proof.
  apply (divide_et_impera_covers three_atoms 1 3).
  - discriminate.
  - lia.
  - by vm_compute.
Defined.

Lemma renumbered_empty c : _frame c = [] → renumbered c = c.
Proof.
  destruct c as [fr m pm]. simpl. intros ->. reflexivity.
Qed.

(** X4. A molecule without atoms has no bond relation: unless a cached
    relation is looked up, [get_bonds] raises [ZeroDivisionError] (the
    number of cells along an axis is zero), writes no cache entry and
    leaves the molecule as it was. *)
Theorem get_bonds_empty_molecule O c sba offset mp use_lookup set_lookup
    data :
  _frame c = [] →
  (use_lookup = true → _metadata c !! "bond_dict" = None) →
  get_bonds O c sba offset mp use_lookup set_lookup data
  = (c, Raise ZeroDivisionError).
Proof.
  intros Hc Hcache. unfold get_bonds.
  rewrite complete_calculation_empty, renumbered_empty by done.
  destruct use_lookup; [|done]. by rewrite Hcache.
Qed.

Lemma get_bonds_empty_molecule_witness :
  get_bonds canonical_order (mkCartesian [] ∅ ∅) false 3 None true true
            (uniform_radius 0.8)
  = (mkCartesian [] ∅ ∅, Raise ZeroDivisionError).
Proof.
  apply (get_bonds_empty_molecule canonical_order (mkCartesian [] ∅ ∅)
           false 3 None true true (uniform_radius 0.8)).
  - reflexivity.
  - intros _. reflexivity.
Defined.

(** X5. The lookup round trip: when a call of [get_bonds] with default
    arguments returns a relation, the rows are unchanged, the relation is
    stored under ['bond_dict'], and a further call with [use_lookup=True]
    returns the same relation and changes nothing. *)
Theorem get_bonds_cache_round_trip O st c use_lookup c1 bd :
  get_bonds_default O st c use_lookup = (c1, Ok bd) →
  _frame c1 = _frame c ∧
  _metadata c1 !! "bond_dict" = Some bd ∧
  get_bonds_default O st c1 true = (c1, Ok bd).
Proof.
  intros Hget.
  destruct (get_bonds_default_stable O st c use_lookup c1 bd Hget)
    as (? & ? & ? & _).
  done.
Qed.

Lemma get_bonds_cache_round_trip_witness :
  ∃ c1 bd,
    get_bonds_default canonical_order example_settings three_atoms false
    = (c1, Ok bd) ∧
    _frame c1 = _frame three_atoms ∧
    _metadata c1 !! "bond_dict" = Some bd ∧
    get_bonds_default canonical_order example_settings c1 true = (c1, Ok bd).
Proof.
  destruct (get_bonds_fresh canonical_order three_atoms false 3 None true
              (uniform_radius 0.8)) as (fr & bd & _ & _ & Hget);
    [discriminate|].
  eexists _, bd. split; [exact Hget|].
  exact (get_bonds_cache_round_trip canonical_order example_settings
           three_atoms false _ bd Hget).
Defined.

(** X6. The relation does not depend on the order in which Python
    iterates over sets and dicts: for a non-empty molecule with one row
    per identifier, two iteration orders give the same result. *)
Theorem get_bonds_order_independent O O' c sba offset mp set_lookup data :
  _frame c ≠ [] → NoDup (index_of c) →
  get_bonds O c sba offset mp false set_lookup data
  = get_bonds O' c sba offset mp false set_lookup data.
Proof.
  intros Hc Hnd.
  destruct (complete_calculation_spec O c 500 sba offset mp data)
    as (fr & bd & Hfr & Hcc & Hdom & Hbonds); [by apply len_pos|lia|].
  destruct (complete_calculation_spec O' c 500 sba offset mp data)
    as (fr' & bd' & Hfr' & Hcc' & Hdom' & Hbonds'); [by apply len_pos|lia|].
  rewrite Hfr in Hfr'. injection Hfr' as <-.
  assert (bd = bd') as <-.
  { apply bond_dict_eq.
    - intros i. by rewrite Hdom, Hdom'.
    - intros i j. by rewrite (Hbonds Hnd), (Hbonds' Hnd). }
  unfold get_bonds. by rewrite Hcc, Hcc'.
Qed.

Lemma get_bonds_order_independent_witness :
  get_bonds canonical_order three_atoms false 3 None false true
            (uniform_radius 0.8)
  = get_bonds reversed_order three_atoms false 3 None false true
              (uniform_radius 0.8).
Proof.
  apply (get_bonds_order_independent canonical_order reversed_order
           three_atoms false 3 None true (uniform_radius 0.8)).
  - discriminate.
  - exact three_atoms_NoDup.
Defined.

(** X7. Every atom gets an entry, also an atom without partner, and
    every partner is an atom of the molecule: for a non-empty molecule
    with one row per identifier the keys of the computed relation are the
    identifiers and the partners are identifiers. *)
Theorem get_bonds_keys_are_identifiers O c sba offset mp set_lookup data :
  _frame c ≠ [] → NoDup (index_of c) →
  ∃ c' bd,
    get_bonds O c sba offset mp false set_lookup data = (c', Ok bd) ∧
    (∀ i, i ∈ dom bd ↔ i ∈ index_of c) ∧
    (∀ i j, j ∈ bonds bd i → i ∈ index_of c ∧ j ∈ index_of c).
Proof.
  intros Hc Hnd.
  destruct (complete_calculation_spec O c 500 sba offset mp data)
    as (fr & bd & Hfr & Hcc & Hdom & Hbonds); [by apply len_pos|lia|].
  exists (if set_lookup
          then mkCartesian (_frame c) (metadata c)
                           (<["bond_dict" := bd]> (_metadata c))
          else c), bd.
  split.
  { unfold get_bonds. rewrite Hcc. by destruct set_lookup. }
  split; [done|].
  intros i j (p & q & Hp & Hq & _)%(Hbonds Hnd).
  split; by eapply list_elem_of_lookup_2.
Qed.

Lemma get_bonds_keys_are_identifiers_witness :
  ∃ c' bd,
    get_bonds canonical_order three_atoms false 3 None false true
              (uniform_radius 0.8) = (c', Ok bd) ∧
    (∀ i, i ∈ dom bd ↔ i ∈ index_of three_atoms) ∧
    (∀ i j, j ∈ bonds bd i →
            i ∈ index_of three_atoms ∧ j ∈ index_of three_atoms).
Proof.
  apply (get_bonds_keys_are_identifiers canonical_order three_atoms false 3
           None true (uniform_radius 0.8)).
  - discriminate.
  - exact three_atoms_NoDup.
Defined.

(** ** Further properties of the traversals *)

Lemma first_sphere_total O bd i V : ∃ tmp, first_sphere O bd i V = Ok tmp.
Proof.
  unfold first_sphere.
  assert (∀ (l : list Z) (acc : bond_dict_t),
    (∃ tmp, for_each l
       (λ tmp j, pj ← dict_get bd j ;;; Ok (<[j := pj ∖ V]> tmp)) acc
       = Ok tmp) ∨
    for_each l
       (λ tmp j, pj ← dict_get bd j ;;; Ok (<[j := pj ∖ V]> tmp)) acc
    = Raise KeyError) as Hloop.
  { induction l as [|j l IH]; intros acc; simpl; [eauto|].
    destruct (dict_get bd j) as [pj|e] eqn:E; simpl; [apply IH|].
    right. unfold dict_get in E. destruct (bd !! j); [done|].
    by injection E as <-. }
  unfold dict_get at 1. destruct (bd !! i) as [partners|]; simpl; [|eauto].
  destruct (Hloop (iter_set O partners) ∅) as [[tmp ->]| ->]; eauto.
Qed.

(** X8. [connected_to] with the default [n_sphere] returns the atoms
    that a path of bonds reaches from the start without entering an
    excluded atom: the start is among them, no excluded atom is, and the
    loop ends within the bound that the number of atoms gives. *)
Theorem connected_to_reachable O st c use_lookup c1 bd i exclude :
  get_bonds_default O st c use_lookup = (c1, Ok bd) →
  closed_bond_dict bd →
  i ∉ default ∅ exclude →
  ∃ found,
    connected_to O st c1 i None true exclude use_lookup
    = (c1, Ok (Indices found)) ∧
    i ∈ found ∧
    found ## default ∅ exclude ∧
    ∀ v, v ∈ found ↔ rtc (hop bd (default ∅ exclude)) i v.
Proof.
  intros Hget Hclosed Hi.
  destruct (connected_to_spec O st c use_lookup c1 bd i exclude Hget
              Hclosed Hi) as (found & Hfound & _ & Hreach).
  exists found. split; [done|]. split; [by apply Hreach|]. split; [|done].
  intros v Hv%Hreach Hex.
  apply rtc_inv_r in Hv as [->|(u & _ & _ & Hn)]; done.
Qed.

Lemma connected_to_reachable_witness :
  ∃ c1 bd found,
    get_bonds_default canonical_order example_settings three_atoms false
    = (c1, Ok bd) ∧
    connected_to canonical_order example_settings c1 10 None true
                 (Some {[20]}) false
    = (c1, Ok (Indices found)) ∧
    10 ∈ found ∧
    found ## default ∅ (Some {[20]}) ∧
    ∀ v, v ∈ found ↔ rtc (hop bd (default ∅ (Some {[20]}))) 10 v.
Proof.
  destruct (get_bonds_fresh canonical_order three_atoms false 3 None true
              (uniform_radius 0.8)) as (fr & bd & _ & _ & Hget);
    [discriminate|].
  pose proof (get_bonds_default_bond_graph canonical_order example_settings
                three_atoms _ bd three_atoms_NoDup Hget) as (_ & Hclosed & _).
  destruct (connected_to_reachable canonical_order example_settings
              three_atoms false _ bd 10 (Some {[20]}) Hget Hclosed)
    as (found & Hfound); [simpl; set_solver|].
  eexists _, bd, found. split; [exact Hget|]. exact Hfound.
Defined.

(** X9. With [n_sphere] zero or negative the loop of [connected_to] does
    not run: the result is the start atom alone, or nothing when the
    start atom is excluded, whatever the relation. *)
Theorem connected_to_depth_zero O st c use_lookup c1 bd i n_sphere exclude :
  get_bonds_default O st c use_lookup = (c1, Ok bd) →
  n_sphere ≤ 0 →
  connected_to O st c1 i (Some n_sphere) true exclude use_lookup
  = (c1, Ok (Indices ({[i]} ∖ default ∅ exclude))).
Proof.
  intros Hget Hn.
  destruct (get_bonds_default_stable _ _ _ _ _ _ Hget)
    as (_ & _ & _ & Hsame).
  unfold connected_to. rewrite Hsame. cbn [rbind].
  unfold connected_indices.
  destruct (first_sphere_total O bd i ({[i]} ∪ default ∅ exclude))
    as (tmp & ->).
  cbn [rbind]. rewrite sphere_loop_unfold.
  rewrite bool_decide_eq_false_2 by lia.
  assert ((if decide (tmp = ∅)
           then Ok ({[i]} ∪ default ∅ exclude, tmp)
           else Ok ({[i]} ∪ default ∅ exclude, tmp))
          = (Ok ({[i]} ∪ default ∅ exclude, tmp)
             : result (gset Z * bond_dict_t))) as ->
    by (by destruct (decide (tmp = ∅))).
  cbn [rbind fst select]. do 3 f_equal.
  generalize (default ∅ exclude). clear. intros X. set_solver.
Qed.

Lemma connected_to_depth_zero_witness :
  ∃ c1 bd,
    get_bonds_default canonical_order example_settings three_atoms false
    = (c1, Ok bd) ∧
    connected_to canonical_order example_settings c1 10 (Some 0) true None
                 false
    = (c1, Ok (Indices ({[10]} ∖ default ∅ None))).
Proof.
  destruct (get_bonds_fresh canonical_order three_atoms false 3 None true
              (uniform_radius 0.8)) as (fr & bd & _ & _ & Hget);
    [discriminate|].
  eexists _, bd. split; [exact Hget|].
  apply (connected_to_depth_zero canonical_order example_settings
           three_atoms false _ bd 10 0 None Hget).
  lia.
Defined.

(** X10. With [n_sphere] at most 1, the default included,
    [give_coordination_sphere] returns the partners of the atom; an
    identifier without entry gives the empty set, the [KeyError] being
    caught. *)
Theorem coordination_sphere_first O st c use_lookup c1 bd i n_sphere :
  get_bonds_default O st c use_lookup = (c1, Ok bd) →
  closed_bond_dict bd → n_sphere ≤ 1 →
  give_coordination_sphere O st c1 i n_sphere true use_lookup
  = (c1, Ok (Indices (bonds bd i))) ∧
  (i ∉ dom bd → bonds bd i = ∅).
Proof.
  intros Hget Hclosed Hn.
  destruct (get_bonds_default_stable _ _ _ _ _ _ Hget)
    as (_ & _ & _ & Hsame).
  split.
  - unfold give_coordination_sphere. rewrite Hsame. cbn [rbind].
    by rewrite coordination_sphere_keys_le_1.
  - intros Hi%not_elem_of_dom. unfold bonds. by rewrite Hi.
Qed.

Lemma coordination_sphere_first_witness :
  ∃ c1 bd,
    get_bonds_default canonical_order example_settings three_atoms false
    = (c1, Ok bd) ∧
    give_coordination_sphere canonical_order example_settings c1 20 1 true
                             false
    = (c1, Ok (Indices (bonds bd 20))) ∧
    (20 ∉ dom bd → bonds bd 20 = ∅).
Proof.
  destruct (get_bonds_fresh canonical_order three_atoms false 3 None true
              (uniform_radius 0.8)) as (fr & bd & _ & _ & Hget);
    [discriminate|].
  pose proof (get_bonds_default_bond_graph canonical_order example_settings
                three_atoms _ bd three_atoms_NoDup Hget) as (_ & Hclosed & _).
  eexists _, bd. split; [exact Hget|].
  apply (coordination_sphere_first canonical_order example_settings
           three_atoms false _ bd 20 1 Hget Hclosed).
  lia.
Defined.

(** X11. With [n_sphere = 2] the loop of [give_coordination_sphere] runs
    once and the result is every partner, other than the start, of a
    partner of the start: an atom of the first sphere is returned as well
    when it is bonded to another atom of the first sphere. *)
Theorem coordination_sphere_second O st c use_lookup c1 bd i :
  get_bonds_default O st c use_lookup = (c1, Ok bd) →
  closed_bond_dict bd →
  ∃ keys,
    give_coordination_sphere O st c1 i 2 true use_lookup
    = (c1, Ok (Indices keys)) ∧
    ∀ j, j ∈ keys ↔
      ∃ u, u ∈ bonds bd i ∧ u ≠ i ∧ j ∈ bonds bd u ∧ j ≠ i.
Proof.
  intros Hget Hclosed.
  destruct (get_bonds_default_stable _ _ _ _ _ _ Hget)
    as (_ & _ & _ & Hsame).
  destruct (coordination_sphere_keys_2 O bd i Hclosed) as (keys & Hk & Hmem).
  exists keys. split; [|done].
  unfold give_coordination_sphere. rewrite Hsame. cbn [rbind].
  by rewrite Hk.
Qed.

Lemma coordination_sphere_second_witness :
  ∃ c1 bd keys,
    get_bonds_default canonical_order example_settings three_atoms false
    = (c1, Ok bd) ∧
    give_coordination_sphere canonical_order example_settings c1 10 2 true
                             false
    = (c1, Ok (Indices keys)) ∧
    ∀ j, j ∈ keys ↔
      ∃ u, u ∈ bonds bd 10 ∧ u ≠ 10 ∧ j ∈ bonds bd u ∧ j ≠ 10.
Proof.
  destruct (get_bonds_fresh canonical_order three_atoms false 3 None true
              (uniform_radius 0.8)) as (fr & bd & _ & _ & Hget);
    [discriminate|].
  pose proof (get_bonds_default_bond_graph canonical_order example_settings
                three_atoms _ bd three_atoms_NoDup Hget) as (_ & Hclosed & _).
  destruct (coordination_sphere_second canonical_order example_settings
              three_atoms false _ bd 10 Hget Hclosed) as (keys & Hkeys).
  eexists _, bd, keys. split; [exact Hget|]. exact Hkeys.
Defined.

(** X12. [_preserve_bonds] refuses a slice with an atom that the molecule
    does not have: the assertion fails before [get_bonds] is called, so
    the molecule, its cache included, is left as it was. *)
Theorem preserve_bonds_rejects_foreign_atoms O st c sliced_cartesian
    use_lookup a :
  a ∈ index_of sliced_cartesian → a ∉ index_of c →
  _preserve_bonds O st c sliced_cartesian use_lookup
  = (c, Raise AssertionError).
Proof.
  intros Ha Hna. unfold _preserve_bonds.
  rewrite decide_False; [done|].
  intros Hsub. apply Hna.
  apply (elem_of_list_to_set (C := gset Z)), Hsub.
  by apply elem_of_list_to_set.
Qed.

Lemma preserve_bonds_rejects_foreign_atoms_witness :
  _preserve_bonds canonical_order example_settings first_atom_only
                  three_atoms false
  = (first_atom_only, Raise AssertionError).
Proof.
  apply (preserve_bonds_rejects_foreign_atoms canonical_order
           example_settings first_atom_only three_atoms false 20).
  - unfold index_of, three_atoms. simpl. set_solver.
  - unfold index_of, first_atom_only. simpl. set_solver.
Defined.

(** ** Further properties of [dihedral_degrees] *)

(** One chain with a normal that cannot be normalised: the result is
    [nan]. *)
Lemma dihedral_degrees_single_nan c i b a d pi pb pa pd :
  position_of c i = Some pi → position_of c b = Some pb →
  position_of c a = Some pa → position_of c d = Some pd →
  normalised (plane_normals pi pb pa pd).1 = None ∨
  normalised (plane_normals pi pb pa pd).2 = None →
  dihedral_degrees c [(i, b, a, d)] 0 = Ok [None].
Proof.
  intros Hi Hb Ha Hd Hnone. unfold dihedral_degrees.
  cbn [fmap list_fmap fst snd].
  rewrite (loc_coords_single _ _ _ Hi), (loc_coords_single _ _ _ Hb),
    (loc_coords_single _ _ _ Ha), (loc_coords_single _ _ _ Hd).
  unfold plane_normals in Hnone. cbn [fst snd] in Hnone.
  cbn [rbind].
  repeat (rewrite broadcast_single; cbn [rbind fmap list_fmap]).
  assert (∀ (f : rvec → rvec → option R),
    (normalised (cross (vsub pb pi) (vsub pa pb))
       ≫= λ u, normalised (cross (vsub pa pb) (vsub pd pa))
       ≫= λ v, f u v) = None) as Hf.
  { intros f. destruct Hnone as [-> | ->]; [done|].
    by destruct (normalised (cross (vsub pb pi) (vsub pa pb))). }
  assert (∀ (f : rvec → rvec → option rvec),
    (normalised (cross (vsub pb pi) (vsub pa pb))
       ≫= λ u, normalised (cross (vsub pa pb) (vsub pd pa))
       ≫= λ v, f u v) = None) as Hg.
  { intros f. destruct Hnone as [-> | ->]; [done|].
    by destruct (normalised (cross (vsub pb pi) (vsub pa pb))). }
  rewrite Hf, Hg. cbn [fmap option_fmap option_map].
  unfold positive_positions.
  cbn [length seq mbind list_bind lookup list_lookup app].
  rewrite decide_False by lia.
  change (Z.to_nat (Z.of_nat 1 - 0)) with 1%nat.
  cbn [replicate assign_at for_each rbind].
  by repeat (rewrite broadcast_single;
             cbn [rbind fmap option_fmap option_map]).
Qed.

Lemma degrees_acos_range x : (0 <= degrees (acos x) <= 180)%R.
Proof.
  pose proof (acos_bound x) as [H0 H1]. pose proof PI_RGT_0 as Hpi.
  unfold degrees. split.
  - apply Rmult_le_pos; [nra|]. left. by apply Rinv_0_lt_compat.
  - apply (Rmult_le_reg_r PI); [lra|].
    replace (acos x * 180 / PI * PI)%R with (acos x * 180)%R
      by (field; lra).
    nra.
Qed.

(** X16. The dihedral of a chain of four atoms of the molecule is [nan]
    or lies between 0 and 360 degrees. *)
Theorem dihedral_degrees_range c i b a d pi pb pa pd :
  position_of c i = Some pi → position_of c b = Some pb →
  position_of c a = Some pa → position_of c d = Some pd →
  dihedral_degrees c [(i, b, a, d)] 0 = Ok [None] ∨
  ∃ x, dihedral_degrees c [(i, b, a, d)] 0 = Ok [Some x] ∧
       (0 <= x <= 360)%R.
Proof.
  intros Hi Hb Ha Hd.
  destruct (normalised (plane_normals pi pb pa pd).1) as [n1|] eqn:H1;
    [|left; eapply dihedral_degrees_single_nan; eauto].
  destruct (normalised (plane_normals pi pb pa pd).2) as [n2|] eqn:H2;
    [|left; eapply dihedral_degrees_single_nan; eauto].
  right. eexists. split.
  - by apply (dihedral_degrees_single c i b a d pi pb pa pd n1 n2).
  - pose proof (degrees_acos_range (clip (dot n1 n2))).
    destruct (Rlt_dec 0 _); lra.
Qed.

Lemma dihedral_degrees_range_witness :
  dihedral_degrees chain_plus [(1, 2, 3, 4)] 0 = Ok [None] ∨
  ∃ x, dihedral_degrees chain_plus [(1, 2, 3, 4)] 0 = Ok [Some x] ∧
       (0 <= x <= 360)%R.
Proof.
  destruct chain_plus_positions as (Hi & Hb & Ha & Hd).
  exact (dihedral_degrees_range chain_plus 1 2 3 4 _ _ _ _ Hi Hb Ha Hd).
Defined.

Lemma normalised_zero v : dot v v = 0%R → normalised v = None.
Proof.
  intros Hv. unfold normalised, norm. rewrite Hv, sqrt_0.
  by destruct (Req_dec_T 0 0).
Qed.

(** X17. A chain that names the same atom twice in a row has no
    dihedral: a difference vector is zero, a plane normal is the zero
    vector, and the division by its norm gives [nan]; no exception is
    raised. *)
Theorem dihedral_degrees_repeated_atom c i b a d pi pb pa pd :
  position_of c i = Some pi → position_of c b = Some pb →
  position_of c a = Some pa → position_of c d = Some pd →
  i = b ∨ b = a ∨ a = d →
  dihedral_degrees c [(i, b, a, d)] 0 = Ok [None].
Proof.
  intros Hi Hb Ha Hd Hrep.
  apply (dihedral_degrees_single_nan c i b a d pi pb pa pd); try done.
  unfold plane_normals. cbn [fst snd].
  destruct pi as [[xi yi] zi], pb as [[xb yb] zb], pa as [[xa ya] za],
    pd as [[xd yd] zd].
  destruct Hrep as [->|[->| ->]].
  - left. rewrite Hi in Hb. injection Hb as -> -> ->.
    apply normalised_zero. unfold dot, cross, vsub. simpl. ring.
  - left. rewrite Hb in Ha. injection Ha as -> -> ->.
    apply normalised_zero. unfold dot, cross, vsub. simpl. ring.
  - right. rewrite Ha in Hd. injection Hd as -> -> ->.
    apply normalised_zero. unfold dot, cross, vsub. simpl. ring.
Qed.

Lemma dihedral_degrees_repeated_atom_witness :
  dihedral_degrees chain_plus [(1, 1, 3, 4)] 0 = Ok [None].
Proof.
  destruct chain_plus_positions as (Hi & Hb & Ha & Hd).
  apply (dihedral_degrees_repeated_atom chain_plus 1 1 3 4 _ _ _ _
           Hi Hi Ha Hd).
  by left.
Defined.

Lemma rvec_eq (x y z x' y' z' : R) :
  x = x' → y = y' → z = z' → (x, y, z) = (x', y', z').
Proof. by intros -> -> ->. Qed.

Lemma dot_opp v : dot (vsub (0, 0, 0)%R v) (vsub (0, 0, 0)%R v) = dot v v.
Proof. unfold dot, vsub. simpl. ring. Qed.

Lemma normalised_opp v :
  normalised (vsub (0, 0, 0)%R v)
  = (λ n, vsub (0, 0, 0)%R n) <$> normalised v.
Proof.
  unfold normalised, norm. rewrite dot_opp.
  destruct (Req_dec_T (sqrt (dot v v)) 0) as [|Hn]; [done|].
  simpl. unfold vsub. simpl. f_equal. apply rvec_eq; field; done.
Qed.

Lemma plane_normals_reversed pi pb pa pd :
  plane_normals pd pa pb pi
  = (vsub (0, 0, 0)%R (plane_normals pi pb pa pd).2,
     vsub (0, 0, 0)%R (plane_normals pi pb pa pd).1).
Proof.
  unfold plane_normals, cross, vsub. simpl.
  f_equal; apply rvec_eq; ring.
Qed.

(** X18. Read backwards, a chain has the same dihedral: the chain
    [(d, a, b, i)] gives what [(i, b, a, d)] gives. *)
Theorem dihedral_degrees_reversed c i b a d pi pb pa pd :
  position_of c i = Some pi → position_of c b = Some pb →
  position_of c a = Some pa → position_of c d = Some pd →
  dihedral_degrees c [(d, a, b, i)] 0 = dihedral_degrees c [(i, b, a, d)] 0.
Proof.
  intros Hi Hb Ha Hd.
  pose proof (plane_normals_reversed pi pb pa pd) as Hrev.
  destruct (normalised (plane_normals pi pb pa pd).1) as [n1|] eqn:H1.
  2:{ rewrite (dihedral_degrees_single_nan c i b a d pi pb pa pd),
        (dihedral_degrees_single_nan c d a b i pd pa pb pi); try done;
        [|by left].
      right. rewrite Hrev; cbn [fst snd]; by rewrite normalised_opp, H1. }
  destruct (normalised (plane_normals pi pb pa pd).2) as [n2|] eqn:H2.
  2:{ rewrite (dihedral_degrees_single_nan c i b a d pi pb pa pd),
        (dihedral_degrees_single_nan c d a b i pd pa pb pi); try done;
        [|by right].
      left. rewrite Hrev; cbn [fst snd]; by rewrite normalised_opp, H2. }
  rewrite (dihedral_degrees_single c i b a d pi pb pa pd n1 n2) by done.
  rewrite (dihedral_degrees_single c d a b i pd pa pb pi
             (vsub (0, 0, 0)%R n2) (vsub (0, 0, 0)%R n1)); try done.
  2:{ rewrite Hrev; cbn [fst snd]; by rewrite normalised_opp, H2. }
  2:{ rewrite Hrev; cbn [fst snd]; by rewrite normalised_opp, H1. }
  assert (dot (vsub (0, 0, 0)%R n2) (vsub (0, 0, 0)%R n1) = dot n1 n2)
    as -> by (unfold dot, vsub; simpl; ring).
  assert (dot (vsub pb pa)
              (cross (vsub (0, 0, 0)%R n2) (vsub (0, 0, 0)%R n1))
          = dot (vsub pa pb) (cross n1 n2)) as ->
    by (unfold dot, cross, vsub; simpl; ring).
  done.
Qed.

Lemma dihedral_degrees_reversed_witness :
  dihedral_degrees chain_plus [(4, 3, 2, 1)] 0
  = dihedral_degrees chain_plus [(1, 2, 3, 4)] 0.
Proof.
  destruct chain_plus_positions as (Hi & Hb & Ha & Hd).
  exact (dihedral_degrees_reversed chain_plus 1 2 3 4 _ _ _ _ Hi Hb Ha Hd).
Defined.

(** ** Fragments *)

Lemma restrict_loop (bd : bond_dict_t) (ids : gset Z) (l : list Z)
    (acc : bond_dict_t) :
  (∀ j, j ∈ l → j ∈ dom bd) →
  ∃ d, for_each l
         (λ new j, pj ← dict_get bd j ;;; Ok (<[j := pj ∩ ids]> new)) acc
       = Ok d ∧
    (∀ j, j ∈ dom d ↔ j ∈ dom acc ∨ j ∈ l) ∧
    (∀ j, j ∈ l → bonds d j = bonds bd j ∩ ids) ∧
    (∀ j, j ∉ l → d !! j = acc !! j).
Proof.
  revert acc. induction l as [|k l IH]; intros acc Hl; simpl.
  - exists acc. split; [done|]. split; [|split]; try done.
    + intros j. split; [by left|]. by intros [?|?%elem_of_nil].
    + by intros j ?%elem_of_nil.
  - assert (k ∈ dom bd) as [pk Hk]%elem_of_dom by (apply Hl; left).
    unfold dict_get at 1. rewrite Hk. cbn [rbind].
    destruct (IH (<[k := pk ∩ ids]> acc)) as (d & -> & Hdom & Hb & Hrest).
    { intros j Hj. apply Hl. by right. }
    exists d. split; [done|]. split; [|split].
    + intros j. rewrite Hdom, dom_insert, elem_of_union, elem_of_singleton,
        elem_of_cons. tauto.
    + intros j Hj. destruct (decide (j ∈ l)) as [|Hn]; [by apply Hb|].
      apply elem_of_cons in Hj as [->|]; [|done].
      unfold bonds. by rewrite (Hrest k Hn), lookup_insert_eq, Hk.
    + intros j Hj. apply not_elem_of_cons in Hj as [Hne Hj].
      by rewrite (Hrest j Hj), lookup_insert_ne.
Qed.

(** X13. [restrict_bond_dict] on a relation that has an entry for every
    atom of the fragment returns a relation whose keys are the atoms of
    the fragment and whose partners are the partners inside the
    fragment; it is closed, and symmetric when the given relation is. *)
Theorem restrict_bond_dict_spec c bd :
  (∀ j, j ∈ index_of c → j ∈ dom bd) →
  ∃ d, restrict_bond_dict c bd = Ok d ∧
    (∀ j, j ∈ dom d ↔ j ∈ index_of c) ∧
    (∀ i j, j ∈ bonds d i ↔
            i ∈ index_of c ∧ j ∈ index_of c ∧ j ∈ bonds bd i) ∧
    closed_bond_dict d ∧
    (symmetric_bond_dict bd → symmetric_bond_dict d).
Proof.
  intros Hkeys. unfold restrict_bond_dict.
  destruct (restrict_loop bd (list_to_set (index_of c)) (index_of c) ∅ Hkeys)
    as (d & -> & Hdom & Hb & Hrest).
  exists d. split; [done|].
  assert (∀ j, j ∈ dom d ↔ j ∈ index_of c) as Hdom'.
  { intros j. rewrite Hdom, dom_empty. set_solver. }
  assert (∀ i j, j ∈ bonds d i ↔
            i ∈ index_of c ∧ j ∈ index_of c ∧ j ∈ bonds bd i) as Hbonds.
  { intros i j. destruct (decide (i ∈ index_of c)) as [Hi|Hi].
    - rewrite (Hb i Hi), elem_of_intersection, elem_of_list_to_set. tauto.
    - unfold bonds at 1. rewrite (Hrest i Hi), lookup_empty. simpl.
      split; [by intros ?%not_elem_of_empty|tauto]. }
  split; [done|]. split; [done|]. split.
  - intros i j (_ & Hj & _)%Hbonds. by apply Hdom'.
  - intros Hsym i j (Hi & Hj & Hij)%Hbonds. apply Hbonds.
    repeat split; try done. by apply Hsym.
Qed.

Lemma restrict_bond_dict_spec_witness :
  ∃ d, restrict_bond_dict first_atom_only {[10 := {[20]}; 20 := {[10]}]}
       = Ok d ∧
    (∀ j, j ∈ dom d ↔ j ∈ index_of first_atom_only) ∧
    (∀ i j, j ∈ bonds d i ↔
            i ∈ index_of first_atom_only ∧ j ∈ index_of first_atom_only ∧
            j ∈ bonds {[10 := {[20]}; 20 := {[10]}]} i) ∧
    closed_bond_dict d ∧
    (symmetric_bond_dict {[10 := {[20]}; 20 := {[10]}]} →
     symmetric_bond_dict d).
Proof.
  apply (restrict_bond_dict_spec first_atom_only
           {[10 := {[20]}; 20 := {[10]}]}).
  intros j Hj. unfold index_of, first_atom_only in Hj. simpl in Hj.
  apply list_elem_of_singleton in Hj as ->.
  apply elem_of_dom. by exists {[20]}.
Defined.

(** X14. An atom of the fragment without entry in the relation makes
    [restrict_bond_dict] raise [KeyError]. *)
Theorem restrict_bond_dict_missing_key c bd j :
  j ∈ index_of c → j ∉ dom bd →
  restrict_bond_dict c bd = Raise KeyError.
Proof.
  intros Hj Hn. unfold restrict_bond_dict.
  generalize (∅ : bond_dict_t).
  generalize (list_to_set (index_of c) : gset Z). intros ids.
  induction (index_of c) as [|k l IH]; intros acc;
    [by apply elem_of_nil in Hj|].
  simpl. unfold dict_get at 1.
  destruct (bd !! k) as [pk|] eqn:Hk; [|done]. cbn [rbind].
  apply elem_of_cons in Hj as [->|Hj].
  - exfalso. apply Hn, elem_of_dom. eauto.
  - by apply IH.
Qed.

Lemma restrict_bond_dict_missing_key_witness :
  restrict_bond_dict three_atoms {[10 := {[20]}]} = Raise KeyError.
Proof.
  apply (restrict_bond_dict_missing_key three_atoms {[10 := {[20]}]} 30).
  - unfold index_of, three_atoms. simpl. set_solver.
  - rewrite dom_singleton. set_solver.
Defined.

(** X15. [get_fragment] follows the bonds from the fragment side of the
    first bond and never crosses to the molecule side: the atom
    [list_of_indextuples[0][1]] is returned, no first component of a
    tuple is, and what is returned is what a path of bonds reaches
    without entering a first component. *)
Theorem get_fragment_stays_on_its_side O st c use_lookup c1 bd first rest :
  get_bonds_default O st c use_lookup = (c1, Ok bd) →
  closed_bond_dict bd →
  first.2 ∉ (first :: rest).*1 →
  ∃ found,
    get_fragment O st c1 (first :: rest) true use_lookup
    = (c1, Ok (Indices found)) ∧
    first.2 ∈ found ∧
    (∀ m, m ∈ (first :: rest).*1 → m ∉ found) ∧
    ∀ v, v ∈ found ↔
         rtc (hop bd (list_to_set ((first :: rest).*1))) first.2 v.
Proof.
  intros Hget Hclosed Hfirst.
  destruct (connected_to_spec O st c use_lookup c1 bd first.2
              (Some (list_to_set ((first :: rest).*1))) Hget Hclosed)
    as (found & Hfound & _ & Hreach).
  { cbn [default]. by intros ?%elem_of_list_to_set. }
  exists found. unfold get_fragment. rewrite Hfound.
  cbn [as_indices rbind select]. split; [done|].
  split; [by apply Hreach|]. split; [|done].
  intros m Hm Hv%Hreach. cbn [default] in Hv.
  apply rtc_inv_r in Hv as [E|(u & _ & _ & Hn)].
  - apply Hfirst. by rewrite E.
  - apply Hn. by apply elem_of_list_to_set.
Qed.

Lemma get_fragment_stays_on_its_side_witness :
  ∃ c1 bd found,
    get_bonds_default canonical_order example_settings three_atoms false
    = (c1, Ok bd) ∧
    get_fragment canonical_order example_settings c1 [(20, 30)] true false
    = (c1, Ok (Indices found)) ∧
    (20, 30).2 ∈ found ∧
    (∀ m, m ∈ [(20, 30)].*1 → m ∉ found) ∧
    ∀ v, v ∈ found ↔
         rtc (hop bd (list_to_set ([(20, 30)].*1))) (20, 30).2 v.
Proof.
  destruct (get_bonds_fresh canonical_order three_atoms false 3 None true
              (uniform_radius 0.8)) as (fr & bd & _ & _ & Hget);
    [discriminate|].
  pose proof (get_bonds_default_bond_graph canonical_order example_settings
                three_atoms _ bd three_atoms_NoDup Hget) as (_ & Hclosed & _).
  destruct (get_fragment_stays_on_its_side canonical_order example_settings
              three_atoms false _ bd (20, 30) [] Hget Hclosed)
    as (found & Hfound); [simpl; set_solver|].
  eexists _, bd, found. split; [exact Hget|]. exact Hfound.
Defined.

(** ** Further properties of the indexers *)

Section indexer_safety.
Import indexers.
Context (L : Collaborators).

Lemma assign_frame_elsewhere set set2 (h : store (frame L)) a k v h' r :
  assign_frame L set set2 h a k v = (h', r) →
  (∀ b, b ≠ a → h' !! b = h !! b) ∧
  (∀ e, r = Raised e → h' = h).
Proof.
  unfold assign_frame. destruct (h !! a) as [z|]; [|by intros [= <- <-]].
  destruct (set_by L set set2 (_frame z) k v) as [f|e];
    intros [= <- <-]; [|done].
  split; [|done]. intros b Hb. by rewrite lookup_insert_ne.
Qed.

End indexer_safety.

(** X19. With the [dummy_manipulation_allowed] flag off, a safe write
    never changes an object that existed before the call, whatever the
    outcome (the assignment may raise, [give_cartesian] may raise or
    not), provided [give_cartesian] changes no object but the one it is
    called on. *)
Theorem safe_write_isolated (L : indexers.Collaborators)
    (h : gmap indexers.addr (indexers.Zmat (indexers.frame L)))
    (self : indexers.indexer) k v z h' self' r :
  h !! indexers.molecule self = Some z →
  indexers._metadata z !! "dummy_manipulation_allowed" = Some false →
  touches_only_its_object (indexers.give_cartesian L) →
  indexers._Safe_Loc__setitem__ L (h, self) k v = ((h', self'), r) →
  ∀ a, a ∈ dom h → h' !! a = h !! a.
Proof.
  intros Hz Hflag Hgive Hcall a Ha.
  unfold indexers._Safe_Loc__setitem__, indexers.copy in Hcall.
  rewrite Hz, Hflag in Hcall.
  set (pending := fresh (dom h)) in *.
  assert (a ≠ pending) as Hne.
  { intros ->. by apply (is_fresh (dom h)). }
  destruct (indexers.assign_frame L _ _ (<[pending := z]> h) pending k v)
    as [h1 r1] eqn:Hassign.
  apply (assign_frame_elsewhere L) in Hassign as [Hassign _].
  assert (h1 !! a = h !! a) as H1.
  { rewrite Hassign by done. by rewrite lookup_insert_ne. }
  destruct r1 as [[]|e]; cbv beta iota in Hcall;
    [|by injection Hcall as <- <- <-].
  destruct (indexers.give_cartesian L h1 pending) as [h2 r2] eqn:Hg.
  assert (h2 !! a = h !! a) as H2.
  { by rewrite (Hgive _ _ _ _ Hg a Hne). }
  destruct r2 as [[]|[d o| | |]]; cbv beta iota in Hcall;
    by injection Hcall as <- <- <-.
Qed.

Lemma toy_give_cartesian_touches_only_its_object :
  touches_only_its_object (indexers.give_cartesian toy_layer).
Proof.
  intros h a h' r Hcall b _.
  unfold toy_layer in Hcall. cbn [indexers.give_cartesian] in Hcall.
  repeat case_match; by injection Hcall as <- <-.
Defined.

Lemma safe_write_isolated_witness :
  ∀ h' self' r,
    indexers._Safe_Loc__setitem__ toy_layer
      (toy_store, indexers.mkIndexer 1%positive) (indexers.Label ()) 7
    = ((h', self'), r) →
    ∀ a, a ∈ dom toy_store → h' !! a = toy_store !! a.
Proof.
  intros h' self' r.
  apply (safe_write_isolated toy_layer toy_store
           (indexers.mkIndexer 1%positive) (indexers.Label ()) 7
           (indexers.mkZmat 5 {[ "dummy_manipulation_allowed" := false ]})
           h' self' r).
  - reflexivity.
  - reflexivity.
  - exact toy_give_cartesian_touches_only_its_object.
Defined.

(** X20. With the flag off, a safe write that succeeds rebinds the
    [molecule] attribute of the indexer to the copy, which holds the
    assigned frame; the molecule object that the indexer referred to
    before is not changed. *)
Theorem safe_write_success_rebinds (L : indexers.Collaborators)
    (h : gmap indexers.addr (indexers.Zmat (indexers.frame L)))
    (self : indexers.indexer) k v z f h' :
  let pending := fresh (dom h) in
  let h_pending :=
    <[pending := indexers.mkZmat f (indexers._metadata z)]> h in
  h !! indexers.molecule self = Some z →
  indexers._metadata z !! "dummy_manipulation_allowed" = Some false →
  indexers.set_by L (indexers.loc_set L) (indexers.loc_set2 L)
                  (indexers._frame z) k v = indexers.Done f →
  indexers.give_cartesian L h_pending pending = (h', indexers.Done ()) →
  (∀ a, a ≠ pending → h' !! a = h_pending !! a) →
  indexers._Safe_Loc__setitem__ L (h, self) k v
  = ((h', indexers.mkIndexer pending), indexers.Done ()) ∧
  pending ≠ indexers.molecule self ∧
  h' !! indexers.molecule self = Some z.
Proof.
  intros pending h_pending Hz Hflag Hset Hgive Hframe.
  assert (pending ≠ indexers.molecule self) as Hne.
  { intros E. pose proof (fresh_address L h) as Hfresh.
    fold pending in Hfresh. rewrite E, Hz in Hfresh. done. }
  split; [|split; [done|]].
  - unfold indexers._Safe_Loc__setitem__, indexers.copy.
    rewrite Hz, Hflag.
    rewrite (assign_frame_copy L _ _ h z k v f Hset).
    fold pending. fold h_pending. by rewrite Hgive.
  - rewrite Hframe by done. unfold h_pending.
    by rewrite lookup_insert_ne.
Qed.

Lemma safe_write_success_rebinds_witness :
  indexers._Safe_Loc__setitem__ toy_layer
    (toy_store, indexers.mkIndexer 1%positive) (indexers.Label ()) 7
  = ((<[2%positive :=
          indexers.mkZmat 7 {[ "dummy_manipulation_allowed" := false ]}]>
        toy_store,
      indexers.mkIndexer 2%positive), indexers.Done ()) ∧
  2%positive ≠ 1%positive ∧
  (<[2%positive :=
       indexers.mkZmat 7 {[ "dummy_manipulation_allowed" := false ]}]>
     toy_store) !! 1%positive
  = Some (indexers.mkZmat 5 {[ "dummy_manipulation_allowed" := false ]}).
Proof.
  refine (safe_write_success_rebinds toy_layer toy_store
            (indexers.mkIndexer 1%positive) (indexers.Label ()) 7
            (indexers.mkZmat 5 {[ "dummy_manipulation_allowed" := false ]})
            7 _ _ _ _ _ _).
  - reflexivity.
  - reflexivity.
  - reflexivity.
  - reflexivity.
  - reflexivity.
Defined.

(** X21. An unsafe write works in place and on one object: the indexer
    keeps its reference, no object other than its molecule changes, the
    metadata of the molecule are kept, and when the assignment raises,
    nothing has changed. *)
Theorem unsafe_write_in_place (L : indexers.Collaborators)
    (h : gmap indexers.addr (indexers.Zmat (indexers.frame L)))
    (self : indexers.indexer) k v z h' self' r :
  h !! indexers.molecule self = Some z →
  indexers._Unsafe_Loc__setitem__ L (h, self) k v = ((h', self'), r) →
  self' = self ∧
  (∀ a, a ≠ indexers.molecule self → h' !! a = h !! a) ∧
  (∃ z', h' !! indexers.molecule self = Some z' ∧
         indexers._metadata z' = indexers._metadata z) ∧
  (∀ e, r = indexers.Raised e → h' = h).
Proof.
  intros Hz Hcall. unfold indexers._Unsafe_Loc__setitem__ in Hcall.
  cbn [fst snd] in Hcall.
  destruct (indexers.assign_frame L _ _ h (indexers.molecule self) k v)
    as [h1 r1] eqn:Hassign.
  injection Hcall as <- <- <-.
  pose proof (assign_frame_elsewhere L _ _ _ _ _ _ _ _ Hassign)
    as [Helse Hraise].
  split; [done|]. split; [done|]. split; [|done].
  unfold indexers.assign_frame in Hassign. rewrite Hz in Hassign.
  destruct (indexers.set_by L _ _ (indexers._frame z) k v) as [f|e];
    injection Hassign as <- <-.
  - eexists. by rewrite lookup_insert_eq.
  - by exists z.
Qed.

Lemma unsafe_write_in_place_witness :
  ∀ h' self' r,
    indexers._Unsafe_Loc__setitem__ toy_layer
      (toy_store, indexers.mkIndexer 1%positive) (indexers.Label ()) 0
    = ((h', self'), r) →
    self' = indexers.mkIndexer 1%positive ∧
    (∀ a, a ≠ 1%positive → h' !! a = toy_store !! a) ∧
    (∃ z', h' !! 1%positive = Some z' ∧
           indexers._metadata z'
           = {[ "dummy_manipulation_allowed" := false ]}) ∧
    (∀ e, r = indexers.Raised e → h' = toy_store).
Proof.
  intros h' self' r.
  exact (unsafe_write_in_place toy_layer toy_store
           (indexers.mkIndexer 1%positive) (indexers.Label ()) 0
           (indexers.mkZmat 5 {[ "dummy_manipulation_allowed" := false ]})
           h' self' r eq_refl).
Defined.
